(** * Glimmerwood Dash: the fixed-step simulation engine of [src/App.tsx]

    A shallow embedding of the game model held in [gameRef], of the
    transitions [startGame], [pauseGame], [resumeGame], [doJump],
    [handleResize], of [makeFireflies], of the fixed-step [update] and of
    the frame callback [tick], followed by the properties of the engine.

    Numbers.  A JavaScript [number] that holds a coordinate, a velocity or
    a time is embedded as an exact rational ([Q]): the arithmetic is the
    arithmetic of the source, without rounding, NaN or infinities.  The
    three counters [score], [hearts] and [jumpsRemaining] only ever hold
    small integers and are embedded as [Z].

    [Math.random()] is the function [random]: its [n]-th call returns
    [random n]; the number of calls made so far is the cell [rng].

    Calls that leave the engine ([onHeartsChange], [onScore], [onGameOver],
    [playSfx], the React setters, [draw]) are recorded, in order, in the
    cell [log]. *)

From Stdlib Require Import QArith ZArith List Bool Lia Lqa Qround Qabs.
Import ListNotations.
Open Scope Q_scope.

(** ** Numbers *)

Definition ltb (a b : Q) : bool := negb (Qle_bool b a).
Definition leb (a b : Q) : bool := Qle_bool a b.
Definition gtb (a b : Q) : bool := ltb b a.
Definition geb (a b : Q) : bool := Qle_bool b a.

Definition Math_max (a b : Q) : Q := if Qle_bool a b then b else a.
Definition Math_min (a b : Q) : Q := if Qle_bool a b then a else b.

(** [const clamp = (v, a, b) => Math.max(a, Math.min(b, v))] *)
Definition clamp (v a b : Q) : Q := Math_max a (Math_min b v).

(** The same [clamp], at the integer counters. *)
Definition clampZ (v a b : Z) : Z := Z.max a (Z.min b v).

(** The remainder [a % b] of JavaScript: the quotient is truncated towards
    zero, so the result has the sign of [a].  ([a % 0] is NaN in
    JavaScript; here it is [a].) *)
Definition js_rem (a b : Q) : Q :=
  let q := a / b in
  a - b * inject_Z (Z.quot (Qnum q) (Zpos (Qden q))).

Definition DESIGN_HEIGHT : Q := 540.

(** ** Data model *)

Inductive GameState := TITLE | PLAYING | PAUSED | GAMEOVER.
Inductive ObstacleType := SMALL | LARGE.

Definition GameState_eqb (a b : GameState) : bool :=
  match a, b with
  | TITLE, TITLE | PLAYING, PLAYING | PAUSED, PAUSED | GAMEOVER, GAMEOVER => true
  | _, _ => false
  end.

Module Player.
Record Player := mk {
  x : Q; y : Q; w : Q; h : Q;
  vy : Q;
  onGround : bool;
  jumpsRemaining : Z;
  hitCooldown : Q
}.
Definition set_hitCooldown (v : Q) (p : Player) : Player :=
  mk (x p) (y p) (w p) (h p) (vy p) (onGround p) (jumpsRemaining p) v.
End Player.
Abbreviation Player := Player.Player.

Module Obstacle.
(** [remove?: boolean]: an absent [remove] is falsy and is [false] here. *)
Record Obstacle := mk {
  type : ObstacleType;
  x : Q; y : Q; w : Q; h : Q;
  hit : bool;
  scored : bool;
  remove : bool
}.
Definition set_x (v : Q) (o : Obstacle) : Obstacle :=
  mk (type o) v (y o) (w o) (h o) (hit o) (scored o) (remove o).
Definition set_y (v : Q) (o : Obstacle) : Obstacle :=
  mk (type o) (x o) v (w o) (h o) (hit o) (scored o) (remove o).
End Obstacle.
Abbreviation Obstacle := Obstacle.Obstacle.

Module HeartPickup.
Record HeartPickup := mk {
  x : Q; y : Q; w : Q; h : Q;
  taken : bool
}.
Definition set_x (v : Q) (hr : HeartPickup) : HeartPickup :=
  mk v (y hr) (w hr) (h hr) (taken hr).
Definition set_taken (v : bool) (hr : HeartPickup) : HeartPickup :=
  mk (x hr) (y hr) (w hr) (h hr) v.
End HeartPickup.
Abbreviation HeartPickup := HeartPickup.HeartPickup.

Module Firefly.
Record Firefly := mk { x : Q; y : Q; r : Q; phase : Q; speed : Q }.
End Firefly.
Abbreviation Firefly := Firefly.Firefly.

(** The box returned by [shrink]. *)
Module Box.
Record Box := mk { x : Q; y : Q; w : Q; h : Q }.
End Box.
Abbreviation Box := Box.Box.

(** The object held in [gameRef] (its three callbacks are the effects
    [OnHeartsChange], [OnScore] and [OnGameOver] below). *)
Record Game := mkGame {
  state : GameState;
  t : Q;
  bgOffset : Q;
  speed : Q;
  difficultySeconds : Q;
  u : Q;
  G : Q;
  JUMP_V : Q;
  HIT_BUFFER : Q;
  groundY : Q;
  player : Player;
  obstacles : list Obstacle;
  heartPickups : list HeartPickup;
  obsTimer : Q;
  obsInterval : Q;
  lastObstacleX : Q;
  minGapPx : Q;
  heartTimer : Q;
  heartInterval : Q;
  score : Z;
  hearts : Z
}.

Inductive SfxKind := SfxJump | SfxHit | SfxPickup.

(** What the engine tells the outside, in the order it does. *)
Inductive Effect :=
| OnHeartsChange (n : Z)
| OnScore (n : Z)
| OnGameOver (final : Z)
| PlaySfx (kind : SfxKind)
| SetScore (n : Z)
| SetHeartsUI (n : Z)
| SetGameState (s : GameState)
| Draw.

(** The other [useRef] cells the engine reads and writes: [sizeRef],
    [imagesRef.current.backdrop] (the width of the image, when loaded),
    [firefliesRef], [ctxRef] (is there a drawing context), [timestampRef]
    and [accumRef]. *)
Record Refs := mkRefs {
  sizeW : Q;
  sizeH : Q;
  backdrop : option Q;
  fireflies : list Firefly;
  ctxRef : bool;
  timestampRef : Q;
  accumRef : Q;
  rng : nat;
  log : list Effect
}.

(** *** Field assignments *)

Definition set_state (v : GameState) (g : Game) : Game :=
  mkGame v (t g) (bgOffset g) (speed g) (difficultySeconds g) (u g) (G g)
    (JUMP_V g) (HIT_BUFFER g) (groundY g) (player g) (obstacles g)
    (heartPickups g) (obsTimer g) (obsInterval g) (lastObstacleX g)
    (minGapPx g) (heartTimer g) (heartInterval g) (score g) (hearts g).
Definition set_t (v : Q) (g : Game) : Game :=
  mkGame (state g) v (bgOffset g) (speed g) (difficultySeconds g) (u g) (G g)
    (JUMP_V g) (HIT_BUFFER g) (groundY g) (player g) (obstacles g)
    (heartPickups g) (obsTimer g) (obsInterval g) (lastObstacleX g)
    (minGapPx g) (heartTimer g) (heartInterval g) (score g) (hearts g).
Definition set_bgOffset (v : Q) (g : Game) : Game :=
  mkGame (state g) (t g) v (speed g) (difficultySeconds g) (u g) (G g)
    (JUMP_V g) (HIT_BUFFER g) (groundY g) (player g) (obstacles g)
    (heartPickups g) (obsTimer g) (obsInterval g) (lastObstacleX g)
    (minGapPx g) (heartTimer g) (heartInterval g) (score g) (hearts g).
Definition set_speed (v : Q) (g : Game) : Game :=
  mkGame (state g) (t g) (bgOffset g) v (difficultySeconds g) (u g) (G g)
    (JUMP_V g) (HIT_BUFFER g) (groundY g) (player g) (obstacles g)
    (heartPickups g) (obsTimer g) (obsInterval g) (lastObstacleX g)
    (minGapPx g) (heartTimer g) (heartInterval g) (score g) (hearts g).
Definition set_difficultySeconds (v : Q) (g : Game) : Game :=
  mkGame (state g) (t g) (bgOffset g) (speed g) v (u g) (G g)
    (JUMP_V g) (HIT_BUFFER g) (groundY g) (player g) (obstacles g)
    (heartPickups g) (obsTimer g) (obsInterval g) (lastObstacleX g)
    (minGapPx g) (heartTimer g) (heartInterval g) (score g) (hearts g).
Definition set_u (v : Q) (g : Game) : Game :=
  mkGame (state g) (t g) (bgOffset g) (speed g) (difficultySeconds g) v
    (G g) (JUMP_V g) (HIT_BUFFER g) (groundY g) (player g) (obstacles g)
    (heartPickups g) (obsTimer g) (obsInterval g) (lastObstacleX g)
    (minGapPx g) (heartTimer g) (heartInterval g) (score g) (hearts g).
Definition set_G (v : Q) (g : Game) : Game :=
  mkGame (state g) (t g) (bgOffset g) (speed g) (difficultySeconds g) (u g)
    v (JUMP_V g) (HIT_BUFFER g) (groundY g) (player g) (obstacles g)
    (heartPickups g) (obsTimer g) (obsInterval g) (lastObstacleX g)
    (minGapPx g) (heartTimer g) (heartInterval g) (score g) (hearts g).
Definition set_JUMP_V (v : Q) (g : Game) : Game :=
  mkGame (state g) (t g) (bgOffset g) (speed g) (difficultySeconds g) (u g)
    (G g) v (HIT_BUFFER g) (groundY g) (player g) (obstacles g)
    (heartPickups g) (obsTimer g) (obsInterval g) (lastObstacleX g)
    (minGapPx g) (heartTimer g) (heartInterval g) (score g) (hearts g).
Definition set_groundY (v : Q) (g : Game) : Game :=
  mkGame (state g) (t g) (bgOffset g) (speed g) (difficultySeconds g) (u g)
    (G g) (JUMP_V g) (HIT_BUFFER g) v (player g) (obstacles g)
    (heartPickups g) (obsTimer g) (obsInterval g) (lastObstacleX g)
    (minGapPx g) (heartTimer g) (heartInterval g) (score g) (hearts g).
Definition set_minGapPx (v : Q) (g : Game) : Game :=
  mkGame (state g) (t g) (bgOffset g) (speed g) (difficultySeconds g) (u g)
    (G g) (JUMP_V g) (HIT_BUFFER g) (groundY g) (player g) (obstacles g)
    (heartPickups g) (obsTimer g) (obsInterval g) (lastObstacleX g)
    v (heartTimer g) (heartInterval g) (score g) (hearts g).
Definition set_player (v : Player) (g : Game) : Game :=
  mkGame (state g) (t g) (bgOffset g) (speed g) (difficultySeconds g) (u g)
    (G g) (JUMP_V g) (HIT_BUFFER g) (groundY g) v (obstacles g)
    (heartPickups g) (obsTimer g) (obsInterval g) (lastObstacleX g)
    (minGapPx g) (heartTimer g) (heartInterval g) (score g) (hearts g).
Definition set_obstacles (v : list Obstacle) (g : Game) : Game :=
  mkGame (state g) (t g) (bgOffset g) (speed g) (difficultySeconds g) (u g)
    (G g) (JUMP_V g) (HIT_BUFFER g) (groundY g) (player g) v
    (heartPickups g) (obsTimer g) (obsInterval g) (lastObstacleX g)
    (minGapPx g) (heartTimer g) (heartInterval g) (score g) (hearts g).
Definition set_heartPickups (v : list HeartPickup) (g : Game) : Game :=
  mkGame (state g) (t g) (bgOffset g) (speed g) (difficultySeconds g) (u g)
    (G g) (JUMP_V g) (HIT_BUFFER g) (groundY g) (player g) (obstacles g)
    v (obsTimer g) (obsInterval g) (lastObstacleX g)
    (minGapPx g) (heartTimer g) (heartInterval g) (score g) (hearts g).
Definition set_obsTimer (v : Q) (g : Game) : Game :=
  mkGame (state g) (t g) (bgOffset g) (speed g) (difficultySeconds g) (u g)
    (G g) (JUMP_V g) (HIT_BUFFER g) (groundY g) (player g) (obstacles g)
    (heartPickups g) v (obsInterval g) (lastObstacleX g)
    (minGapPx g) (heartTimer g) (heartInterval g) (score g) (hearts g).
Definition set_obsInterval (v : Q) (g : Game) : Game :=
  mkGame (state g) (t g) (bgOffset g) (speed g) (difficultySeconds g) (u g)
    (G g) (JUMP_V g) (HIT_BUFFER g) (groundY g) (player g) (obstacles g)
    (heartPickups g) (obsTimer g) v (lastObstacleX g)
    (minGapPx g) (heartTimer g) (heartInterval g) (score g) (hearts g).
Definition set_lastObstacleX (v : Q) (g : Game) : Game :=
  mkGame (state g) (t g) (bgOffset g) (speed g) (difficultySeconds g) (u g)
    (G g) (JUMP_V g) (HIT_BUFFER g) (groundY g) (player g) (obstacles g)
    (heartPickups g) (obsTimer g) (obsInterval g) v
    (minGapPx g) (heartTimer g) (heartInterval g) (score g) (hearts g).
Definition set_heartTimer (v : Q) (g : Game) : Game :=
  mkGame (state g) (t g) (bgOffset g) (speed g) (difficultySeconds g) (u g)
    (G g) (JUMP_V g) (HIT_BUFFER g) (groundY g) (player g) (obstacles g)
    (heartPickups g) (obsTimer g) (obsInterval g) (lastObstacleX g)
    (minGapPx g) v (heartInterval g) (score g) (hearts g).
Definition set_heartInterval (v : Q) (g : Game) : Game :=
  mkGame (state g) (t g) (bgOffset g) (speed g) (difficultySeconds g) (u g)
    (G g) (JUMP_V g) (HIT_BUFFER g) (groundY g) (player g) (obstacles g)
    (heartPickups g) (obsTimer g) (obsInterval g) (lastObstacleX g)
    (minGapPx g) (heartTimer g) v (score g) (hearts g).
Definition set_score (v : Z) (g : Game) : Game :=
  mkGame (state g) (t g) (bgOffset g) (speed g) (difficultySeconds g) (u g)
    (G g) (JUMP_V g) (HIT_BUFFER g) (groundY g) (player g) (obstacles g)
    (heartPickups g) (obsTimer g) (obsInterval g) (lastObstacleX g)
    (minGapPx g) (heartTimer g) (heartInterval g) v (hearts g).
Definition set_hearts (v : Z) (g : Game) : Game :=
  mkGame (state g) (t g) (bgOffset g) (speed g) (difficultySeconds g) (u g)
    (G g) (JUMP_V g) (HIT_BUFFER g) (groundY g) (player g) (obstacles g)
    (heartPickups g) (obsTimer g) (obsInterval g) (lastObstacleX g)
    (minGapPx g) (heartTimer g) (heartInterval g) (score g) v.

Definition set_size (w h : Q) (r : Refs) : Refs :=
  mkRefs w h (backdrop r) (fireflies r) (ctxRef r) (timestampRef r)
    (accumRef r) (rng r) (log r).
Definition set_fireflies (v : list Firefly) (r : Refs) : Refs :=
  mkRefs (sizeW r) (sizeH r) (backdrop r) v (ctxRef r) (timestampRef r)
    (accumRef r) (rng r) (log r).
Definition set_ctxRef (v : bool) (r : Refs) : Refs :=
  mkRefs (sizeW r) (sizeH r) (backdrop r) (fireflies r) v (timestampRef r)
    (accumRef r) (rng r) (log r).
Definition set_timestampRef (v : Q) (r : Refs) : Refs :=
  mkRefs (sizeW r) (sizeH r) (backdrop r) (fireflies r) (ctxRef r) v
    (accumRef r) (rng r) (log r).
Definition set_accumRef (v : Q) (r : Refs) : Refs :=
  mkRefs (sizeW r) (sizeH r) (backdrop r) (fireflies r) (ctxRef r)
    (timestampRef r) v (rng r) (log r).
Definition set_rng (v : nat) (r : Refs) : Refs :=
  mkRefs (sizeW r) (sizeH r) (backdrop r) (fireflies r) (ctxRef r)
    (timestampRef r) (accumRef r) v (log r).
Definition set_log (v : list Effect) (r : Refs) : Refs :=
  mkRefs (sizeW r) (sizeH r) (backdrop r) (fireflies r) (ctxRef r)
    (timestampRef r) (accumRef r) (rng r) v.

(** A call of one of the outbound functions. *)
Definition emit (e : Effect) (r : Refs) : Refs := set_log (log r ++ [e]) r.

(** ** The engine *)

Section Engine.

(** [random n] is what the [n]-th call of [Math.random()] returns. *)
Variable random : nat -> Q.

Definition Math_random (r : Refs) : Q * Refs :=
  (random (rng r), set_rng (S (rng r)) r).

(** *** Transitions *)

(** [startGame] (the music apart). *)
Definition startGame (g : Game) (r : Refs) : Game * Refs :=
  let w := sizeW r in
  let h := sizeH r in
  let u' := h / DESIGN_HEIGHT in
  let pW := 48 * u' in
  let pH := 64 * u' in
  let g := set_state PLAYING g in
  let g := set_t 0 g in
  let g := set_bgOffset 0 g in
  let g := set_speed 350 g in
  let g := set_difficultySeconds 0 g in
  let g := set_obstacles [] g in
  let g := set_heartPickups [] g in
  let g := set_obsTimer 0 g in
  let g := set_obsInterval 2.1 g in
  let g := set_lastObstacleX w g in
  let g := set_minGapPx (280 * u') g in
  let g := set_heartTimer 2.2 g in
  let g := set_heartInterval 5.5 g in
  let g :=
    set_player
      (Player.mk (Math_min 140 (w * 0.22)) (groundY g - pH) pW pH 0 true 2 0)
      g in
  let g := set_score 0 g in
  let g := set_hearts 3 g in
  let r := emit (SetScore 0) r in
  let r := emit (SetHeartsUI 3) r in
  let r := emit (SetGameState PLAYING) r in
  (g, r).

Definition pauseGame (g : Game) (r : Refs) : Game * Refs :=
  match state g with
  | PLAYING => (set_state PAUSED g, emit (SetGameState PAUSED) r)
  | _ => (g, r)
  end.

Definition resumeGame (g : Game) (r : Refs) : Game * Refs :=
  match state g with
  | PAUSED => (set_state PLAYING g, emit (SetGameState PLAYING) r)
  | _ => (g, r)
  end.

Definition restartFromGameOver (g : Game) (r : Refs) : Game * Refs :=
  startGame g r.

Definition playSfx (kind : SfxKind) (r : Refs) : Refs := emit (PlaySfx kind) r.

Definition doJump (g : Game) (r : Refs) : Game * Refs :=
  match state g with
  | PLAYING =>
      let p := player g in
      if (0 <? Player.jumpsRemaining p)%Z then
        let p :=
          Player.mk (Player.x p) (Player.y p) (Player.w p) (Player.h p)
            (JUMP_V g) false (Player.jumpsRemaining p - 1)%Z
            (Player.hitCooldown p) in
        (set_player p g, playSfx SfxJump r)
      else (g, r)
  | _ => (g, r)
  end.

(** *** The fixed step *)

(** [shrink]: the box inset by 10% of its width and height. *)
Definition shrink (x y w h : Q) : Box :=
  let sx := w * 0.1 in
  let sy := h * 0.1 in
  Box.mk (x + sx * 0.5) (y + sy * 0.5) (w - sx) (h - sy).

(** The overlap test [collide] written twice in [update]. *)
Definition collide (pr b : Box) : bool :=
  ltb (Box.x pr) (Box.x b + Box.w b)
  && gtb (Box.x pr + Box.w pr) (Box.x b)
  && ltb (Box.y pr) (Box.y b + Box.h b)
  && gtb (Box.y pr + Box.h pr) (Box.y b).

(** Fireflies twinkle in every state. *)
Definition twinkle (dt : Q) (f : Firefly) : Firefly :=
  Firefly.mk (Firefly.x f) (Firefly.y f) (Firefly.r f)
    (Firefly.phase f + Firefly.speed f * 2.2 * dt) (Firefly.speed f).

Definition drift (d : Q) (w : Q) (f : Firefly) : Firefly :=
  let x := Firefly.x f - d in
  Firefly.mk (if ltb x (-10) then w + 10 else x) (Firefly.y f) (Firefly.r f)
    (Firefly.phase f) (Firefly.speed f).

(** The backdrop and the fireflies move while PLAYING. *)
Definition scroll (dt : Q) (g : Game) (r : Refs) : Game * Refs :=
  let bgBaseSpeed := Math_max 120 (speed g * 0.35) in
  let g :=
    set_bgOffset
      (js_rem (bgOffset g + bgBaseSpeed * dt)
         (match backdrop r with Some bw => bw | None => 10000 end)) g in
  (g, set_fireflies (map (drift (bgBaseSpeed * dt) (sizeW r)) (fireflies r)) r).

(** "Difficulty ramp" *)
Definition ramp (dt : Q) (g : Game) : Game :=
  let g := set_difficultySeconds (difficultySeconds g + dt) g in
  set_speed (350 + difficultySeconds g * 4) g.

(** "Player physics", up to the decay of the hit cooldown. *)
Definition physics (dt : Q) (g : Game) : Game :=
  let p := player g in
  let vy := Player.vy p + G g * dt in
  let y := Player.y p + vy * dt in
  let groundTop := groundY g - Player.h p in
  let p :=
    if geb y groundTop then
      if negb (Player.onGround p) then
        Player.mk (Player.x p) groundTop (Player.w p) (Player.h p) 0 true 2
          (Player.hitCooldown p)
      else
        Player.mk (Player.x p) groundTop (Player.w p) (Player.h p) 0
          (Player.onGround p) (Player.jumpsRemaining p) (Player.hitCooldown p)
    else
      Player.mk (Player.x p) y (Player.w p) (Player.h p) vy false
        (Player.jumpsRemaining p) (Player.hitCooldown p) in
  set_player
    (Player.set_hitCooldown (Math_max 0 (Player.hitCooldown p - dt)) p) g.

(** "Spawning with spacing" *)
Definition spawnObstacle (dt : Q) (g : Game) (r : Refs) : Game * Refs :=
  let g := set_obsTimer (obsTimer g + dt) g in
  let minInterval := 1.1 in
  let ramped := 2.1 - difficultySeconds g * 0.01 in
  let targetObsInterval := clamp ramped minInterval 2.4 in
  if geb (obsTimer g) (obsInterval g) then
    let canPlaceBySpacing := ltb (lastObstacleX g) (sizeW r - minGapPx g) in
    if canPlaceBySpacing then
      let g := set_obsTimer 0 g in
      let '(r1, r) := Math_random r in
      let g := set_obsInterval (targetObsInterval + (r1 * 0.6 - 0.3)) g in
      let '(r2, r) := Math_random r in
      let type := if ltb r2 0.7 then SMALL else LARGE in
      let u' := u g in
      let mushH := match type with SMALL => 52 * u' | LARGE => 150 * u' end in
      let mushW := (match type with SMALL => 52 | LARGE => 92 end) * u' in
      let x := sizeW r + 40 * u' in
      let y := groundY g - mushH in
      let g :=
        set_obstacles
          (obstacles g ++ [Obstacle.mk type x y mushW mushH false false false])
          g in
      (set_lastObstacleX x g, r)
    else (set_obsTimer (obsInterval g * 0.7) g, r)
  else (set_lastObstacleX (lastObstacleX g - speed g * dt) g, r).

(** The lane test of the heart spawner. *)
Definition blocksHeart (hw u x : Q) (o : Obstacle) : bool :=
  ltb (Qabs (Obstacle.x o + Obstacle.w o / 2 - x))
      (Obstacle.w o / 2 + hw + 130 * u).

(** [while (trials++ < 12 && g.obstacles.some(...)) x += 220 * u],
    by recursion on the number of trials that are left. *)
Fixpoint shiftHeart (trials : nat) (os : list Obstacle) (hw u x : Q) : Q :=
  match trials with
  | O => x
  | S trials =>
      if existsb (blocksHeart hw u x) os
      then shiftHeart trials os hw u (x + 220 * u)
      else x
  end.

(** "Hearts" *)
Definition spawnHeart (dt : Q) (g : Game) (r : Refs) : Game * Refs :=
  let g := set_heartTimer (heartTimer g + dt) g in
  if (hearts g <? 6)%Z && geb (heartTimer g) (heartInterval g) then
    let '(c, r) := Math_random r in
    if ltb c 0.6 then
      let g := set_heartTimer 0 g in
      let '(i, r) := Math_random r in
      let g := set_heartInterval (5 + i * 3.5) g in
      let u' := u g in
      let hw := 30 * u' in
      let hh := 28 * u' in
      let '(a, r) := Math_random r in
      let x := sizeW r + 240 * u' + a * (420 * u') in
      let '(b, r) := Math_random r in
      let y := groundY g - (80 + b * 70) * u' in
      let x := shiftHeart 12 (obstacles g) hw u' x in
      if ltb x (sizeW r + 1000 * u') then
        (set_heartPickups
           (heartPickups g ++ [HeartPickup.mk x y hw hh false]) g, r)
      else (g, r)
    else (g, r)
  else (g, r).

(** "Move world" *)
Definition moveWorld (dt : Q) (g : Game) : Game :=
  let vx := speed g * dt in
  let g :=
    set_obstacles
      (map (fun o => Obstacle.set_x (Obstacle.x o - vx) o) (obstacles g)) g in
  set_heartPickups
    (map (fun hr => HeartPickup.set_x (HeartPickup.x hr - vx) hr)
       (heartPickups g)) g.

(** The shrunk box of the player, computed once before the two loops. *)
Definition playerBox (g : Game) : Box :=
  let p := player g in
  shrink (Player.x p) (Player.y p) (Player.w p) (Player.h p).

(** The first [if] of the body of [for (const o of g.obstacles)]: the
    result says whether [update] returned there. *)
Definition hitObstacle (pr : Box) (o : Obstacle) (g : Game) (r : Refs)
  : Obstacle * Game * Refs * bool :=
  let or := shrink (Obstacle.x o) (Obstacle.y o) (Obstacle.w o) (Obstacle.h o) in
  if collide pr or
     && leb (Player.hitCooldown (player g)) 0
     && negb (Obstacle.hit o)
  then
    let o :=
      Obstacle.mk (Obstacle.type o) (Obstacle.x o) (Obstacle.y o)
        (Obstacle.w o) (Obstacle.h o) true (Obstacle.scored o) true in
    let g := set_hearts (clampZ (hearts g - 1) 0 6) g in
    let r := emit (OnHeartsChange (hearts g)) r in
    let g := set_player (Player.set_hitCooldown (HIT_BUFFER g) (player g)) g in
    let r := playSfx SfxHit r in
    if (hearts g <=? 0)%Z then
      let g := set_state GAMEOVER g in
      let r := emit (OnGameOver (score g)) r in
      (o, g, r, true)
    else (o, g, r, false)
  else (o, g, r, false).

(** The second [if] of that body. *)
Definition scoreObstacle (o : Obstacle) (g : Game) (r : Refs)
  : Obstacle * Game * Refs :=
  if negb (Obstacle.scored o)
     && negb (Obstacle.hit o)
     && gtb (Player.x (player g)) (Obstacle.x o + Obstacle.w o)
  then
    let o :=
      Obstacle.mk (Obstacle.type o) (Obstacle.x o) (Obstacle.y o)
        (Obstacle.w o) (Obstacle.h o) (Obstacle.hit o) true
        (Obstacle.remove o) in
    let g := set_score (score g + 1)%Z g in
    let r := emit (OnScore (score g)) r in
    (o, g, r)
  else (o, g, r).

(** [for (const o of g.obstacles) { ... }]: the obstacles are updated in
    place; when the body returns, the obstacles not yet visited are left
    as they are.  The Boolean says whether [update] returned. *)
Fixpoint obstacleLoop (pr : Box) (os : list Obstacle) (g : Game) (r : Refs)
  : list Obstacle * Game * Refs * bool :=
  match os with
  | [] => ([], g, r, false)
  | o :: rest =>
      let '(o, g, r, returned) := hitObstacle pr o g r in
      if returned then (o :: rest, g, r, true)
      else
        let '(o, g, r) := scoreObstacle o g r in
        let '(rest, g, r, returned) := obstacleLoop pr rest g r in
        (o :: rest, g, r, returned)
  end.

(** The body of [for (const hr of g.heartPickups)]. *)
Definition takeHeart (pr : Box) (hr : HeartPickup) (g : Game) (r : Refs)
  : HeartPickup * Game * Refs :=
  if HeartPickup.taken hr then (hr, g, r)
  else
    let rr :=
      shrink (HeartPickup.x hr) (HeartPickup.y hr) (HeartPickup.w hr)
        (HeartPickup.h hr) in
    if collide pr rr then
      let hr := HeartPickup.set_taken true hr in
      if (hearts g <? 6)%Z then
        let g := set_hearts (hearts g + 1)%Z g in
        let r := emit (OnHeartsChange (hearts g)) r in
        let r := playSfx SfxPickup r in
        (hr, g, r)
      else (hr, g, r)
    else (hr, g, r).

Fixpoint heartLoop (pr : Box) (hs : list HeartPickup) (g : Game) (r : Refs)
  : list HeartPickup * Game * Refs :=
  match hs with
  | [] => ([], g, r)
  | hr :: rest =>
      let '(hr, g, r) := takeHeart pr hr g r in
      let '(rest, g, r) := heartLoop pr rest g r in
      (hr :: rest, g, r)
  end.

(** "Cleanup" *)
Definition keepObstacle (o : Obstacle) : bool :=
  negb (Obstacle.remove o) && gtb (Obstacle.x o + Obstacle.w o) (-40).
Definition keepHeart (hr : HeartPickup) : bool :=
  negb (HeartPickup.taken hr) && gtb (HeartPickup.x hr + HeartPickup.w hr) (-40).

Definition cleanup (g : Game) : Game :=
  let g := set_obstacles (filter keepObstacle (obstacles g)) g in
  set_heartPickups (filter keepHeart (heartPickups g)) g.

(** The step from "Difficulty ramp" to "Move world". *)
Definition advance (dt : Q) (g : Game) (r : Refs) : Game * Refs :=
  let g := ramp dt g in
  let g := physics dt g in
  let '(g, r) := spawnObstacle dt g r in
  let '(g, r) := spawnHeart dt g r in
  (moveWorld dt g, r).

(** "Collisions" and "Cleanup". *)
Definition resolve (g : Game) (r : Refs) : Game * Refs :=
  let pr := playerBox g in
  let '(os, g, r, returned) := obstacleLoop pr (obstacles g) g r in
  let g := set_obstacles os g in
  if returned then (g, r)
  else
    let '(hs, g, r) := heartLoop pr (heartPickups g) g r in
    let g := set_heartPickups hs g in
    (cleanup g, r).

(** [update(dt)] *)
Definition update (dt : Q) (g : Game) (r : Refs) : Game * Refs :=
  let g := if negb (GameState_eqb (state g) PAUSED) then set_t (t g + dt) g else g in
  let r := set_fireflies (map (twinkle dt) (fireflies r)) r in
  let '(g, r) :=
    if GameState_eqb (state g) PLAYING then scroll dt g r else (g, r) in
  if negb (GameState_eqb (state g) PLAYING) then (g, r)
  else
    let '(g, r) := advance dt g r in
    resolve g r.

(** *** The fireflies of a canvas *)





(** *** Resizing and the first model *)

(** [handleResize], once the game model exists.  [w] and [h] are the
    [clientWidth] and [clientHeight] of the parent, [ctx] says whether
    [getContext("2d")] gave a context, and [flies] is the list that
    [makeFireflies] builds from its random draws. *)
Definition handleResize (w h : Q) (ctx : bool) (flies : list Firefly)
    (g : Game) (r : Refs) : Game * Refs :=
  let r := set_size w h r in
  if negb ctx then (g, r)
  else
    let r := set_ctxRef true r in
    let u' := h / DESIGN_HEIGHT in
    let g := set_u u' g in
    let g := set_G (2600 * u') g in
    let g := set_JUMP_V (-900 * u') g in
    let g := set_groundY (h - 64 * u') g in
    let g := set_minGapPx (280 * u') g in
    let g :=
      set_obstacles
        (map (fun o => Obstacle.set_y (groundY g - Obstacle.h o) o)
           (obstacles g)) g in
    (g, set_fireflies flies r).

(** The "Game model" that [init] stores in [gameRef], from [sizeRef]. *)
Definition initGame (r : Refs) : Game :=
  let w := sizeW r in
  let h := sizeH r in
  let u' := h / DESIGN_HEIGHT in
  let pW := 48 * u' in
  let pH := 64 * u' in
  mkGame TITLE 0 0 350 0 u' (2600 * u') (-900 * u') 0.6 (h - 64 * u')
    (Player.mk (Math_min 140 (w * 0.22)) (h - 64 * u' - pH) pW pH 0 true 2 0)
    [] [] 0 2.1 w (280 * u') 0 5.5 0%Z 3%Z.

(** The cells when [init] has started the loop: the size of the parent
    (two natural numbers of pixels), the context, the width of the
    backdrop, the first fireflies and the time. *)
Definition init (w h : N) (ctx : bool) (bw : option Q) (flies : list Firefly)
    (now : Q) : Game * Refs :=
  let r :=
    mkRefs (inject_Z (Z.of_N w)) (inject_Z (Z.of_N h)) bw flies ctx now 0 O []
  in
  (initGame r, r).

(** *** Input *)

Inductive KeyCode := Space | ArrowUp | Enter | KeyP | OtherKey.

Definition onKeyDown (code : KeyCode) (g : Game) (r : Refs) : Game * Refs :=
  match code with
  | Space =>
      match state g with
      | TITLE => startGame g r
      | PLAYING => doJump g r
      | GAMEOVER => restartFromGameOver g r
      | PAUSED => (g, r)
      end
  | Enter =>
      match state g with
      | PLAYING => pauseGame g r
      | PAUSED => resumeGame g r
      | TITLE => startGame g r
      | GAMEOVER => (g, r)
      end
  | KeyP =>
      match state g with
      | PLAYING => pauseGame g r
      | PAUSED => resumeGame g r
      | _ => (g, r)
      end
  | _ => (g, r)
  end.

(** [onPointerDown] is asynchronous on the title screen: it awaits the
    fullscreen request and calls [startGame] when that settles
    ([onPointerSettled]), whatever the state is by then. *)
Definition onPointerDown (g : Game) (r : Refs) : Game * Refs :=
  match state g with
  | TITLE => (g, r)
  | PLAYING => doJump g r
  | GAMEOVER => restartFromGameOver g r
  | PAUSED => (g, r)
  end.

Definition onPointerSettled (g : Game) (r : Refs) : Game * Refs :=
  startGame g r.

(** *** The loop *)

Definition draw (g : Game) (r : Refs) : Refs := emit Draw r.

Definition step : Q := 1 / 60.

(** [while (accumRef.current >= step) { update(step); accumRef.current -= step; }]
    with a bound on the number of turns: [None] when the bound is reached. *)
Fixpoint drain (fuel : nat) (g : Game) (r : Refs) : option (Game * Refs) :=
  match fuel with
  | O => None
  | S fuel =>
      if geb (accumRef r) step then
        let '(g, r) := update step g r in
        drain fuel g (set_accumRef (accumRef r - step) r)
      else Some (g, r)
  end.

(** [tick], called at time [now] (in seconds); [gameRef] may still be
    empty.  The request of the next frame is left out. *)
Definition tick (fuel : nat) (now : Q) (gameRef : option Game) (r : Refs)
  : option (option Game * Refs) :=
  match gameRef with
  | Some g =>
      if ctxRef r then
        let dt := now - timestampRef r in
        let r := set_timestampRef now r in
        let dt := Math_min dt 0.05 in
        let r := set_accumRef (accumRef r + dt) r in
        match drain fuel g r with
        | Some (g, r) => Some (Some g, draw g r)
        | None => None
        end
      else Some (gameRef, r)
  | None => Some (gameRef, r)
  end.

(** *** Runs *)

(** What can happen to the model once it exists: a key, a pointer press,
    the end of the fullscreen request of a pointer press, a resize, or one
    fixed step of [tick]. *)
Inductive Action :=
| KeyDown (code : KeyCode)
| PointerDown
| PointerSettled
| Resize (w h : N) (ctx : bool) (flies : list Firefly)
| FixedStep.

Definition act (a : Action) (s : Game * Refs) : Game * Refs :=
  let '(g, r) := s in
  match a with
  | KeyDown code => onKeyDown code g r
  | PointerDown => onPointerDown g r
  | PointerSettled => onPointerSettled g r
  | Resize w h ctx flies =>
      handleResize (inject_Z (Z.of_N w)) (inject_Z (Z.of_N h)) ctx flies g r
  | FixedStep => update step g r
  end.

Definition run (acts : list Action) (s : Game * Refs) : Game * Refs :=
  fold_left (fun s a => act a s) acts s.

End Engine.

(** ** Vocabulary of the properties *)

(** The body of the player, the hit cooldown apart. *)
Definition sameBody (p p' : Player) : Prop :=
  Player.x p' = Player.x p /\ Player.y p' = Player.y p
  /\ Player.w p' = Player.w p /\ Player.h p' = Player.h p
  /\ Player.vy p' = Player.vy p /\ Player.onGround p' = Player.onGround p
  /\ Player.jumpsRemaining p' = Player.jumpsRemaining p.

(** Everything but [state], [score], [hearts], the hit cooldown and the
    two lists. *)
Definition sameWorld (g g' : Game) : Prop :=
  t g' = t g /\ bgOffset g' = bgOffset g /\ speed g' = speed g
  /\ difficultySeconds g' = difficultySeconds g /\ u g' = u g /\ G g' = G g
  /\ JUMP_V g' = JUMP_V g /\ HIT_BUFFER g' = HIT_BUFFER g
  /\ groundY g' = groundY g /\ obsTimer g' = obsTimer g
  /\ obsInterval g' = obsInterval g /\ lastObstacleX g' = lastObstacleX g
  /\ minGapPx g' = minGapPx g /\ heartTimer g' = heartTimer g
  /\ heartInterval g' = heartInterval g
  /\ sameBody (player g) (player g').

(** The cells of [Refs] other than [log]. *)
Definition sameCells (r r' : Refs) : Prop := r' = set_log (log r') r.

(** The number of hits that were played. *)
Fixpoint hits (l : list Effect) : nat :=
  match l with
  | [] => O
  | PlaySfx SfxHit :: l => S (hits l)
  | _ :: l => hits l
  end.

(** What the phases before the collisions leave alone: the counters, the
    state, the constants of the model, the clock, the log and the cells of
    the loop. *)
Definition keeps (g : Game) (r : Refs) (g' : Game) (r' : Refs) : Prop :=
  state g' = state g /\ score g' = score g /\ hearts g' = hearts g
  /\ HIT_BUFFER g' = HIT_BUFFER g /\ u g' = u g /\ G g' = G g
  /\ JUMP_V g' = JUMP_V g /\ groundY g' = groundY g
  /\ minGapPx g' = minGapPx g /\ t g' = t g /\ bgOffset g' = bgOffset g
  /\ log r' = log r /\ sizeW r' = sizeW r /\ sizeH r' = sizeH r
  /\ backdrop r' = backdrop r /\ fireflies r' = fireflies r
  /\ ctxRef r' = ctxRef r /\ timestampRef r' = timestampRef r
  /\ accumRef r' = accumRef r
  /\ Player.x (player g') = Player.x (player g)
  /\ Player.w (player g') = Player.w (player g)
  /\ Player.h (player g') = Player.h (player g).

(** The game before the collisions of a step taken while PLAYING. *)
Definition beforeCollisions (random : nat -> Q) (dt : Q) (g : Game) (r : Refs)
  : Game * Refs :=
  let g1 := set_t (t g + dt) g in
  let r1 := set_fireflies (map (twinkle dt) (fireflies r)) r in
  advance random dt (fst (scroll dt g1 r1)) (snd (scroll dt g1 r1)).

(** The invariant of the hearts: between 0 and 6, and 0 exactly when the
    game is over. *)
Definition heartsOk (g : Game) : Prop :=
  (0 <= hearts g <= 6)%Z /\ (state g = GAMEOVER <-> hearts g = 0%Z).

(** ** Sample states *)

(** A source of random numbers that always answers one half. *)
Definition half : nat -> Q := fun _ => 0.5.

(** The model of [init] in a parent of 960 by 540 pixels, with a backdrop
    1920 pixels wide, and the session that [startGame] opens from it. *)
Definition sampleInit : Game * Refs := init 960 540 true (Some 1920) [] 0.
Definition sampleTitle : Game := fst sampleInit.
Definition sampleRefs : Refs := snd sampleInit.
Definition samplePlay : Game := fst (startGame sampleTitle sampleRefs).

(** The session, [c] seconds of hit cooldown left. *)
Definition cooling (c : Q) : Game :=
  set_player (Player.set_hitCooldown c (player samplePlay)) samplePlay.

(** The session paused just after a hit. *)
Definition pausedAfterHit : Game := set_state PAUSED (cooling 0.6).

(** "Move world", on one obstacle. *)
Definition moved (vx : Q) (o : Obstacle) : Obstacle :=
  Obstacle.set_x (Obstacle.x o - vx) o.

(** The session 0.79 s after an obstacle was spawned with an interval of
    0.8 s: the obstacle and its tracker are still 235 pixels from the
    right edge. *)
Definition crowded : Game :=
  set_obsInterval 0.8
    (set_obsTimer 0.79
       (set_lastObstacleX 725
          (set_obstacles [Obstacle.mk SMALL 725 424 52 52 false false false]
             samplePlay))).

(** The shrunk box of a pickup. *)
Definition heartBox (hr : HeartPickup) : Box :=
  shrink (HeartPickup.x hr) (HeartPickup.y hr) (HeartPickup.w hr)
    (HeartPickup.h hr).


(** The obstacles of [os] that the pass turned from unscored to scored,
    [os'] being [os] after the pass. *)
Fixpoint scoredNow (os os' : list Obstacle) : Z :=
  match os, os' with
  | o :: os, o' :: os' =>
      ((if negb (Obstacle.scored o) && Obstacle.scored o' then 1 else 0)
       + scoredNow os os')%Z
  | _, _ => 0%Z
  end.

(** What the pass does to one obstacle, [px] being the [x] of the
    player: the obstacle stays where it is; unhit and unscored, and not
    hit in this pass, it is scored exactly when [px] is beyond its right
    edge; and a hit obstacle keeps its [scored] flag. *)
Definition scoredWhenPast (px : Q) (o o' : Obstacle) : Prop :=
  Obstacle.x o' = Obstacle.x o /\ Obstacle.w o' = Obstacle.w o
  /\ (Obstacle.hit o = false -> Obstacle.scored o = false ->
      Obstacle.hit o' = false ->
      (Obstacle.scored o' = true <-> px > Obstacle.x o + Obstacle.w o))
  /\ (Obstacle.hit o' = true -> Obstacle.scored o' = Obstacle.scored o).

(** The session with the player in the air and a small mushroom under
    it, the right edge of the mushroom one pixel ahead of the right edge
    of the player. *)
Definition overMushroom : Game :=
  set_obstacles [Obstacle.mk SMALL 137 424 52 52 false false false]
    (set_player (Player.mk 140 200 48 64 0 false 0 0) samplePlay).

(** The session with a small mushroom under the standing player, [c]
    seconds of hit cooldown left. *)
Definition atMushroom (c : Q) : Game :=
  set_obstacles [Obstacle.mk SMALL 150 424 52 52 false false false]
    (cooling c).

(** The random source that always draws 0. *)
Definition lowest : nat -> Q := fun _ => 0.

(** The session with a small mushroom just spawned and a heart due. *)
Definition heartDue : Game :=
  set_heartTimer 5.5
    (set_lastObstacleX 1000
       (set_obstacles [Obstacle.mk SMALL 1000 424 52 52 false false false]
          samplePlay)).

(** The cells of the sample model with two fireflies, the second one 9
    pixels beyond the left edge. *)
Definition twoFlies : Refs :=
  set_fireflies [Firefly.mk 100 50 2 0 1; Firefly.mk (-9) 80 1 0 2] sampleRefs.

(** The session with a small mushroom behind the player. *)
Definition pastMushroom : Game :=
  set_obstacles [Obstacle.mk SMALL 50 424 52 52 false false false] samplePlay.

(** The invariant of an obstacle, [px] being the [x] of the player: its
    width is not negative, and once scored it is not hit and the player
    is beyond its right edge. *)
Definition obstacleOk (px : Q) (o : Obstacle) : Prop :=
  0 <= Obstacle.w o
  /\ (Obstacle.scored o = true ->
      Obstacle.hit o = false /\ px > Obstacle.x o + Obstacle.w o).

(** The invariant behind the exclusion of [hit] and [scored]. *)
Definition exclusive (s : Game * Refs) : Prop :=
  let (g, r) := s in
  0 <= sizeH r /\ 0 <= u g /\ 0 <= difficultySeconds g
  /\ 0 <= Player.w (player g)
  /\ Forall (obstacleOk (Player.x (player g))) (obstacles g).

(** What a pass does to the two flags of an obstacle: a scored obstacle
    stays scored and unhit, and a hit obstacle is not scored. *)
Definition flagsExclude (o o' : Obstacle) : Prop :=
  (Obstacle.scored o = true ->
   Obstacle.scored o' = true /\ Obstacle.hit o' = false)
  /\ (Obstacle.hit o' = true -> Obstacle.scored o' = false).

(** One turn of the loop of [tick], and [n] turns. *)
Definition turn (random : nat -> Q) (s : Game * Refs) : Game * Refs :=
  let '(g, r) := update random step (fst s) (snd s) in
  (g, set_accumRef (accumRef r - step) r).

Fixpoint turns (random : nat -> Q) (n : nat) (s : Game * Refs) : Game * Refs :=
  match n with
  | O => s
  | S n => turns random n (turn random s)
  end.

(** The number of frames that were drawn. *)
Fixpoint draws (l : list Effect) : nat :=
  match l with
  | [] => O
  | Draw :: l => S (draws l)
  | _ :: l => draws l
  end.

(** The cells when no drawing context could be had. *)
Definition blindRefs : Refs := set_ctxRef false sampleRefs.

(** ** Tactics *)

(** Case analysis on the conditionals of the goal. *)
Ltac branches :=
  repeat match goal with
         | |- context [if ?c then _ else _] => destruct c
         end.

(** Case analysis on one turn of the loop over the obstacles. *)
Ltac open_body :=
  match goal with
  | H : context [hitObstacle ?pr ?o ?g ?r] |- _ =>
      let E := fresh "Ehit" in
      destruct (hitObstacle pr o g r) as [[[? ?] ?] [|]] eqn:E
  end.

Ltac open_rest IH :=
  match goal with
  | H : context [scoreObstacle ?o ?g ?r] |- _ =>
      let E := fresh "Escore" in
      destruct (scoreObstacle o g r) as [[? ?] ?] eqn:E
  end;
  match goal with
  | H : context [obstacleLoop ?pr ?os ?g ?r] |- _ =>
      let E := fresh "Eloop" in
      destruct (obstacleLoop pr os g r) as [[[? ?] ?] ?] eqn:E
  end.

(** ** Vocabulary of the further properties *)

(** The moves of [state] that the engine makes. *)
Definition legalMove (a b : GameState) : bool :=
  match a, b with
  | TITLE, TITLE | TITLE, PLAYING => true
  | PLAYING, PLAYING | PLAYING, PAUSED | PLAYING, GAMEOVER => true
  | PAUSED, PAUSED | PAUSED, PLAYING => true
  | GAMEOVER, GAMEOVER | GAMEOVER, PLAYING => true
  | _, _ => false
  end.

(** The place, the size and the kind of an obstacle. *)
Definition sameShape (o o' : Obstacle) : Prop :=
  Obstacle.type o' = Obstacle.type o
  /\ Obstacle.x o' = Obstacle.x o /\ Obstacle.y o' = Obstacle.y o
  /\ Obstacle.w o' = Obstacle.w o /\ Obstacle.h o' = Obstacle.h o.

(** The obstacle that the spawner makes, of a given kind. *)
Definition spawned (type : ObstacleType) (g : Game) (r : Refs) : Obstacle :=
  let u' := u g in
  let mushH := match type with SMALL => 52 * u' | LARGE => 150 * u' end in
  let mushW := (match type with SMALL => 52 | LARGE => 92 end) * u' in
  Obstacle.mk type (sizeW r + 40 * u') (groundY g - mushH) mushW mushH
    false false false.

(** The jumps that are left: between 0 and 2, and 2 on the ground. *)
Definition jumpsOk (g : Game) : Prop :=
  (0 <= Player.jumpsRemaining (player g) <= 2)%Z
  /\ (Player.onGround (player g) = true ->
      Player.jumpsRemaining (player g) = 2%Z).

(** Every obstacle stands on the ground line. *)
Definition grounded (g : Game) : Prop :=
  Forall (fun o => Obstacle.y o = groundY g - Obstacle.h o) (obstacles g).


(** "Move world", on one pickup. *)
Definition movedHeart (vx : Q) (hr : HeartPickup) : HeartPickup :=
  HeartPickup.set_x (HeartPickup.x hr - vx) hr.

(** What the page shows, from the calls made so far: [heartsUI] starts at
    3 and follows [onHeartsChange] and [setHeartsUI]; [score] starts at 0
    and follows [onScore] and [setScore]; [gameState] starts at TITLE and
    follows [setGameState], which [onGameOver] calls with GAMEOVER. *)
Definition heartsUI (l : list Effect) : Z :=
  fold_left
    (fun v e => match e with OnHeartsChange n | SetHeartsUI n => n | _ => v end)
    l 3%Z.

Definition scoreUI (l : list Effect) : Z :=
  fold_left
    (fun v e => match e with OnScore n | SetScore n => n | _ => v end) l 0%Z.

Definition gameStateUI (l : list Effect) : GameState :=
  fold_left
    (fun v e =>
       match e with
       | SetGameState s => s
       | OnGameOver _ => GAMEOVER
       | _ => v
       end) l TITLE.

(** The page shows the model. *)
Definition mirrors (s : Game * Refs) : Prop :=
  heartsUI (log (snd s)) = hearts (fst s)
  /\ scoreUI (log (snd s)) = score (fst s)
  /\ gameStateUI (log (snd s)) = state (fst s).

(** The number of times the end of the game was told. *)
Fixpoint gameOvers (l : list Effect) : nat :=
  match l with
  | [] => O
  | OnGameOver _ :: l => S (gameOvers l)
  | _ :: l => gameOvers l
  end.

(** The invariant of the spacing: besides what [exclusive] says, the
    minimal gap is not negative and the tracker is at or beyond the [x] of
    every obstacle on the field. *)
Definition spaced (s : Game * Refs) : Prop :=
  exclusive s
  /\ 0 <= minGapPx (fst s)
  /\ Forall (fun o => Obstacle.x o <= lastObstacleX (fst s))
       (obstacles (fst s)).

(** The invariant of the spawners' clocks: the ranges of the two intervals
    and of the two timers. *)
Definition timed (g : Game) : Prop :=
  (0.8 <= obsInterval g /\ obsInterval g < 2.4)
  /\ (0 <= obsTimer g /\ obsTimer g < obsInterval g)
  /\ (5 <= heartInterval g /\ heartInterval g <= 8.5)
  /\ 0 <= heartTimer g.

(** What [handleResize] alone decides: the scale, the constants derived
    from it, the ground line and the size of the canvas. *)
Definition sameGeometry (s s' : Game * Refs) : Prop :=
  u (fst s') = u (fst s) /\ G (fst s') = G (fst s)
  /\ JUMP_V (fst s') = JUMP_V (fst s)
  /\ HIT_BUFFER (fst s') = HIT_BUFFER (fst s)
  /\ groundY (fst s') = groundY (fst s)
  /\ sizeW (snd s') = sizeW (snd s) /\ sizeH (snd s') = sizeH (snd s).

Definition isResize (a : Action) : bool :=
  match a with
  | Resize _ _ _ _ => true
  | _ => false
  end.

(** The width the backdrop is tiled with in [update]. *)
Definition backdropWidth (r : Refs) : Q :=
  match backdrop r with Some bw => bw | None => 10000 end.

(** The invariant of the scrolling: the offset lies within one width of the
    backdrop, which is the one [init] was given. *)
Definition scrolled (bw : option Q) (s : Game * Refs) : Prop :=
  backdrop (snd s) = bw
  /\ 0 <= bgOffset (fst s) /\ bgOffset (fst s) < backdropWidth (snd s).

(** What one call of [update] with a game in state [st], scrolling by [d],
    on a canvas [w] wide does to a firefly. *)
Definition flown (st : GameState) (dt d w : Q) (f f' : Firefly) : Prop :=
  Firefly.y f' = Firefly.y f /\ Firefly.r f' = Firefly.r f
  /\ Firefly.speed f' = Firefly.speed f
  /\ Firefly.phase f' = Firefly.phase f + Firefly.speed f * 2.2 * dt
  /\ (st <> PLAYING -> Firefly.x f' = Firefly.x f)
  /\ (st = PLAYING ->
      (Firefly.x f' = Firefly.x f - d /\ -10 <= Firefly.x f')
      \/ (Firefly.x f' = w + 10 /\ Firefly.x f - d < -10)).

(** A pickup the pass over the pickups collects: not taken yet, and its
    shrunk box meets the player's. *)
Definition touched (pr : Box) (hr : HeartPickup) : bool :=
  negb (HeartPickup.taken hr) && collide pr (heartBox hr).

(** What the pass tells the page and the mixer for [n] hearts gained from
    [h] on. *)
Fixpoint pickupLog (h : Z) (n : nat) : list Effect :=
  match n with
  | O => []
  | S n =>
      OnHeartsChange (h + 1) :: PlaySfx SfxPickup :: pickupLog (h + 1)%Z n
  end.

(** The invariant of the clocks of the game: the speed is the ramp of the
    seconds played, which are not negative and not beyond the clock [t], and
    equal to it in a session that is being played or is paused. *)
Definition clocked (g : Game) : Prop :=
  speed g == 350 + difficultySeconds g * 4
  /\ 0 <= difficultySeconds g /\ difficultySeconds g <= t g
  /\ (state g = PLAYING \/ state g = PAUSED -> t g = difficultySeconds g).

(** The high score that [handleGameOver] keeps in the page, [prev] being the
    one it started from: every call of [onGameOver] raises it to the final
    score when that is higher. *)
Definition highScore (prev : Z) (l : list Effect) : Z :=
  fold_left
    (fun best e => match e with OnGameOver final => Z.max best final | _ => best end)
    l prev.




(** An obstacle that the player has not reached: it is on the field, to
    the right of the player's box. *)
Definition farRight (p : Player) (o : Obstacle) : Prop :=
  Player.x p + Player.w p <= Obstacle.x o
  /\ Obstacle.remove o = false /\ 0 <= Obstacle.w o.

(** A session that is being played on the canvas of the sample model. *)
Definition settled (s : Game * Refs) : Prop :=
  state (fst s) = PLAYING
  /\ u (fst s) = u samplePlay /\ minGapPx (fst s) = minGapPx samplePlay
  /\ sizeW (snd s) = sizeW sampleRefs
  /\ Player.x (player (fst s)) = Player.x (player samplePlay)
  /\ Player.w (player (fst s)) = Player.w (player samplePlay).

(** The sample session [n] steps after its start, while it waits for its
    first obstacle. *)
Definition quietA (n : nat) (s : Game * Refs) : Prop :=
  settled s
  /\ obstacles (fst s) = []
  /\ obsTimer (fst s) == inject_Z (Z.of_nat n) * (1 # 60)
  /\ obsInterval (fst s) == 2.1
  /\ difficultySeconds (fst s) == inject_Z (Z.of_nat n) * (1 # 60)
  /\ lastObstacleX (fst s) <= 960 - inject_Z (Z.of_nat n) * 5.

(** The sample session [m] steps after its first obstacle was spawned,
    while it waits for the second. *)
Definition quietB (m : nat) (s : Game * Refs) : Prop :=
  settled s
  /\ (exists o,
        obstacles (fst s) = [o] /\ Obstacle.remove o = false
        /\ 0 <= Obstacle.w o
        /\ 1000 - (inject_Z (Z.of_nat m) + 1) * 6.2 <= Obstacle.x o)
  /\ obsTimer (fst s) == inject_Z (Z.of_nat m) * (1 # 60)
  /\ obsInterval (fst s) == 2.079
  /\ difficultySeconds (fst s) == (126 + inject_Z (Z.of_nat m)) * (1 # 60)
  /\ lastObstacleX (fst s) <= 1000 - inject_Z (Z.of_nat m) * 5.

(** * Properties *)

(** ** Comparisons *)

Lemma ltb_lt (a b : Q) : ltb a b = true <-> a < b.
Proof.
  unfold ltb. rewrite negb_true_iff, <- not_true_iff_false, Qle_bool_iff.
  split; intro H; [apply Qnot_le_lt | apply Qlt_not_le]; exact H.
Qed.

Lemma ltb_ge (a b : Q) : ltb a b = false <-> b <= a.
Proof.
  unfold ltb. rewrite negb_false_iff. apply Qle_bool_iff.
Qed.

Lemma geb_le (a b : Q) : geb a b = true <-> b <= a.
Proof. apply Qle_bool_iff. Qed.

Lemma geb_lt (a b : Q) : geb a b = false <-> a < b.
Proof.
  unfold geb. rewrite <- not_true_iff_false, Qle_bool_iff.
  split; intro H; [apply Qnot_le_lt | apply Qlt_not_le]; exact H.
Qed.

Lemma leb_le (a b : Q) : leb a b = true <-> a <= b.
Proof. apply Qle_bool_iff. Qed.

Lemma leb_gt (a b : Q) : leb a b = false <-> b < a.
Proof. apply (geb_lt b a). Qed.

Lemma gtb_lt (a b : Q) : gtb a b = true <-> b < a.
Proof. apply ltb_lt. Qed.

Lemma Math_max_lower (a b : Q) : a <= Math_max a b.
Proof.
  unfold Math_max. destruct (Qle_bool a b) eqn:E.
  - apply Qle_bool_iff. exact E.
  - apply Qle_refl.
Qed.

Lemma Math_min_upper (a b : Q) : Math_min a b <= b.
Proof.
  unfold Math_min. destruct (Qle_bool a b) eqn:E.
  - apply Qle_bool_iff. exact E.
  - apply Qle_refl.
Qed.

(** ** What the two loops leave alone *)

Lemma sameWorld_refl (g : Game) : sameWorld g g.
Proof. unfold sameWorld, sameBody. repeat split. Qed.

Lemma sameWorld_trans (g1 g2 g3 : Game) :
  sameWorld g1 g2 -> sameWorld g2 g3 -> sameWorld g1 g3.
Proof.
  unfold sameWorld, sameBody. intros H12 H23.
  repeat match goal with H : _ /\ _ |- _ => destruct H end.
  repeat split; congruence.
Qed.

Lemma sameCells_refl (r : Refs) : sameCells r r.
Proof. destruct r; reflexivity. Qed.

Lemma sameCells_emit (e : Effect) (r r' : Refs) :
  sameCells r r' -> sameCells r (emit e r').
Proof.
  unfold sameCells, emit. intros ->. destruct r; reflexivity.
Qed.

Lemma sameCells_trans (r1 r2 r3 : Refs) :
  sameCells r1 r2 -> sameCells r2 r3 -> sameCells r1 r3.
Proof.
  unfold sameCells. intros H12 H23. rewrite H23, H12. destruct r1; reflexivity.
Qed.

Lemma hits_app (l1 l2 : list Effect) : hits (l1 ++ l2) = (hits l1 + hits l2)%nat.
Proof.
  induction l1 as [|e l1 IH]; simpl; [reflexivity|].
  destruct e as [| | |[]| | | |]; simpl; rewrite IH; reflexivity.
Qed.

(** *** One obstacle *)

Lemma hitObstacle_frame pr o g r o' g' r' ret :
  hitObstacle pr o g r = (o', g', r', ret) ->
  sameWorld g g' /\ sameCells r r' /\ obstacles g' = obstacles g
  /\ heartPickups g' = heartPickups g /\ score g' = score g
  /\ Obstacle.x o' = Obstacle.x o /\ Obstacle.w o' = Obstacle.w o
  /\ Obstacle.scored o' = Obstacle.scored o.
Proof.
  unfold hitObstacle.
  destruct (collide pr _ && leb _ 0 && negb (Obstacle.hit o)).
  - simpl.
    destruct (clampZ (hearts g - 1) 0 6 <=? 0)%Z; intro E; inversion E; subst;
      clear E; simpl;
      (split; [unfold sameWorld, sameBody; simpl; repeat split|]);
      (split; [repeat apply sameCells_emit; apply sameCells_refl|]);
      repeat split.
  - intro E; inversion E; subst.
    split; [apply sameWorld_refl|]. split; [apply sameCells_refl|].
    repeat split.
Qed.

Lemma scoreObstacle_frame o g r o' g' r' :
  scoreObstacle o g r = (o', g', r') ->
  sameWorld g g' /\ sameCells r r' /\ obstacles g' = obstacles g
  /\ heartPickups g' = heartPickups g /\ hearts g' = hearts g
  /\ state g' = state g /\ player g' = player g
  /\ hits (log r') = hits (log r)
  /\ Obstacle.x o' = Obstacle.x o /\ Obstacle.w o' = Obstacle.w o
  /\ Obstacle.hit o' = Obstacle.hit o.
Proof.
  unfold scoreObstacle.
  destruct (negb (Obstacle.scored o) && negb (Obstacle.hit o) && gtb _ _);
    intro E; inversion E; subst; clear E; simpl.
  - split; [unfold sameWorld, sameBody; simpl; repeat split|].
    split; [apply sameCells_emit, sameCells_refl|].
    rewrite hits_app; simpl. repeat split. lia.
  - split; [apply sameWorld_refl|]. split; [apply sameCells_refl|].
    repeat split.
Qed.

(** A hit takes one heart, arms the cooldown, and ends the game when no
    heart is left. *)
Lemma hitObstacle_hearts pr o g r o' g' r' ret :
  hitObstacle pr o g r = (o', g', r', ret) ->
  (1 <= hearts g <= 6)%Z ->
  (hearts g - 1 <= hearts g' <= hearts g)%Z
  /\ (if ret then state g' = GAMEOVER /\ hearts g' = 0%Z
      else state g' = state g /\ (1 <= hearts g')%Z).
Proof.
  unfold hitObstacle, clampZ. intros E Hh.
  destruct (collide pr _ && leb _ 0 && negb (Obstacle.hit o)).
  - simpl in E.
    destruct (Z.max 0 (Z.min 6 (hearts g - 1)) <=? 0)%Z eqn:Hz;
      inversion E; subst; clear E; simpl;
      [apply Z.leb_le in Hz | apply Z.leb_gt in Hz];
      repeat split; try reflexivity; lia.
  - inversion E; subst. repeat split; lia.
Qed.

(** *** The loop over the obstacles *)

Lemma obstacleLoop_frame pr os : forall g r os' g' r' ret,
  obstacleLoop pr os g r = (os', g', r', ret) ->
  sameWorld g g' /\ sameCells r r' /\ obstacles g' = obstacles g
  /\ heartPickups g' = heartPickups g /\ length os' = length os.
Proof.
  induction os as [|o rest IH]; simpl; intros g r os' g' r' ret E.
  - inversion E; subst. split; [apply sameWorld_refl|].
    split; [apply sameCells_refl|]. repeat split.
  - open_body.
    + inversion E; subst; clear E.
      apply hitObstacle_frame in Ehit. simpl. intuition congruence.
    + open_rest IH. inversion E; subst; clear E.
      apply hitObstacle_frame in Ehit. apply scoreObstacle_frame in Escore.
      apply IH in Eloop. simpl.
      destruct Ehit as (W1 & C1 & O1 & P1 & _).
      destruct Escore as (W2 & C2 & O2 & P2 & _).
      destruct Eloop as (W3 & C3 & O3 & P3 & L3).
      split; [eapply sameWorld_trans; [|exact W3];
              eapply sameWorld_trans; eassumption|].
      split; [eapply sameCells_trans; [|exact C3];
              eapply sameCells_trans; eassumption|].
      repeat split; congruence.
Qed.

(** When the loop makes [update] return the game is over with no heart
    left; otherwise the state is as before and a heart is left. *)
Lemma obstacleLoop_hearts pr os : forall g r os' g' r' ret,
  obstacleLoop pr os g r = (os', g', r', ret) ->
  (1 <= hearts g <= 6)%Z ->
  (hearts g' <= hearts g)%Z
  /\ (if ret then state g' = GAMEOVER /\ hearts g' = 0%Z
      else state g' = state g /\ (1 <= hearts g')%Z).
Proof.
  induction os as [|o rest IH]; simpl; intros g r os' g' r' ret E Hh.
  - inversion E; subst. repeat split; lia.
  - open_body.
    + inversion E; subst; clear E.
      apply hitObstacle_hearts in Ehit; [|exact Hh]. intuition lia.
    + open_rest IH. inversion E; subst; clear E.
      apply hitObstacle_hearts in Ehit; [|exact Hh].
      apply scoreObstacle_frame in Escore.
      destruct Ehit as (B1 & S1 & L1).
      destruct Escore as (_ & _ & _ & _ & H2 & S2 & _).
      apply IH in Eloop; [|lia].
      destruct Eloop as (B3 & C3). split; [lia|].
      destruct ret; [exact C3|]. destruct C3 as (S3 & L3).
      split; [congruence | exact L3].
Qed.

(** *** The loop over the hearts *)

Lemma takeHeart_frame pr hr g r hr' g' r' :
  takeHeart pr hr g r = (hr', g', r') ->
  sameWorld g g' /\ sameCells r r' /\ obstacles g' = obstacles g
  /\ heartPickups g' = heartPickups g /\ score g' = score g
  /\ state g' = state g /\ player g' = player g
  /\ hits (log r') = hits (log r)
  /\ (hearts g <= hearts g' <= Z.max (hearts g) 6)%Z.
Proof.
  unfold takeHeart. intro E.
  destruct (HeartPickup.taken hr);
    [|destruct (collide pr _); [destruct (hearts g <? 6)%Z eqn:Hc|]];
    inversion E; subst; clear E; simpl;
    try (split; [apply sameWorld_refl|]; split; [apply sameCells_refl|];
         repeat split; lia).
  apply Z.ltb_lt in Hc.
  split; [unfold sameWorld, sameBody; simpl; repeat split|].
  split; [unfold playSfx; repeat apply sameCells_emit; apply sameCells_refl|].
  rewrite !hits_app; simpl. repeat split; lia.
Qed.

Lemma heartLoop_frame pr hs : forall g r hs' g' r',
  heartLoop pr hs g r = (hs', g', r') ->
  sameWorld g g' /\ sameCells r r' /\ obstacles g' = obstacles g
  /\ heartPickups g' = heartPickups g /\ score g' = score g
  /\ state g' = state g /\ player g' = player g
  /\ hits (log r') = hits (log r)
  /\ (hearts g <= hearts g' <= Z.max (hearts g) 6)%Z.
Proof.
  induction hs as [|hr rest IH]; simpl; intros g r hs' g' r' E.
  - inversion E; subst. split; [apply sameWorld_refl|].
    split; [apply sameCells_refl|]. repeat split; lia.
  - destruct (takeHeart pr hr g r) as [[hr1 g1] r1] eqn:E1.
    destruct (heartLoop pr rest g1 r1) as [[rest2 g2] r2] eqn:E2.
    inversion E; subst; clear E.
    apply takeHeart_frame in E1. apply IH in E2.
    destruct E1 as (W1 & C1 & O1 & P1 & Sc1 & St1 & Pl1 & Hi1 & He1).
    destruct E2 as (W2 & C2 & O2 & P2 & Sc2 & St2 & Pl2 & Hi2 & He2).
    split; [eapply sameWorld_trans; eassumption|].
    split; [eapply sameCells_trans; eassumption|].
    repeat split; try congruence; lia.
Qed.

(** ** The phases of a step *)

Lemma keeps_trans g1 r1 g2 r2 g3 r3 :
  keeps g1 r1 g2 r2 -> keeps g2 r2 g3 r3 -> keeps g1 r1 g3 r3.
Proof.
  unfold keeps. intros H12 H23.
  repeat match goal with H : _ /\ _ |- _ => destruct H end.
  repeat split; congruence.
Qed.

Lemma ramp_keeps dt g r : keeps g r (ramp dt g) r.
Proof. unfold keeps, ramp. simpl. repeat split. Qed.

Lemma physics_keeps dt g r : keeps g r (physics dt g) r.
Proof. unfold keeps, physics. branches; simpl; repeat split. Qed.

Lemma spawnObstacle_keeps random dt g r :
  keeps g r (fst (spawnObstacle random dt g r))
    (snd (spawnObstacle random dt g r)).
Proof.
  unfold keeps, spawnObstacle, Math_random.
  destruct (geb _ _); [destruct (ltb _ _)|]; simpl; repeat split.
Qed.

Lemma spawnHeart_keeps random dt g r :
  keeps g r (fst (spawnHeart random dt g r)) (snd (spawnHeart random dt g r)).
Proof.
  unfold keeps, spawnHeart, Math_random.
  destruct (_ && _); [destruct (ltb _ 0.6); [destruct (ltb _ _)|]|];
    simpl; repeat split.
Qed.

Lemma moveWorld_keeps dt g r : keeps g r (moveWorld dt g) r.
Proof. unfold keeps, moveWorld. simpl. repeat split. Qed.

Lemma advance_keeps random dt g r :
  keeps g r (fst (advance random dt g r)) (snd (advance random dt g r)).
Proof.
  unfold advance.
  pose proof (spawnObstacle_keeps random dt (physics dt (ramp dt g)) r) as H3.
  destruct (spawnObstacle random dt (physics dt (ramp dt g)) r) as [g3 r3].
  pose proof (spawnHeart_keeps random dt g3 r3) as H4.
  destruct (spawnHeart random dt g3 r3) as [g4 r4]. simpl in *.
  eapply keeps_trans; [apply ramp_keeps|].
  eapply keeps_trans; [apply physics_keeps|].
  eapply keeps_trans; [exact H3|].
  eapply keeps_trans; [exact H4|]. apply moveWorld_keeps.
Qed.

(** ** The two shapes of a step *)

Lemma update_playing random dt g r :
  state g = PLAYING ->
  update random dt g r =
  (let g1 := set_t (t g + dt) g in
   let r1 := set_fireflies (map (twinkle dt) (fireflies r)) r in
   let g2 := fst (scroll dt g1 r1) in
   let r2 := snd (scroll dt g1 r1) in
   resolve (fst (advance random dt g2 r2)) (snd (advance random dt g2 r2))).
Proof.
  intro H. unfold update. repeat (rewrite H; simpl).
  destruct (advance random dt _ _) as [g3 r3]. reflexivity.
Qed.

Lemma update_idle random dt g r :
  state g <> PLAYING ->
  update random dt g r =
  (if GameState_eqb (state g) PAUSED then g else set_t (t g + dt) g,
   set_fireflies (map (twinkle dt) (fireflies r)) r).
Proof.
  intro H. unfold update.
  destruct (state g) eqn:E; try congruence; simpl; repeat (rewrite E; simpl);
    reflexivity.
Qed.

Lemma update_resolve random dt g r :
  state g = PLAYING ->
  update random dt g r =
  resolve (fst (beforeCollisions random dt g r))
    (snd (beforeCollisions random dt g r)).
Proof.
  intro H. rewrite update_playing by exact H.
  unfold beforeCollisions. cbv zeta. reflexivity.
Qed.

Lemma beforeCollisions_keeps random dt g r :
  let g' := fst (beforeCollisions random dt g r) in
  let r' := snd (beforeCollisions random dt g r) in
  state g' = state g /\ score g' = score g /\ hearts g' = hearts g
  /\ HIT_BUFFER g' = HIT_BUFFER g /\ u g' = u g /\ log r' = log r
  /\ Player.x (player g') = Player.x (player g)
  /\ Player.w (player g') = Player.w (player g)
  /\ sizeW r' = sizeW r /\ sizeH r' = sizeH r
  /\ accumRef r' = accumRef r /\ timestampRef r' = timestampRef r
  /\ ctxRef r' = ctxRef r.
Proof.
  unfold beforeCollisions.
  pose proof (advance_keeps random dt
    (fst (scroll dt (set_t (t g + dt) g)
            (set_fireflies (map (twinkle dt) (fireflies r)) r)))
    (snd (scroll dt (set_t (t g + dt) g)
            (set_fireflies (map (twinkle dt) (fireflies r)) r)))) as K.
  unfold keeps in K. simpl in *. intuition.
Qed.

(** ** Hearts *)

(** The two ways out of the collisions. *)
Lemma resolve_cases g r :
  exists os g1 r1 ret,
    obstacleLoop (playerBox g) (obstacles g) g r = (os, g1, r1, ret)
    /\ (ret = true -> resolve g r = (set_obstacles os g1, r1))
    /\ (ret = false ->
        exists hs g2 r2,
          heartLoop (playerBox g) (heartPickups g1) (set_obstacles os g1) r1
          = (hs, g2, r2)
          /\ resolve g r = (cleanup (set_heartPickups hs g2), r2)).
Proof.
  unfold resolve.
  destruct (obstacleLoop (playerBox g) (obstacles g) g r)
    as [[[os g1] r1] ret] eqn:E1.
  exists os, g1, r1, ret. split; [reflexivity|].
  split; intros ->; [reflexivity|].
  change (heartPickups (set_obstacles os g1)) with (heartPickups g1).
  destruct (heartLoop (playerBox g) (heartPickups g1) (set_obstacles os g1) r1)
    as [[hs g2] r2] eqn:E2.
  exists hs, g2, r2. split; reflexivity.
Qed.

Lemma resolve_hearts g r :
  (1 <= hearts g <= 6)%Z ->
  let g' := fst (resolve g r) in
  (hearts g' <= 6)%Z
  /\ ((state g' = GAMEOVER /\ hearts g' = 0%Z)
      \/ (state g' = state g /\ (1 <= hearts g')%Z)).
Proof.
  intro Hh. destruct (resolve_cases g r) as (os & g1 & r1 & ret & E1 & Ht & Hf).
  apply obstacleLoop_hearts in E1; [|exact Hh]. destruct E1 as (B1 & C1).
  destruct ret; simpl.
  - rewrite Ht by reflexivity. simpl. split; [lia|]. left. exact C1.
  - destruct (Hf eq_refl) as (hs & g2 & r2 & E2 & ->). simpl.
    apply heartLoop_frame in E2. simpl in E2.
    destruct E2 as (_ & _ & _ & _ & _ & St2 & _ & _ & He2).
    split; [lia|]. right. split; [|lia]. destruct C1. congruence.
Qed.

Lemma update_heartsOk random dt g r :
  heartsOk g -> heartsOk (fst (update random dt g r)).
Proof.
  intros [Hr Hs]. destruct (state g) eqn:St.
  1,3,4: rewrite update_idle by congruence; rewrite St; simpl;
    unfold heartsOk; simpl; rewrite St; split; assumption.
  rewrite update_resolve by exact St.
  pose proof (beforeCollisions_keeps random dt g r) as K. simpl in K.
  destruct K as (K1 & _ & K3 & _).
  assert (1 <= hearts g)%Z as Hpos.
  { destruct (Z.eq_dec (hearts g) 0) as [Z0|Z0]; [|lia].
    apply Hs in Z0. congruence. }
  pose proof (resolve_hearts (fst (beforeCollisions random dt g r))
                (snd (beforeCollisions random dt g r))) as R.
  rewrite K3 in R. specialize (R (conj Hpos (proj2 Hr))). simpl in R.
  destruct R as (R1 & [(R2 & R3)|(R2 & R3)]); unfold heartsOk.
  - rewrite R2, R3. split; [lia|]. split; reflexivity.
  - rewrite R2, K1, St. split; [lia|]. split; [congruence|lia].
Qed.

(** Every action other than a step either starts a session, or leaves
    the counters alone and moves at most between PLAYING and PAUSED. *)
Lemma act_control random a g r :
  a <> FixedStep ->
  act random a (g, r) = startGame g r
  \/ (hearts (fst (act random a (g, r))) = hearts g
      /\ score (fst (act random a (g, r))) = score g
      /\ (state (fst (act random a (g, r))) = state g
          \/ (state g = PLAYING /\ state (fst (act random a (g, r))) = PAUSED)
          \/ (state g = PAUSED
              /\ state (fst (act random a (g, r))) = PLAYING))).
Proof.
  intro Ha. destruct a as [code| | |w h ctx flies|]; simpl.
  - destruct code; simpl; unfold restartFromGameOver, doJump, pauseGame,
      resumeGame; destruct (state g) eqn:St; auto;
      branches; simpl; try rewrite St; tauto.
  - unfold onPointerDown, restartFromGameOver, doJump.
    destruct (state g) eqn:St; auto; branches; simpl; auto.
  - left. reflexivity.
  - right. unfold handleResize. destruct ctx; simpl; auto.
  - congruence.
Qed.

Lemma act_heartsOk random a g r :
  heartsOk g -> heartsOk (fst (act random a (g, r))).
Proof.
  intro H. destruct a as [code| | |w h ctx flies|] eqn:Ea.
  5: apply update_heartsOk; exact H.
  all: destruct (act_control random a g r) as [S|(Hh & _ & Hst)];
    [congruence| | ]; subst a.
  all: try (rewrite S; unfold heartsOk; simpl; split; [lia|];
            split; intro; [congruence|lia]).
  all: destruct H as [Hr Hs]; unfold heartsOk; rewrite Hh; split;
    [exact Hr|];
    destruct Hst as [E|[[E1 E2]|[E1 E2]]];
    [rewrite E; exact Hs | | ];
    rewrite E2; rewrite E1 in Hs; split; intro X; try congruence;
    apply Hs in X; congruence.
Qed.

Lemma init_heartsOk w h ctx bw flies now :
  heartsOk (fst (init w h ctx bw flies now)).
Proof. unfold heartsOk. simpl. split; [lia|]. split; intro; congruence. Qed.

Lemma run_heartsOk random acts : forall s,
  heartsOk (fst s) -> heartsOk (fst (run random acts s)).
Proof.
  induction acts as [|a acts IH]; intros s H; simpl; [exact H|].
  apply IH. destruct s as [g r]. apply act_heartsOk. exact H.
Qed.

(** ** The hit cooldown *)

(** While the cooldown is positive an obstacle cannot register a hit. *)
Lemma hitObstacle_cooling pr o g r :
  0 < Player.hitCooldown (player g) ->
  hitObstacle pr o g r = (o, g, r, false).
Proof.
  intro Hc. unfold hitObstacle.
  apply leb_gt in Hc. rewrite Hc, andb_false_r. reflexivity.
Qed.

Lemma obstacleLoop_cooling pr os : forall g r os' g' r' ret,
  0 < Player.hitCooldown (player g) ->
  obstacleLoop pr os g r = (os', g', r', ret) ->
  ret = false /\ hearts g' = hearts g /\ player g' = player g
  /\ state g' = state g /\ hits (log r') = hits (log r)
  /\ Forall2 (fun o o' => Obstacle.hit o' = Obstacle.hit o) os os'.
Proof.
  induction os as [|o rest IH]; simpl; intros g r os' g' r' ret Hc E.
  - inversion E; subst. repeat split. constructor.
  - rewrite hitObstacle_cooling in E by exact Hc.
    destruct (scoreObstacle o g r) as [[o2 g2] r2] eqn:E2.
    destruct (obstacleLoop pr rest g2 r2) as [[[rest3 g3] r3] ret3] eqn:E3.
    inversion E; subst; clear E.
    apply scoreObstacle_frame in E2.
    destruct E2 as (_ & _ & _ & _ & H2 & S2 & P2 & L2 & _ & _ & F2).
    apply IH in E3; [|rewrite P2; exact Hc].
    destruct E3 as (R3 & H3 & P3 & S3 & L3 & F3).
    repeat split; try congruence. constructor; assumption.
Qed.

(** With a positive [HIT_BUFFER], one pass over the obstacles registers
    at most one hit: the first hit arms the cooldown. *)
Lemma obstacleLoop_one_hit pr os : forall g r os' g' r' ret,
  0 < HIT_BUFFER g ->
  (1 <= hearts g <= 6)%Z ->
  obstacleLoop pr os g r = (os', g', r', ret) ->
  (hits (log r') = hits (log r)
   /\ hearts g' = hearts g
   /\ Player.hitCooldown (player g') = Player.hitCooldown (player g))
  \/ (hits (log r') = S (hits (log r))
      /\ hearts g' = (hearts g - 1)%Z
      /\ Player.hitCooldown (player g') = HIT_BUFFER g).
Proof.
  induction os as [|o rest IH]; simpl; intros g r os' g' r' ret Hb Hh E.
  - inversion E; subst. left. repeat split.
  - unfold hitObstacle in E.
    destruct (collide pr _ && leb _ 0 && negb (Obstacle.hit o)) eqn:Ec.
    + cbn [hearts set_hearts set_player player HIT_BUFFER] in E.
      assert (clampZ (hearts g - 1) 0 6 = (hearts g - 1)%Z) as Hcl
        by (unfold clampZ; lia).
      rewrite Hcl in E.
      destruct (hearts g - 1 <=? 0)%Z eqn:Hz.
      * inversion E; subst; clear E. right. simpl.
        unfold playSfx, emit. simpl. rewrite !hits_app. simpl.
        repeat split. lia.
      * match type of E with
        | context [scoreObstacle ?a ?b ?c] =>
            destruct (scoreObstacle a b c) as [[o2 g2] r2] eqn:E2
        end.
        destruct (obstacleLoop pr rest g2 r2) as [[[rest3 g3] r3] ret3] eqn:E3.
        inversion E; subst; clear E.
        apply scoreObstacle_frame in E2.
        destruct E2 as (_ & _ & _ & _ & H2 & S2 & P2 & L2 & _).
        apply obstacleLoop_cooling in E3;
          [|rewrite P2; simpl; rewrite ?Hcl; simpl; exact Hb].
        destruct E3 as (_ & H3 & P3 & _ & L3 & _).
        right. rewrite L3, L2, H3, H2, P3, P2. simpl. rewrite ?Hcl. simpl.
        unfold playSfx, emit. simpl. rewrite !hits_app. simpl.
        repeat split. lia.
    + destruct (scoreObstacle o g r) as [[o2 g2] r2] eqn:E2.
      destruct (obstacleLoop pr rest g2 r2) as [[[rest3 g3] r3] ret3] eqn:E3.
      inversion E; subst; clear E.
      apply scoreObstacle_frame in E2.
      destruct E2 as (W2 & _ & _ & _ & H2 & S2 & P2 & L2 & _).
      apply IH in E3.
      * rewrite L2, H2, P2 in E3.
        destruct W2 as (_ & _ & _ & _ & _ & _ & _ & B2 & _).
        rewrite B2 in E3. exact E3.
      * destruct W2 as (_ & _ & _ & _ & _ & _ & _ & B2 & _).
        rewrite B2. exact Hb.
      * rewrite H2. exact Hh.
Qed.

Lemma hitObstacle_arms pr o g r o' g' r' ret :
  hitObstacle pr o g r = (o', g', r', ret) ->
  HIT_BUFFER g' = HIT_BUFFER g
  /\ (Player.hitCooldown (player g') = Player.hitCooldown (player g)
      \/ Player.hitCooldown (player g') = HIT_BUFFER g).
Proof.
  unfold hitObstacle.
  destruct (collide pr _ && leb _ 0 && negb (Obstacle.hit o));
    [simpl; destruct (clampZ (hearts g - 1) 0 6 <=? 0)%Z|];
    intro X; inversion X; subst; simpl; auto.
Qed.

Lemma obstacleLoop_arms pr os : forall g r os' g' r' ret,
  obstacleLoop pr os g r = (os', g', r', ret) ->
  Player.hitCooldown (player g') = Player.hitCooldown (player g)
  \/ Player.hitCooldown (player g') = HIT_BUFFER g.
Proof.
  induction os as [|o rest IH]; simpl; intros g r os' g' r' ret E.
  - inversion E; subst. left. reflexivity.
  - open_body.
    + inversion E; subst; clear E. apply hitObstacle_arms in Ehit. tauto.
    + open_rest IH. inversion E; subst; clear E.
      apply hitObstacle_arms in Ehit. apply scoreObstacle_frame in Escore.
      destruct Escore as (W2 & _ & _ & _ & _ & _ & P2 & _).
      destruct W2 as (_ & _ & _ & _ & _ & _ & _ & B2 & _).
      apply IH in Eloop. rewrite P2, B2 in Eloop.
      destruct Ehit as (B1 & C1). rewrite B1 in Eloop.
      destruct Eloop as [X|X]; [rewrite X; exact C1 | right; exact X].
Qed.

Lemma physics_cooldown dt g :
  Player.hitCooldown (player (physics dt g))
  = Math_max 0 (Player.hitCooldown (player g) - dt).
Proof. unfold physics. branches; reflexivity. Qed.

Lemma spawnObstacle_player random dt g r :
  player (fst (spawnObstacle random dt g r)) = player g.
Proof.
  unfold spawnObstacle, Math_random.
  destruct (geb _ _); [destruct (ltb _ _)|]; reflexivity.
Qed.

Lemma spawnHeart_player random dt g r :
  player (fst (spawnHeart random dt g r)) = player g.
Proof.
  unfold spawnHeart, Math_random.
  destruct (_ && _); [destruct (ltb _ 0.6); [destruct (ltb _ _)|]|];
    reflexivity.
Qed.

(** Before the collisions the player is the one that the physics left. *)
Lemma beforeCollisions_player random dt g r :
  player (fst (beforeCollisions random dt g r)) = player (physics dt g).
Proof.
  unfold beforeCollisions, advance.
  match goal with
  | |- context [spawnObstacle random dt ?a ?b] =>
      pose proof (spawnObstacle_player random dt a b) as H3;
      destruct (spawnObstacle random dt a b) as [g3 r3]
  end.
  pose proof (spawnHeart_player random dt g3 r3) as H4.
  destruct (spawnHeart random dt g3 r3) as [g4 r4].
  simpl in *. rewrite H4, H3. unfold physics. reflexivity.
Qed.

(** What the collisions do to the cooldown, the hearts and the hits. *)
Lemma resolve_cooldown g r :
  let g' := fst (resolve g r) in
  let r' := snd (resolve g r) in
  (Player.hitCooldown (player g') = Player.hitCooldown (player g)
   \/ Player.hitCooldown (player g') = HIT_BUFFER g)
  /\ (0 < Player.hitCooldown (player g) ->
      Player.hitCooldown (player g') = Player.hitCooldown (player g)
      /\ hits (log r') = hits (log r)
      /\ (hearts g <= hearts g')%Z /\ state g' = state g).
Proof.
  destruct (resolve_cases g r) as (os & g1 & r1 & ret & E1 & Ht & Hf).
  pose proof (obstacleLoop_arms _ _ _ _ _ _ _ _ E1) as A1.
  destruct ret.
  - rewrite Ht by reflexivity. simpl. split; [exact A1|]. intro Hc.
    apply obstacleLoop_cooling in E1; [|exact Hc].
    destruct E1 as (X & _). discriminate.
  - destruct (Hf eq_refl) as (hs & g2 & r2 & E2 & ->). simpl.
    apply heartLoop_frame in E2. simpl in E2.
    destruct E2 as (_ & _ & _ & _ & _ & St2 & P2 & L2 & He2).
    rewrite P2. split; [exact A1|]. intro Hc.
    apply obstacleLoop_cooling in E1; [|exact Hc].
    destruct E1 as (_ & H1 & P1 & S1 & L1 & _).
    rewrite P1. repeat split; try congruence. lia.
Qed.

(** ** Steps outside PLAYING *)



Lemma resolve_frame g r :
  sameWorld g (fst (resolve g r)) /\ sameCells r (snd (resolve g r)).
Proof.
  destruct (resolve_cases g r) as (os & g1 & r1 & ret & E1 & Ht & Hf).
  apply obstacleLoop_frame in E1. destruct E1 as (W1 & C1 & _).
  destruct ret.
  - rewrite Ht by reflexivity. simpl. split; [|exact C1].
    eapply sameWorld_trans; [exact W1|].
    unfold sameWorld, sameBody; simpl; repeat split.
  - destruct (Hf eq_refl) as (hs & g2 & r2 & E2 & ->). simpl.
    apply heartLoop_frame in E2. destruct E2 as (W2 & C2 & _).
    split; [|eapply sameCells_trans; eassumption].
    eapply sameWorld_trans; [exact W1|].
    eapply sameWorld_trans; [|eapply sameWorld_trans; [exact W2|]];
      unfold sameWorld, sameBody; simpl; repeat split.
Qed.

(** No action changes [HIT_BUFFER]. *)
Lemma act_HIT_BUFFER random a g r :
  HIT_BUFFER (fst (act random a (g, r))) = HIT_BUFFER g.
Proof.
  destruct a as [code| | |w h ctx flies|]; cbn [act].
  - destruct code; simpl; unfold restartFromGameOver, doJump, pauseGame,
      resumeGame; destruct (state g); branches; reflexivity.
  - unfold onPointerDown, restartFromGameOver, doJump.
    destruct (state g); branches; reflexivity.
  - reflexivity.
  - unfold handleResize. destruct ctx; reflexivity.
  - destruct (state g) eqn:St.
    1,3,4: rewrite update_idle by congruence; rewrite St; reflexivity.
    rewrite update_resolve by exact St.
    pose proof (beforeCollisions_keeps random step g r) as K. simpl in K.
    destruct K as (_ & _ & _ & K4 & _).
    destruct (resolve_frame (fst (beforeCollisions random step g r))
                (snd (beforeCollisions random step g r))) as (W & _).
    destruct W as (_ & _ & _ & _ & _ & _ & _ & B & _). congruence.
Qed.

Lemma run_HIT_BUFFER random acts : forall s,
  HIT_BUFFER (fst (run random acts s)) = HIT_BUFFER (fst s).
Proof.
  induction acts as [|a acts IH]; intros s; simpl; [reflexivity|].
  rewrite IH. destruct s as [g r]. apply act_HIT_BUFFER.
Qed.

(** ** Hits, hearts and the end of the game *)

(** A step with a positive [HIT_BUFFER] and a heart left: either no hit
    is played and no heart is lost, or exactly one hit is played, at most
    one heart is lost and the step ends with the cooldown armed. *)
Lemma update_one_hit random dt g r :
  0 < HIT_BUFFER g -> (1 <= hearts g <= 6)%Z ->
  let g' := fst (update random dt g r) in
  let r' := snd (update random dt g r) in
  (hits (log r') = hits (log r) /\ (hearts g <= hearts g')%Z)
  \/ (hits (log r') = S (hits (log r)) /\ (hearts g - 1 <= hearts g')%Z
      /\ Player.hitCooldown (player g') = HIT_BUFFER g).
Proof.
  intros Hb Hh. destruct (state g) eqn:St.
  1,3,4: rewrite update_idle by congruence; rewrite St; simpl; left;
    split; [reflexivity | lia].
  rewrite update_resolve by exact St.
  pose proof (beforeCollisions_keeps random dt g r) as K. simpl in K.
  destruct K as (_ & _ & K3 & K4 & _ & K6 & _).
  set (gb := fst (beforeCollisions random dt g r)) in *.
  set (rb := snd (beforeCollisions random dt g r)) in *.
  destruct (resolve_cases gb rb) as (os & g1 & r1 & ret & E1 & Ht & Hf).
  apply obstacleLoop_one_hit in E1;
    [|rewrite K4; exact Hb | rewrite K3; exact Hh].
  rewrite K3, K4, K6 in E1.
  destruct ret.
  - rewrite Ht by reflexivity. simpl.
    destruct E1 as [(L1 & H1 & _)|(L1 & H1 & P1)]; rewrite L1, H1;
      [left | right]; repeat split; try lia; exact P1.
  - destruct (Hf eq_refl) as (hs & g2 & r2 & E2 & ->). simpl.
    apply heartLoop_frame in E2. simpl in E2.
    destruct E2 as (_ & _ & _ & _ & _ & _ & P2 & L2 & He2).
    rewrite L2, P2.
    destruct E1 as [(L1 & H1 & _)|(L1 & H1 & P1)]; rewrite L1;
      [left | right]; repeat split; try lia; exact P1.
Qed.

(** C1.  In every state that the engine reaches from the model built by
    [init] (which has 3 hearts, as has every model left by [startGame]),
    the hearts are between 0 and 6, and they are 0 exactly when the game
    is over.  While PLAYING at least one heart is left, and an action
    that brings the hearts to 0 is a fixed step in which a hit is played
    and which leaves the game in GAMEOVER.  Once the game is over, every
    action either leaves the state, the hearts and the score as they are,
    or is [startGame], which opens the next session with 3 hearts and no
    score. *)
Theorem hearts_range_and_game_over
    (random : nat -> Q) (w h : N) (ctx : bool) (bw : option Q)
    (flies : list Firefly) (now : Q) (acts : list Action) (a : Action) :
  let s0 := init w h ctx bw flies now in
  let s := run random acts s0 in
  let s' := act random a s in
  hearts (fst s0) = 3%Z
  /\ (forall g r, hearts (fst (startGame g r)) = 3%Z)
  /\ (0 <= hearts (fst s) <= 6)%Z
  /\ (state (fst s) = GAMEOVER <-> hearts (fst s) = 0%Z)
  /\ (state (fst s) = PLAYING ->
      (1 <= hearts (fst s))%Z
      /\ (hearts (fst s') = 0%Z ->
          a = FixedStep /\ state (fst s') = GAMEOVER
          /\ hits (log (snd s')) = S (hits (log (snd s)))))
  /\ (state (fst s) = GAMEOVER ->
      (state (fst s') = GAMEOVER
       /\ hearts (fst s') = hearts (fst s)
       /\ score (fst s') = score (fst s))
      \/ (s' = startGame (fst s) (snd s)
          /\ state (fst s') = PLAYING
          /\ hearts (fst s') = 3%Z /\ score (fst s') = 0%Z)).
Proof.
  intros s0 s s'.
  assert (heartsOk (fst s)) as Hs
    by (apply run_heartsOk, init_heartsOk).
  assert (heartsOk (fst s')) as Hs'
    by (unfold s'; destruct s as [g r]; apply act_heartsOk; exact Hs).
  assert (HIT_BUFFER (fst s) = 0.6) as Hb
    by (unfold s; rewrite run_HIT_BUFFER; reflexivity).
  destruct Hs as [Hr Hg]. destruct Hs' as [Hr' Hg'].
  split; [reflexivity|]. split; [reflexivity|].
  split; [exact Hr|]. split; [exact Hg|].
  destruct s as [g r] eqn:Es. cbn [fst snd] in *. split.
  - intro Hp.
    assert (1 <= hearts g)%Z as Hpos.
    { destruct (Z.eq_dec (hearts g) 0) as [Z0|Z0]; [|lia].
      apply Hg in Z0. congruence. }
    split; [exact Hpos|]. intro H0.
    assert (a = FixedStep) as Ea.
    { destruct a as [code| | |w' h' ctx' flies'|] eqn:Ea; [| | | |reflexivity];
        exfalso;
        (destruct (act_control random a g r) as [S|(Hh & _)];
         [congruence| |]); subst a; unfold s' in H0.
      all: try (rewrite S in H0; simpl in H0; discriminate).
      all: rewrite Hh in H0; lia. }
    split; [exact Ea|]. split; [apply Hg'; exact H0|].
    subst a. unfold s' in *. cbn [act] in *.
    destruct (update_one_hit random step g r) as [(_ & X)|(X & _)];
      [rewrite Hb; reflexivity | lia | lia | exact X].
  - intro Hover.
    destruct a as [code| | |w' h' ctx' flies'|] eqn:Ea.
    5: { left. unfold s'. cbn [act]. rewrite update_idle by congruence.
         rewrite Hover. simpl. auto. }
    all: destruct (act_control random a g r) as [S|(Hh & Hsc & Hst)];
      [congruence| |]; subst a; unfold s'.
    all: try (right; rewrite S; repeat split).
    all: left; rewrite Hh, Hsc; repeat split;
      destruct Hst as [E|[[E _]|[E _]]]; congruence.
Qed.

(** C9.  In every state that the engine reaches from the model of [init],
    [HIT_BUFFER] is 0.6.  A step then registers at most one hit and takes
    at most one heart: either no hit is played and no heart is lost, or
    exactly one hit is played, one heart at most is lost and the step
    ends with the cooldown armed to 0.6.  The reason is the last part: a
    pass over the obstacles that starts with a positive cooldown
    registers no hit, takes no heart and flags no obstacle as hit. *)
Theorem at_most_one_hit_per_step
    (random : nat -> Q) (w h : N) (ctx : bool) (bw : option Q)
    (flies : list Firefly) (now : Q) (acts : list Action) (dt : Q) :
  let s := run random acts (init w h ctx bw flies now) in
  let g := fst s in
  let r := snd s in
  let g' := fst (update random dt g r) in
  let r' := snd (update random dt g r) in
  HIT_BUFFER g = 0.6
  /\ (hits (log r') <= S (hits (log r)))%nat
  /\ (hearts g - 1 <= hearts g')%Z
  /\ (hits (log r') = S (hits (log r)) ->
      Player.hitCooldown (player g') = 0.6)
  /\ (forall pr os g0 r0 os1 g1 r1 ret,
        0 < Player.hitCooldown (player g0) ->
        obstacleLoop pr os g0 r0 = (os1, g1, r1, ret) ->
        hits (log r1) = hits (log r0) /\ hearts g1 = hearts g0
        /\ Forall2 (fun o o' => Obstacle.hit o' = Obstacle.hit o) os os1).
Proof.
  intros s g r g' r'.
  assert (HIT_BUFFER g = 0.6) as Hb
    by (unfold g, s; rewrite run_HIT_BUFFER; reflexivity).
  assert (heartsOk g) as Hok
    by (apply run_heartsOk, init_heartsOk).
  split; [exact Hb|].
  assert ((hits (log r') <= S (hits (log r)))%nat
          /\ (hearts g - 1 <= hearts g')%Z
          /\ (hits (log r') = S (hits (log r)) ->
              Player.hitCooldown (player g') = 0.6)) as Main.
  { unfold g', r'. destruct Hok as [Hr Hg].
    destruct (Z.eq_dec (hearts g) 0) as [Z0|Z0].
    - apply Hg in Z0. rewrite update_idle by congruence. rewrite Z0. simpl.
      repeat split; lia.
    - destruct (update_one_hit random dt g r) as [(L & H)|(L & H & P)];
        [rewrite Hb; reflexivity | lia | |].
      + rewrite L. repeat split; lia.
      + rewrite L, P, Hb. repeat split; lia. }
  destruct Main as (M1 & M2 & M3).
  split; [exact M1|]. split; [exact M2|]. split; [exact M3|].
  intros pr os g0 r0 os1 g1 r1 ret Hc E.
  apply obstacleLoop_cooling in E; [|exact Hc]. tauto.
Qed.

(** A hit arms the cooldown, and nothing else in the pass touches it. *)
Lemma hitObstacle_rearm pr o g r o' g' r' ret :
  hitObstacle pr o g r = (o', g', r', ret) ->
  HIT_BUFFER g' = HIT_BUFFER g
  /\ ((hits (log r') = hits (log r) /\ player g' = player g)
      \/ (hits (log r') = S (hits (log r))
          /\ Player.hitCooldown (player g') = HIT_BUFFER g)).
Proof.
  unfold hitObstacle.
  destruct (collide pr _ && leb _ 0 && negb (Obstacle.hit o)).
  - cbn [hearts set_hearts set_player player HIT_BUFFER].
    destruct (clampZ (hearts g - 1) 0 6 <=? 0)%Z; intro E; inversion E; subst;
      clear E; (split; [reflexivity|]); right;
      unfold playSfx, emit; simpl; rewrite !hits_app; simpl;
      (split; [lia | reflexivity]).
  - intro E. inversion E; subst. split; [reflexivity|]. left.
    split; reflexivity.
Qed.

Lemma obstacleLoop_rearm pr os : forall g r os' g' r' ret,
  obstacleLoop pr os g r = (os', g', r', ret) ->
  (hits (log r) <= hits (log r'))%nat
  /\ (hits (log r') = hits (log r) ->
      Player.hitCooldown (player g') = Player.hitCooldown (player g))
  /\ (hits (log r') <> hits (log r) ->
      Player.hitCooldown (player g') = HIT_BUFFER g).
Proof.
  induction os as [|o rest IH]; simpl; intros g r os' g' r' ret E.
  - inversion E; subst. repeat split; [lia | congruence].
  - destruct (hitObstacle pr o g r) as [[[o1 g1] r1] ret1] eqn:E1.
    apply hitObstacle_rearm in E1. destruct E1 as (B1 & H1).
    destruct ret1.
    + inversion E; subst; clear E.
      destruct H1 as [(L1 & P1) | (L1 & C1)].
      * rewrite L1, P1. repeat split; [lia | congruence].
      * rewrite L1. split; [lia|]. split; [lia | intros _; exact C1].
    + destruct (scoreObstacle o1 g1 r1) as [[o2 g2] r2] eqn:E2.
      destruct (obstacleLoop pr rest g2 r2) as [[[rest3 g3] r3] ret3] eqn:E3.
      inversion E; subst; clear E.
      apply scoreObstacle_frame in E2.
      destruct E2 as (W2 & _ & _ & _ & _ & _ & P2 & L2 & _).
      destruct W2 as (_ & _ & _ & _ & _ & _ & _ & B2 & _).
      apply IH in E3. rewrite L2, P2, B2, B1 in E3.
      destruct E3 as (M3 & S3 & N3).
      destruct H1 as [(L1 & P1) | (L1 & C1)].
      * rewrite L1, P1 in *. split; [exact M3|]. split; assumption.
      * rewrite L1 in *. split; [lia|]. split; [lia|]. intros _.
        destruct (Nat.eq_dec (hits (log r')) (S (hits (log r)))) as [X | X].
        -- rewrite (S3 X). exact C1.
        -- exact (N3 X).
Qed.

(** What the collisions do to the cooldown, by the hits they register. *)
Lemma resolve_rearm g r :
  let g' := fst (resolve g r) in
  let r' := snd (resolve g r) in
  (hits (log r) <= hits (log r'))%nat
  /\ (hits (log r') = hits (log r) ->
      Player.hitCooldown (player g') = Player.hitCooldown (player g))
  /\ (hits (log r') <> hits (log r) ->
      Player.hitCooldown (player g') = HIT_BUFFER g).
Proof.
  destruct (resolve_cases g r) as (os & g1 & r1 & ret & E1 & Ht & Hf).
  pose proof (obstacleLoop_rearm _ _ _ _ _ _ _ _ E1) as A1.
  destruct ret.
  - rewrite Ht by reflexivity. simpl. exact A1.
  - destruct (Hf eq_refl) as (hs & g2 & r2 & E2 & ->). simpl.
    apply heartLoop_frame in E2. simpl in E2.
    destruct E2 as (_ & _ & _ & _ & _ & _ & P2 & L2 & _).
    rewrite P2, L2. exact A1.
Qed.

(** ** The decay of the cooldown *)

(** C6, as stated, fails: a step taken while PAUSED leaves a running
    cooldown of 0.6 s at 0.6 s, not at 0.6 - 1/60. *)
Lemma paused_step_keeps_the_cooldown :
  let g' := fst (update half step pausedAfterHit sampleRefs) in
  state pausedAfterHit = PAUSED
  /\ Player.hitCooldown (player pausedAfterHit) = 0.6
  /\ Player.hitCooldown (player g') = 0.6
  /\ ~ Player.hitCooldown (player g')
       == Math_max 0 (Player.hitCooldown (player pausedAfterHit) - step).
Proof.
  cbv zeta. split; [reflexivity|]. split; [reflexivity|].
  split; [reflexivity|]. vm_compute. discriminate.
Qed.

(** C6, amended.  A step taken in TITLE, PAUSED or GAMEOVER leaves the
    hit cooldown as it is.  A step taken while PLAYING first lets it
    decay by [dt], not below 0; the step ends with the decayed value
    exactly when it registers no hit, and with [HIT_BUFFER] when it
    registers one; and while the decayed value is positive no hit
    registers: no hit is played, no heart is lost and the game goes on. *)
Theorem cooldown_decays_while_playing
    (random : nat -> Q) (dt : Q) (g : Game) (r : Refs) :
  let g' := fst (update random dt g r) in
  let r' := snd (update random dt g r) in
  let decayed := Math_max 0 (Player.hitCooldown (player g) - dt) in
  (state g <> PLAYING ->
   Player.hitCooldown (player g') = Player.hitCooldown (player g))
  /\ (state g = PLAYING ->
      0 <= decayed
      /\ (Player.hitCooldown (player g') = decayed
          \/ Player.hitCooldown (player g') = HIT_BUFFER g)
      /\ (hits (log r) <= hits (log r'))%nat
      /\ (hits (log r') = hits (log r) ->
          Player.hitCooldown (player g') = decayed)
      /\ (hits (log r') <> hits (log r) ->
          Player.hitCooldown (player g') = HIT_BUFFER g)
      /\ (0 < decayed ->
          Player.hitCooldown (player g') = decayed
          /\ hits (log r') = hits (log r)
          /\ (hearts g <= hearts g')%Z
          /\ state g' = PLAYING)).
Proof.
  intros g' r' decayed. split.
  - intro H. unfold g'. rewrite update_idle by exact H.
    destruct (GameState_eqb (state g) PAUSED); reflexivity.
  - intro St. split; [apply Math_max_lower|].
    unfold g', r'. rewrite update_resolve by exact St.
    pose proof (beforeCollisions_keeps random dt g r) as K. simpl in K.
    destruct K as (K1 & _ & K3 & K4 & _ & K6 & _).
    pose proof (beforeCollisions_player random dt g r) as P.
    pose proof (resolve_cooldown (fst (beforeCollisions random dt g r))
                  (snd (beforeCollisions random dt g r))) as R.
    pose proof (resolve_rearm (fst (beforeCollisions random dt g r))
                  (snd (beforeCollisions random dt g r))) as A.
    simpl in R. rewrite P, physics_cooldown, K3, K4, K6, K1, St in R.
    cbv zeta in A. rewrite P, physics_cooldown, K4, K6 in A.
    destruct R as (R1 & R2). destruct A as (A1 & A2 & A3).
    split; [exact R1|]. split; [exact A1|]. split; [exact A2|].
    split; [exact A3 | exact R2].
Qed.

(** C6, amended, in the sample session: with 0.6 s of cooldown the step
    ends with the decayed value; with no cooldown left and a mushroom under
    the player it registers a hit and ends with [HIT_BUFFER]. *)
Lemma cooldown_decays_in_the_sample_session :
  (state (cooling 0.6) = PLAYING
   /\ 0 < Math_max 0 (Player.hitCooldown (player (cooling 0.6)) - step)
   /\ Player.hitCooldown
        (player (fst (update half step (cooling 0.6) sampleRefs)))
      = Math_max 0 (Player.hitCooldown (player (cooling 0.6)) - step))
  /\ (state (atMushroom 0) = PLAYING
      /\ hits (log (snd (update half step (atMushroom 0) sampleRefs)))
         <> hits (log sampleRefs)
      /\ Player.hitCooldown
           (player (fst (update half step (atMushroom 0) sampleRefs)))
         = HIT_BUFFER (atMushroom 0)).
Proof.
  split.
  - split; [reflexivity|]. split; [reflexivity|].
    apply (cooldown_decays_while_playing half step (cooling 0.6) sampleRefs);
      reflexivity.
  - assert (hits (log (snd (update half step (atMushroom 0) sampleRefs)))
            <> hits (log sampleRefs)) as H by (vm_compute; discriminate).
    split; [reflexivity|]. split; [exact H|].
    apply (cooldown_decays_while_playing half step (atMushroom 0) sampleRefs);
      [reflexivity | exact H].
Defined.

(** ** Jumps *)

(** After a step taken while PLAYING the body of the player is the one
    that the physics left. *)
Lemma update_body random dt g r :
  state g = PLAYING ->
  sameBody (player (physics dt g)) (player (fst (update random dt g r))).
Proof.
  intro St. rewrite update_resolve by exact St.
  destruct (resolve_frame (fst (beforeCollisions random dt g r))
              (snd (beforeCollisions random dt g r))) as (W & _).
  destruct W as (_ & _ & _ & _ & _ & _ & _ & _ & _ & _ & _ & _ & _ & _ & _ & B).
  rewrite beforeCollisions_player in B. exact B.
Qed.

(** C5.  While PLAYING, [doJump] is honoured exactly when
    [jumpsRemaining] is positive: it then sets [vy] to [JUMP_V], clears
    [onGround], takes one from [jumpsRemaining] and plays the jump sound;
    otherwise it changes nothing.  A step sets [jumpsRemaining] to 2 when
    [onGround] goes from false to true, and leaves it as it is otherwise;
    [onGround] goes from false to true only while PLAYING, at the ground
    clamp (the player is put on the ground with no velocity). *)
Theorem jump_honoured_and_replenished
    (random : nat -> Q) (dt : Q) (g : Game) (r : Refs) :
  state g = PLAYING ->
  let p := player g in
  let pj := player (fst (doJump g r)) in
  let p' := player (fst (update random dt g r)) in
  ((0 < Player.jumpsRemaining p)%Z ->
   Player.vy pj = JUMP_V g /\ Player.onGround pj = false
   /\ Player.jumpsRemaining pj = (Player.jumpsRemaining p - 1)%Z
   /\ log (snd (doJump g r)) = log r ++ [PlaySfx SfxJump])
  /\ (~ (0 < Player.jumpsRemaining p)%Z -> doJump g r = (g, r))
  /\ Player.jumpsRemaining p'
     = (if negb (Player.onGround p) && Player.onGround p' then 2%Z
        else Player.jumpsRemaining p)
  /\ (Player.onGround p = false -> Player.onGround p' = true ->
      Player.y p' = groundY g - Player.h p /\ Player.vy p' = 0
      /\ Player.jumpsRemaining p' = 2%Z).
Proof.
  intros St p pj p'. split; [|split].
  - intro Hj. unfold pj, doJump. rewrite St.
    apply Z.ltb_lt in Hj. fold p. rewrite Hj. repeat split.
  - intro Hj. unfold doJump. rewrite St. fold p.
    destruct (0 <? Player.jumpsRemaining p)%Z eqn:E; [|reflexivity].
    apply Z.ltb_lt in E. contradiction.
  - pose proof (update_body random dt g r St) as B. fold p' in B.
    destruct B as (_ & By & _ & _ & Bv & Bo & Bj).
    rewrite Bj, Bo, By, Bv. unfold physics. fold p.
    destruct (geb _ _); destruct (Player.onGround p) eqn:Eo; simpl;
      repeat split; congruence.
Qed.

(** C5 at the start of the sample session: the first jump. *)
Lemma jump_in_the_sample_session :
  state samplePlay = PLAYING
  /\ (0 < Player.jumpsRemaining (player samplePlay))%Z
  /\ Player.vy (player (fst (doJump samplePlay sampleRefs)))
     = JUMP_V samplePlay
  /\ Player.onGround (player (fst (doJump samplePlay sampleRefs))) = false
  /\ Player.jumpsRemaining (player (fst (doJump samplePlay sampleRefs)))
     = (Player.jumpsRemaining (player samplePlay) - 1)%Z
  /\ log (snd (doJump samplePlay sampleRefs))
     = log sampleRefs ++ [PlaySfx SfxJump].
Proof.
  split; [reflexivity|]. split; [reflexivity|].
  apply (jump_honoured_and_replenished half step samplePlay sampleRefs);
    reflexivity.
Defined.

(** ** The obstacle spawner *)

Lemma spawnHeart_spawner random dt g r :
  let g' := fst (spawnHeart random dt g r) in
  obsTimer g' = obsTimer g /\ obsInterval g' = obsInterval g
  /\ lastObstacleX g' = lastObstacleX g /\ obstacles g' = obstacles g
  /\ speed g' = speed g.
Proof.
  unfold spawnHeart, Math_random.
  destruct (_ && _); [destruct (ltb _ 0.6); [destruct (ltb _ _)|]|];
    simpl; repeat split.
Qed.

(** The spawner, as the step sees it before the collisions. *)
Lemma beforeCollisions_spawner random dt g r :
  let gb := fst (beforeCollisions random dt g r) in
  let speed' := 350 + (difficultySeconds g + dt) * 4 in
  let x := sizeW r + 40 * u g in
  speed gb = speed'
  /\ (geb (obsTimer g + dt) (obsInterval g) = false ->
      obsTimer gb = obsTimer g + dt
      /\ lastObstacleX gb = lastObstacleX g - speed' * dt
      /\ obstacles gb = map (moved (speed' * dt)) (obstacles g))
  /\ (geb (obsTimer g + dt) (obsInterval g) = true ->
      ltb (lastObstacleX g) (sizeW r - minGapPx g) = false ->
      obsTimer gb = obsInterval g * 0.7
      /\ lastObstacleX gb = lastObstacleX g
      /\ obstacles gb = map (moved (speed' * dt)) (obstacles g))
  /\ (geb (obsTimer g + dt) (obsInterval g) = true ->
      ltb (lastObstacleX g) (sizeW r - minGapPx g) = true ->
      obsTimer gb = 0 /\ lastObstacleX gb = x
      /\ exists o,
          Obstacle.x o = x /\ Obstacle.hit o = false
          /\ Obstacle.scored o = false
          /\ obstacles gb = map (moved (speed' * dt)) (obstacles g ++ [o])
          /\ (Obstacle.w o = 52 * u g \/ Obstacle.w o = 92 * u g)).
Proof.
  unfold beforeCollisions, advance.
  match goal with
  | |- context [spawnObstacle random dt ?a ?b] =>
      set (gs := a); set (rs := b)
  end.
  destruct (spawnObstacle random dt gs rs) as [g3 r3] eqn:E.
  pose proof (spawnHeart_spawner random dt g3 r3) as H4.
  destruct (spawnHeart random dt g3 r3) as [g4 r4]. simpl in H4.
  destruct H4 as (T4 & I4 & L4 & O4 & S4).
  cbn [fst moveWorld]. unfold moveWorld.
  cbn [speed set_obstacles set_heartPickups obsTimer lastObstacleX obstacles].
  rewrite T4, L4, O4, S4.
  unfold spawnObstacle, Math_random in E.
  assert (obsTimer gs = obsTimer g /\ obsInterval gs = obsInterval g
          /\ lastObstacleX gs = lastObstacleX g /\ minGapPx gs = minGapPx g
          /\ speed gs = 350 + (difficultySeconds g + dt) * 4
          /\ obstacles gs = obstacles g /\ u gs = u g /\ sizeW rs = sizeW r)
    as (A1 & A2 & A3 & A4 & A5 & A6 & A7 & A8).
  { unfold gs, rs, physics, ramp, scroll. branches; repeat split. }
  cbn [obsTimer set_obsTimer obsInterval lastObstacleX minGapPx] in E.
  rewrite A1, A2, A3, A4, A8 in E.
  destruct (geb (obsTimer g + dt) (obsInterval g)) eqn:Et;
    [destruct (ltb (lastObstacleX g) (sizeW r - minGapPx g)) eqn:Eg|];
    inversion E; subst g3; clear E; simpl; rewrite ?A1, ?A2, ?A3, ?A5, ?A6, ?A7;
    (split; [reflexivity|]); (split; [|split]); intros; try discriminate;
    repeat split.
  eexists. split; [|split; [|split; [|split; [reflexivity|]]]];
    try reflexivity.
  simpl. rewrite ?A7. destruct (ltb _ 0.7); auto.
Qed.

(** C7, as stated, fails in its last part: on a step where the timer has
    reached the interval and the spacing guard fails, nothing is spawned,
    the tracker is not reset, and it is not decremented either. *)
Lemma crowded_step_keeps_the_tracker :
  let g' := fst (update half step crowded sampleRefs) in
  state crowded = PLAYING
  /\ geb (obsTimer crowded + step) (obsInterval crowded) = true
  /\ ltb (lastObstacleX crowded) (sizeW sampleRefs - minGapPx crowded) = false
  /\ length (obstacles g') = length (obstacles crowded)
  /\ lastObstacleX g' = lastObstacleX crowded
  /\ ~ lastObstacleX g' == lastObstacleX crowded - speed g' * step.
Proof.
  cbv zeta. split; [reflexivity|]. split; [reflexivity|].
  split; [reflexivity|]. split; [reflexivity|]. split; [reflexivity|].
  vm_compute. discriminate.
Qed.

(** C7, amended.  In a step taken while PLAYING, with the timer advanced
    by [dt] and [vx = speed * dt] the distance the world scrolls in the
    step: when the timer has reached the interval and the spacing guard
    fails, no obstacle is spawned (the obstacles before the collisions
    are the old ones, moved) and the timer is set to [interval * 0.7];
    when the guard passes, one obstacle is spawned and the tracker is the
    [x] it is spawned at; and when the timer has not reached the interval
    the tracker is decremented by [vx]. *)
Theorem spawner_timer_and_tracker
    (random : nat -> Q) (dt : Q) (g : Game) (r : Refs) :
  state g = PLAYING ->
  let g' := fst (update random dt g r) in
  let gb := fst (beforeCollisions random dt g r) in
  let vx := speed g' * dt in
  (obsInterval g <= obsTimer g + dt ->
   ~ lastObstacleX g < sizeW r - minGapPx g ->
   obstacles gb = map (moved vx) (obstacles g)
   /\ obsTimer g' = obsInterval g * 0.7)
  /\ (obsInterval g <= obsTimer g + dt ->
      lastObstacleX g < sizeW r - minGapPx g ->
      exists o,
        obstacles gb = map (moved vx) (obstacles g ++ [o])
        /\ Obstacle.hit o = false /\ Obstacle.scored o = false
        /\ Obstacle.x o = sizeW r + 40 * u g
        /\ lastObstacleX g' = Obstacle.x o)
  /\ (obsTimer g + dt < obsInterval g ->
      lastObstacleX g' = lastObstacleX g - vx).
Proof.
  intros St g' gb vx.
  pose proof (beforeCollisions_spawner random dt g r) as S. simpl in S.
  fold gb in S. destruct S as (Sp & Slow & Sfail & Spass).
  assert (obsTimer g' = obsTimer gb /\ lastObstacleX g' = lastObstacleX gb
          /\ speed g' = speed gb) as (Et & El & Es).
  { unfold g'. rewrite update_resolve by exact St.
    destruct (resolve_frame (fst (beforeCollisions random dt g r))
                (snd (beforeCollisions random dt g r))) as (W & _).
    unfold sameWorld in W. fold gb in W. tauto. }
  unfold vx. rewrite Es, Sp, Et, El. split; [|split].
  - intros Ht Hg. apply geb_le in Ht.
    assert (ltb (lastObstacleX g) (sizeW r - minGapPx g) = false) as Hg'
      by (apply ltb_ge, Qnot_lt_le; exact Hg).
    destruct (Sfail Ht Hg') as (A & _ & C). split; assumption.
  - intros Ht Hg. apply geb_le in Ht. apply ltb_lt in Hg.
    destruct (Spass Ht Hg) as (_ & B & o & Ox & Oh & Os & Ol & _).
    exists o. repeat split; try assumption. congruence.
  - intro Ht. apply geb_lt in Ht. destruct (Slow Ht) as (_ & B & _). exact B.
Qed.

(** C7, amended, in the crowded session: the guard fails. *)
Lemma spawner_in_the_crowded_session :
  state crowded = PLAYING
  /\ obsInterval crowded <= obsTimer crowded + step
  /\ ~ lastObstacleX crowded < sizeW sampleRefs - minGapPx crowded
  /\ obsTimer (fst (update half step crowded sampleRefs))
     = obsInterval crowded * 0.7.
Proof.
  split; [reflexivity|]. split; [discriminate|]. split; [discriminate|].
  apply (spawner_timer_and_tracker half step crowded sampleRefs);
    [reflexivity | discriminate | discriminate].
Defined.

(** ** Pickups at the cap *)




(** ** Scoring *)

(** C3, as stated, fails: in this step the right edge of the player
    passes the right edge of an obstacle that is neither hit nor scored,
    the obstacle is not hit, and it is not scored. *)
Lemma leading_edge_past_is_not_scored :
  let g := overMushroom in
  let g' := fst (update half step g sampleRefs) in
  exists o o',
    state g = PLAYING /\ obstacles g = [o] /\ obstacles g' = [o']
    /\ Obstacle.hit o = false /\ Obstacle.scored o = false
    /\ ~ Player.x (player g) + Player.w (player g)
         > Obstacle.x o + Obstacle.w o
    /\ Player.x (player g') + Player.w (player g')
       > Obstacle.x o' + Obstacle.w o'
    /\ Obstacle.hit o' = false /\ Obstacle.scored o' = false
    /\ score g' = score g /\ state g' = PLAYING.
Proof.
  cbv zeta. do 2 eexists.
  split; [reflexivity|]. split; [reflexivity|].
  split; [vm_compute; reflexivity|].
  split; [reflexivity|]. split; [reflexivity|].
  split; [discriminate|]. split; [reflexivity|].
  split; [reflexivity|]. split; [reflexivity|]. split; reflexivity.
Qed.

Lemma obstacleLoop_returned pr os : forall g r os' g' r',
  obstacleLoop pr os g r = (os', g', r', true) -> state g' = GAMEOVER.
Proof.
  induction os as [|o rest IH]; simpl; intros g r os' g' r' E.
  - discriminate.
  - open_body.
    + inversion E; subst; clear E. unfold hitObstacle in Ehit.
      destruct (collide pr _ && leb _ 0 && negb (Obstacle.hit o));
        [simpl in Ehit; destruct (clampZ (hearts g - 1) 0 6 <=? 0)%Z|];
        inversion Ehit; reflexivity.
    + open_rest IH. inversion E; subst; clear E. eapply IH; eassumption.
Qed.

(** One turn of the loop that did not make [update] return. *)
Lemma turn_scoring pr o g r o1 g1 r1 o2 g2 r2 :
  hitObstacle pr o g r = (o1, g1, r1, false) ->
  scoreObstacle o1 g1 r1 = (o2, g2, r2) ->
  scoredWhenPast (Player.x (player g)) o o2
  /\ score g2
     = (score g
        + (if negb (Obstacle.scored o) && Obstacle.scored o2 then 1 else 0))%Z
  /\ Player.x (player g2) = Player.x (player g).
Proof.
  unfold hitObstacle, scoreObstacle, scoredWhenPast. intros E1 E2.
  destruct (collide pr _ && leb _ 0 && negb (Obstacle.hit o)).
  - simpl in E1. destruct (clampZ (hearts g - 1) 0 6 <=? 0)%Z;
      inversion E1; subst; clear E1. simpl in E2.
    rewrite andb_false_r in E2. inversion E2; subst; clear E2. simpl.
    destruct (Obstacle.scored o); simpl; repeat split; try lia;
      intros; discriminate.
  - inversion E1; subst; clear E1.
    destruct (Obstacle.scored o1) eqn:Es; destruct (Obstacle.hit o1) eqn:Eh;
      simpl in E2.
    1,2,3: inversion E2; subst; clear E2; rewrite ?Es, ?Eh; simpl;
      repeat split; try lia; intros; try discriminate; try assumption.
    destruct (gtb (Player.x (player g1)) (Obstacle.x o1 + Obstacle.w o1))
      eqn:Ep; inversion E2; subst; clear E2; simpl; rewrite ?Es;
      repeat split; try lia; intros; try discriminate.
    + apply gtb_lt. exact Ep.
    + apply gtb_lt in H2. congruence.
Qed.

Lemma scoredNow_same os : scoredNow os os = 0%Z.
Proof.
  induction os as [|o os IH]; simpl; [reflexivity|].
  rewrite IH. destruct (Obstacle.scored o); reflexivity.
Qed.

Lemma obstacleLoop_scoring pr os : forall g r os' g' r' ret,
  obstacleLoop pr os g r = (os', g', r', ret) ->
  score g' = (score g + scoredNow os os')%Z
  /\ (ret = false -> Forall2 (scoredWhenPast (Player.x (player g))) os os').
Proof.
  induction os as [|o rest IH]; simpl; intros g r os' g' r' ret E.
  - inversion E; subst. split; [simpl; lia|]. constructor.
  - open_body.
    + inversion E; subst; clear E. split; [|discriminate].
      pose proof (hitObstacle_frame _ _ _ _ _ _ _ _ Ehit) as F.
      destruct F as (_ & _ & _ & _ & Sc & _ & _ & Ss).
      simpl. rewrite Ss, Sc, scoredNow_same.
      destruct (Obstacle.scored o); simpl; lia.
    + open_rest IH. inversion E; subst; clear E.
      destruct (turn_scoring _ _ _ _ _ _ _ _ _ _ Ehit Escore) as (T1 & T2 & T3).
      apply IH in Eloop. destruct Eloop as (L1 & L2).
      split; [simpl; lia|]. intro Hr.
      constructor; [exact T1|]. rewrite <- T3. apply L2. exact Hr.
Qed.

(** C3, amended.  In a step taken while PLAYING that does not end the
    game, let [os] be the obstacles when the collisions start and [os']
    the same obstacles when the pass over them ends (the cleanup then
    keeps some of them).  An obstacle that was neither hit nor scored,
    and that does not register a hit in this step, is scored exactly when
    the [x] of the player (the left edge of its box) is beyond the right
    edge [x + w] of the obstacle; and the score grows by 1 for each
    obstacle scored in the step. *)
Theorem scored_when_the_player_is_past
    (random : nat -> Q) (dt : Q) (g : Game) (r : Refs) :
  state g = PLAYING ->
  state (fst (update random dt g r)) = PLAYING ->
  let os := obstacles (fst (beforeCollisions random dt g r)) in
  let g' := fst (update random dt g r) in
  exists os',
    obstacles g' = filter keepObstacle os'
    /\ Forall2 (scoredWhenPast (Player.x (player g))) os os'
    /\ score g' = (score g + scoredNow os os')%Z.
Proof.
  intros St St' os g'. unfold g', os in *. clear g' os.
  rewrite update_resolve in * by exact St.
  pose proof (beforeCollisions_keeps random dt g r) as K. simpl in K.
  destruct K as (_ & K2 & _ & _ & _ & _ & K7 & _).
  set (gb := fst (beforeCollisions random dt g r)) in *.
  set (rb := snd (beforeCollisions random dt g r)) in *.
  destruct (resolve_cases gb rb) as (os' & g1 & r1 & ret & E1 & Ht & Hf).
  destruct ret.
  - apply obstacleLoop_returned in E1.
    rewrite Ht in St' by reflexivity. simpl in St'. congruence.
  - destruct (Hf eq_refl) as (hs & g2 & r2 & E2 & Er). rewrite Er. simpl.
    apply heartLoop_frame in E2. simpl in E2.
    destruct E2 as (_ & _ & O2 & _ & S2 & _).
    apply obstacleLoop_scoring in E1. destruct E1 as (S1 & F1).
    exists os'. rewrite O2, S2, S1, K2, <- K7.
    split; [reflexivity|]. split; [apply F1; reflexivity | reflexivity].
Qed.

(** C3, amended, on a mushroom that the player has left behind: the
    step scores it. *)
Lemma mushroom_behind_the_player_is_scored :
  state pastMushroom = PLAYING
  /\ state (fst (update half step pastMushroom sampleRefs)) = PLAYING
  /\ score (fst (update half step pastMushroom sampleRefs)) = 1%Z
  /\ exists os',
       obstacles (fst (update half step pastMushroom sampleRefs))
       = filter keepObstacle os'
       /\ Forall2 (scoredWhenPast (Player.x (player pastMushroom)))
            (obstacles (fst (beforeCollisions half step pastMushroom
                               sampleRefs))) os'
       /\ score (fst (update half step pastMushroom sampleRefs))
          = (score pastMushroom
             + scoredNow
                 (obstacles (fst (beforeCollisions half step pastMushroom
                                    sampleRefs))) os')%Z.
Proof.
  split; [reflexivity|]. split; [reflexivity|]. split; [reflexivity|].
  apply (scored_when_the_player_is_past half step pastMushroom sampleRefs);
    reflexivity.
Defined.

(** ** Hit and scored exclude each other *)

(** A scored obstacle is behind the player and cannot collide with it. *)
Lemma scored_cannot_collide px py pw ph o :
  0 <= pw -> obstacleOk px o -> Obstacle.scored o = true ->
  collide (shrink px py pw ph)
    (shrink (Obstacle.x o) (Obstacle.y o) (Obstacle.w o) (Obstacle.h o))
  = false.
Proof.
  intros Hw (Ho & Hs) Sc. destruct (Hs Sc) as (_ & Hp).
  unfold collide, shrink. cbn [Box.x Box.y Box.w Box.h].
  assert (ltb (px + pw * 0.1 * 0.5)
            (Obstacle.x o + Obstacle.w o * 0.1 * 0.5
             + (Obstacle.w o - Obstacle.w o * 0.1)) = false) as E
    by (apply ltb_ge; lra).
  rewrite E. reflexivity.
Qed.

Lemma turn_exclusive px py pw ph o g r o1 g1 r1 ret :
  0 <= pw -> obstacleOk px o -> Player.x (player g) = px ->
  hitObstacle (shrink px py pw ph) o g r = (o1, g1, r1, ret) ->
  obstacleOk px o1 /\ flagsExclude o o1
  /\ forall o2 g2 r2,
       scoreObstacle o1 g1 r1 = (o2, g2, r2) ->
       obstacleOk px o2 /\ flagsExclude o o2.
Proof.
  intros Hw Ok Px E.
  pose proof (scored_cannot_collide px py pw ph o Hw Ok) as NC.
  pose proof (hitObstacle_frame _ _ _ _ _ _ _ _ E) as F.
  destruct F as (W & _). destruct W as (_ & _ & _ & _ & _ & _ & _ & _ & _ & _
    & _ & _ & _ & _ & _ & B). destruct B as (Bx & _).
  unfold hitObstacle in E. destruct Ok as (Ow & Os).
  destruct (Obstacle.scored o) eqn:Sc.
  - rewrite NC in E by reflexivity. simpl in E. inversion E; subst; clear E.
    destruct (Os eq_refl) as (Hh & Hp).
    assert (obstacleOk (Player.x (player g1)) o1 /\ flagsExclude o1 o1) as A
      by (unfold obstacleOk, flagsExclude; rewrite Sc, Hh;
          repeat split; intros; try assumption; congruence).
    split; [apply A|]. split; [apply A|].
    intros o2 g2 r2 E2. unfold scoreObstacle in E2. rewrite Sc in E2.
    simpl in E2. inversion E2; subst. exact A.
  - destruct (collide _ _ && leb _ 0 && negb (Obstacle.hit o)) eqn:Ec.
    + simpl in E.
      assert (o1 = Obstacle.mk (Obstacle.type o) (Obstacle.x o) (Obstacle.y o)
                     (Obstacle.w o) (Obstacle.h o) true false true) as ->
        by (destruct (clampZ (hearts g - 1) 0 6 <=? 0)%Z; inversion E;
            rewrite ?Sc; reflexivity).
      match goal with
      | |- obstacleOk ?p ?o1 /\ flagsExclude ?o ?o1 /\ _ =>
          assert (obstacleOk p o1 /\ flagsExclude o o1) as A
            by (unfold obstacleOk, flagsExclude; simpl;
                repeat split; intros; try assumption; congruence)
      end.
      split; [apply A|]. split; [apply A|].
      intros o2 g2 r2 E2. unfold scoreObstacle in E2. simpl in E2.
      inversion E2; subst. exact A.
    + inversion E; subst; clear E.
      assert (obstacleOk (Player.x (player g1)) o1 /\ flagsExclude o1 o1) as A
        by (unfold obstacleOk, flagsExclude; rewrite Sc;
            repeat split; intros; try assumption; congruence).
      split; [apply A|]. split; [apply A|].
      intros o2 g2 r2 E2. unfold scoreObstacle in E2.
      destruct (negb (Obstacle.scored o1) && negb (Obstacle.hit o1)
                && gtb _ _) eqn:Ep; inversion E2; subst; clear E2;
        [|exact A].
      apply andb_true_iff in Ep. destruct Ep as (Ep1 & Ep2).
      apply andb_true_iff in Ep1. destruct Ep1 as (_ & Eh).
      apply negb_true_iff in Eh. apply gtb_lt in Ep2.
      unfold obstacleOk, flagsExclude. simpl. rewrite Eh.
      repeat split; intros; try assumption; congruence.
Qed.

Lemma obstacleOk_flags px o : obstacleOk px o -> flagsExclude o o.
Proof.
  intros (_ & Hs). unfold flagsExclude. split.
  - intro Sc. split; [exact Sc | apply Hs; exact Sc].
  - intro Hh. destruct (Obstacle.scored o) eqn:Sc; [|reflexivity].
    destruct (Hs eq_refl) as (X & _). congruence.
Qed.

Lemma obstacleOk_nand px o :
  obstacleOk px o -> Obstacle.hit o && Obstacle.scored o = false.
Proof.
  intros (_ & Hs). destruct (Obstacle.scored o) eqn:Sc.
  - destruct (Hs eq_refl) as (X & _). rewrite X. reflexivity.
  - apply andb_false_r.
Qed.

Lemma obstacleLoop_exclusive px py pw ph os : forall g r os' g' r' ret,
  0 <= pw -> Player.x (player g) = px ->
  Forall (obstacleOk px) os ->
  obstacleLoop (shrink px py pw ph) os g r = (os', g', r', ret) ->
  Forall (obstacleOk px) os' /\ Forall2 flagsExclude os os'.
Proof.
  induction os as [|o rest IH]; simpl; intros g r os' g' r' ret Hw Px Ok E.
  - inversion E; subst. split; constructor.
  - inversion Ok as [|? ? Oko Okrest]; subst.
    open_body.
    + inversion E; subst; clear E.
      destruct (turn_exclusive _ _ _ _ _ _ _ _ _ _ _ Hw Oko eq_refl Ehit)
        as (A & B & _).
      split; constructor; try assumption.
      clear - Okrest. induction Okrest; constructor; try assumption.
      eapply obstacleOk_flags; eassumption.
    + open_rest IH. inversion E; subst; clear E.
      destruct (turn_exclusive _ _ _ _ _ _ _ _ _ _ _ Hw Oko eq_refl Ehit)
        as (_ & _ & C).
      destruct (C _ _ _ Escore) as (A & B).
      pose proof (hitObstacle_frame _ _ _ _ _ _ _ _ Ehit) as F1.
      destruct F1 as (W1 & _).
      destruct W1 as (_ & _ & _ & _ & _ & _ & _ & _ & _ & _ & _ & _ & _ & _
        & _ & Px1 & _).
      apply scoreObstacle_frame in Escore.
      destruct Escore as (_ & _ & _ & _ & _ & _ & P2 & _).
      apply IH in Eloop; try assumption; [|congruence].
      destruct Eloop as (L1 & L2). split; constructor; assumption.
Qed.

Lemma moved_ok px vx o : 0 <= vx -> obstacleOk px o -> obstacleOk px (moved vx o).
Proof.
  intros Hv (Hw & Hs). unfold obstacleOk, moved. simpl.
  split; [exact Hw|]. intro Sc. destruct (Hs Sc) as (Hh & Hp).
  split; [exact Hh | lra].
Qed.

Lemma beforeCollisions_difficulty random dt g r :
  difficultySeconds (fst (beforeCollisions random dt g r))
  = difficultySeconds g + dt.
Proof.
  unfold beforeCollisions, advance.
  match goal with
  | |- context [spawnObstacle random dt ?a ?b] =>
      assert (difficultySeconds (fst (spawnObstacle random dt a b))
              = difficultySeconds g + dt) as H3
        by (unfold spawnObstacle, Math_random;
            destruct (geb _ _); [destruct (ltb _ _)|];
            unfold physics; branches; reflexivity);
      destruct (spawnObstacle random dt a b) as [g3 r3]
  end.
  assert (difficultySeconds (fst (spawnHeart random dt g3 r3))
          = difficultySeconds g3) as H4
    by (unfold spawnHeart, Math_random;
        destruct (_ && _); [destruct (ltb _ 0.6); [destruct (ltb _ _)|]|];
        reflexivity).
  destruct (spawnHeart random dt g3 r3) as [g4 r4]. simpl in *. congruence.
Qed.

Lemma beforeCollisions_exclusive random dt g r :
  0 <= dt -> exclusive (g, r) -> exclusive (beforeCollisions random dt g r).
Proof.
  intros Hdt (Hh & Hu & Hd & Hw & Ho).
  pose proof (beforeCollisions_keeps random dt g r) as K. simpl in K.
  destruct K as (_ & _ & _ & _ & Ku & _ & Kx & Kw & _ & Kh & _).
  pose proof (beforeCollisions_difficulty random dt g r) as Kd.
  pose proof (beforeCollisions_spawner random dt g r) as S. simpl in S.
  destruct S as (_ & Slow & Sfail & Spass).
  rewrite (surjective_pairing (beforeCollisions random dt g r)).
  unfold exclusive. rewrite Kh, Ku, Kd, Kw, Kx.
  split; [exact Hh|]. split; [exact Hu|].
  split; [clear - Hd Hdt; lra|]. split; [exact Hw|].
  assert (0 <= (350 + (difficultySeconds g + dt) * 4) * dt) as Hv
    by (clear - Hd Hdt; apply Qmult_le_0_compat; lra).
  assert (forall os, Forall (obstacleOk (Player.x (player g))) os ->
          Forall (obstacleOk (Player.x (player g)))
            (map (moved ((350 + (difficultySeconds g + dt) * 4) * dt)) os))
    as Hmap.
  { intros os F. induction F; constructor; [apply moved_ok|]; assumption. }
  destruct (geb (obsTimer g + dt) (obsInterval g)) eqn:Et.
  - destruct (ltb (lastObstacleX g) (sizeW r - minGapPx g)) eqn:Eg.
    + destruct (Spass eq_refl eq_refl) as (_ & _ & o & _ & Oh & Os & Oo & Ow).
      rewrite Oo. apply Hmap. apply Forall_app. split; [exact Ho|].
      constructor; [|constructor].
      split; [clear - Ow Hu; destruct Ow as [-> | ->]; lra|].
      intro X. congruence.
    + destruct (Sfail eq_refl eq_refl) as (_ & _ & Oo). rewrite Oo.
      apply Hmap. exact Ho.
  - destruct (Slow eq_refl) as (_ & _ & Oo). rewrite Oo. apply Hmap. exact Ho.
Qed.

Lemma sameCells_sizeH r r' : sameCells r r' -> sizeH r' = sizeH r.
Proof. unfold sameCells. intros ->. reflexivity. Qed.

Lemma resolve_exclusive g r : exclusive (g, r) -> exclusive (resolve g r).
Proof.
  intros (Hh & Hu & Hd & Hw & Ho).
  destruct (resolve_frame g r) as (W & C).
  apply sameCells_sizeH in C.
  destruct W as (_ & _ & _ & Wd & Wu & _ & _ & _ & _ & _ & _ & _ & _ & _ & _
    & Wx & _ & Ww & _).
  assert (Forall (obstacleOk (Player.x (player g)))
            (obstacles (fst (resolve g r)))) as F.
  { destruct (resolve_cases g r) as (os & g1 & r1 & ret & E1 & Ht & Hf).
    unfold playerBox in E1.
    apply obstacleLoop_exclusive with (px := Player.x (player g)) in E1;
      try assumption; try reflexivity.
    destruct E1 as (F1 & _). destruct ret.
    - rewrite Ht by reflexivity. exact F1.
    - destruct (Hf eq_refl) as (hs & g2 & r2 & E2 & ->). simpl.
      apply heartLoop_frame in E2. destruct E2 as (_ & _ & O2 & _).
      rewrite O2. simpl. apply Forall_forall. intros o Hin.
      apply filter_In in Hin. destruct Hin as (Hin & _).
      rewrite Forall_forall in F1. apply F1. exact Hin. }
  rewrite (surjective_pairing (resolve g r)). unfold exclusive.
  rewrite C, Wd, Wu, Ww, Wx. repeat split; assumption.
Qed.

Lemma update_exclusive random dt g r :
  0 <= dt -> exclusive (g, r) -> exclusive (update random dt g r).
Proof.
  intros Hdt H. destruct (state g) eqn:St.
  1,3,4: rewrite update_idle by congruence; rewrite St; exact H.
  rewrite update_resolve by exact St.
  apply resolve_exclusive. rewrite <- surjective_pairing.
  apply beforeCollisions_exclusive; assumption.
Qed.

Lemma pixels_nonneg (n : N) : 0 <= inject_Z (Z.of_N n).
Proof. unfold Qle. simpl. lia. Qed.

Lemma units_nonneg (h : Q) : 0 <= h -> 0 <= h / DESIGN_HEIGHT.
Proof.
  intro H. unfold Qdiv. apply Qmult_le_0_compat; [exact H | discriminate].
Qed.

Lemma startGame_exclusive g r : exclusive (g, r) -> exclusive (startGame g r).
Proof.
  intros (Hh & Hu & Hd & Hw & Ho). unfold exclusive, startGame. simpl.
  pose proof (units_nonneg _ Hh).
  repeat split; try assumption; try lra. constructor.
Qed.

Lemma act_exclusive random a s : exclusive s -> exclusive (act random a s).
Proof.
  destruct s as [g r]. intro H.
  assert (forall g', player g' = player g \/
                     (Player.x (player g') = Player.x (player g)
                      /\ Player.w (player g') = Player.w (player g)) ->
          u g' = u g -> difficultySeconds g' = difficultySeconds g ->
          obstacles g' = obstacles g ->
          forall r', sizeH r' = sizeH r -> exclusive (g', r')) as Same.
  { intros g' Hp Eu Ed Eo r' Eh. destruct H as (Hh & Hu & Hd & Hw & Ho).
    unfold exclusive. rewrite Eu, Ed, Eo, Eh.
    destruct Hp as [-> | (-> & ->)]; repeat split; assumption. }
  destruct a as [code| | |w h ctx flies|]; cbn [act].
  - destruct code; simpl; unfold restartFromGameOver, doJump, pauseGame,
      resumeGame; destruct (state g); branches;
      try apply startGame_exclusive; try exact H;
      apply Same; simpl; auto.
  - unfold onPointerDown, restartFromGameOver, doJump.
    destruct (state g); branches;
      try apply startGame_exclusive; try exact H;
      apply Same; simpl; auto.
  - apply startGame_exclusive. exact H.
  - unfold handleResize. destruct ctx; simpl.
    + destruct H as (Hh & Hu & Hd & Hw & Ho).
      pose proof (pixels_nonneg h) as Hp.
      repeat split; try assumption. apply units_nonneg. exact Hp.
      clear - Ho. induction Ho as [|o os Hx Hr IH]; simpl; constructor;
        assumption.
    + destruct H as (Hh & Hu & Hd & Hw & Ho).
      repeat split; try assumption. apply pixels_nonneg.
  - apply update_exclusive; [discriminate | exact H].
Qed.

Lemma init_exclusive w h ctx bw flies now :
  exclusive (init w h ctx bw flies now).
Proof.
  unfold init, exclusive, initGame. cbn -[Qdiv Qmult Qle Math_min].
  pose proof (pixels_nonneg h) as Hp.
  pose proof (units_nonneg _ Hp) as Hu.
  repeat split; try assumption; try lra. constructor.
Qed.

Lemma run_exclusive random acts : forall s,
  exclusive s -> exclusive (run random acts s).
Proof.
  induction acts as [|a acts IH]; intros s H; simpl; [exact H|].
  apply IH. apply act_exclusive. exact H.
Qed.

(** C4.  In every state that the engine reaches from the model of [init],
    no obstacle is both hit and scored.  The same holds for the obstacles
    at the end of the pass over them in the next step, before the cleanup
    removes those that were hit; and in that pass an obstacle that was
    scored stays scored and registers no hit, and an obstacle that leaves
    the pass hit is not scored.  (Exact arithmetic: a scored obstacle is
    behind the left edge of the player, the world only scrolls to the
    left, and the widths are not negative, so the shrunk boxes cannot
    overlap again.) *)
Theorem hit_and_scored_exclude
    (random : nat -> Q) (w h : N) (ctx : bool) (bw : option Q)
    (flies : list Firefly) (now : Q) (acts : list Action) :
  let s := run random acts (init w h ctx bw flies now) in
  let sb := beforeCollisions random step (fst s) (snd s) in
  let os := obstacles (fst sb) in
  let os' :=
    fst (fst (fst (obstacleLoop (playerBox (fst sb)) os (fst sb) (snd sb)))) in
  Forall (fun o => Obstacle.hit o && Obstacle.scored o = false)
    (obstacles (fst s))
  /\ Forall (fun o => Obstacle.hit o && Obstacle.scored o = false) os'
  /\ Forall2 flagsExclude os os'.
Proof.
  intros s sb os os'.
  assert (exclusive s) as Hs by (apply run_exclusive, init_exclusive).
  assert (exclusive sb) as Hb.
  { unfold sb. destruct s as [g r]. simpl.
    apply beforeCollisions_exclusive; [discriminate | exact Hs]. }
  split.
  - destruct s as [g r]. destruct Hs as (_ & _ & _ & _ & Ho). simpl.
    eapply Forall_impl; [|exact Ho]. intros o. apply obstacleOk_nand.
  - unfold os', os. destruct sb as [gb rb]. simpl.
    destruct Hb as (_ & _ & _ & Hw & Ho).
    destruct (obstacleLoop (playerBox gb) (obstacles gb) gb rb)
      as [[[os1 g1] r1] ret] eqn:E.
    unfold playerBox in E.
    apply obstacleLoop_exclusive with (px := Player.x (player gb)) in E;
      try assumption; try reflexivity.
    destruct E as (F1 & F2). simpl. split; [|exact F2].
    eapply Forall_impl; [|exact F1]. intros o. apply obstacleOk_nand.
Qed.

(** ** The frame callback *)

Lemma draws_app (l1 l2 : list Effect) :
  draws (l1 ++ l2) = (draws l1 + draws l2)%nat.
Proof.
  induction l1 as [|e l1 IH]; simpl; [reflexivity|].
  destruct e; simpl; rewrite IH; reflexivity.
Qed.

Lemma obstacleLoop_draws pr os : forall g r os' g' r' ret,
  obstacleLoop pr os g r = (os', g', r', ret) ->
  draws (log r') = draws (log r).
Proof.
  induction os as [|o rest IH]; simpl; intros g r os' g' r' ret E.
  - inversion E; reflexivity.
  - assert (forall o1 g1 r1 ret1,
              hitObstacle pr o g r = (o1, g1, r1, ret1) ->
              draws (log r1) = draws (log r)) as Hhit.
    { unfold hitObstacle. intros o1 g1 r1 ret1.
      destruct (collide pr _ && leb _ 0 && negb (Obstacle.hit o));
        [simpl; destruct (clampZ (hearts g - 1) 0 6 <=? 0)%Z|];
        intro X; inversion X; subst; unfold playSfx, emit; simpl;
        rewrite ?draws_app; simpl; lia. }
    destruct (hitObstacle pr o g r) as [[[o1 g1] r1] [|]] eqn:Ehit.
    + inversion E; subst. eapply Hhit. reflexivity.
    + specialize (Hhit _ _ _ _ eq_refl).
      assert (forall o2 g2 r2, scoreObstacle o1 g1 r1 = (o2, g2, r2) ->
                draws (log r2) = draws (log r1)) as Hsc.
      { unfold scoreObstacle. intros o2 g2 r2.
        destruct (negb (Obstacle.scored o1) && negb (Obstacle.hit o1)
                  && gtb _ _); intro X; inversion X; subst;
          unfold emit; simpl; rewrite ?draws_app; simpl; lia. }
      destruct (scoreObstacle o1 g1 r1) as [[o2 g2] r2] eqn:Escore.
      specialize (Hsc _ _ _ eq_refl).
      destruct (obstacleLoop pr rest g2 r2) as [[[rest3 g3] r3] ret3] eqn:El.
      inversion E; subst. apply IH in El. congruence.
Qed.

Lemma heartLoop_draws pr hs : forall g r hs' g' r',
  heartLoop pr hs g r = (hs', g', r') -> draws (log r') = draws (log r).
Proof.
  induction hs as [|hr rest IH]; simpl; intros g r hs' g' r' E.
  - inversion E; reflexivity.
  - assert (forall hr1 g1 r1, takeHeart pr hr g r = (hr1, g1, r1) ->
              draws (log r1) = draws (log r)) as Ht.
    { unfold takeHeart. intros hr1 g1 r1.
      destruct (HeartPickup.taken hr);
        [|destruct (collide pr _); [destruct (hearts g <? 6)%Z|]];
        intro X; inversion X; subst; unfold playSfx, emit; simpl;
        rewrite ?draws_app; simpl; lia. }
    destruct (takeHeart pr hr g r) as [[hr1 g1] r1] eqn:E1.
    specialize (Ht _ _ _ eq_refl).
    destruct (heartLoop pr rest g1 r1) as [[rest2 g2] r2] eqn:E2.
    inversion E; subst. apply IH in E2. congruence.
Qed.

(** A step draws nothing and leaves the cells of the loop alone. *)
Lemma update_loop_cells random dt g r :
  let r' := snd (update random dt g r) in
  accumRef r' = accumRef r /\ timestampRef r' = timestampRef r
  /\ ctxRef r' = ctxRef r /\ draws (log r') = draws (log r).
Proof.
  destruct (state g) eqn:St.
  1,3,4: rewrite update_idle by congruence; simpl; repeat split.
  rewrite update_resolve by exact St.
  pose proof (beforeCollisions_keeps random dt g r) as K. simpl in K.
  destruct K as (_ & _ & _ & _ & _ & Kl & _ & _ & _ & _ & Ka & Kt & Kc).
  set (gb := fst (beforeCollisions random dt g r)) in *.
  set (rb := snd (beforeCollisions random dt g r)) in *.
  destruct (resolve_frame gb rb) as (_ & C).
  assert (draws (log (snd (resolve gb rb))) = draws (log rb)) as D.
  { destruct (resolve_cases gb rb) as (os & g1 & r1 & ret & E1 & Ht & Hf).
    apply obstacleLoop_draws in E1. destruct ret.
    - rewrite Ht by reflexivity. exact E1.
    - destruct (Hf eq_refl) as (hs & g2 & r2 & E2 & ->).
      apply heartLoop_draws in E2. simpl. congruence. }
  unfold sameCells in C. simpl. rewrite D, Kl, <- Ka, <- Kt, <- Kc.
  rewrite C. repeat split.
Qed.

Lemma step_eq : step == 1 # 60.
Proof. reflexivity. Qed.

Lemma step_pos : 0 < step.
Proof. reflexivity. Qed.

Lemma inject_S (n : nat) :
  inject_Z (Z.of_nat (S n)) == inject_Z (Z.of_nat n) + 1.
Proof.
  rewrite Nat2Z.inj_succ. unfold Z.succ. rewrite inject_Z_plus. reflexivity.
Qed.

(** Every accumulator is below some multiple of the step. *)
Lemma below_some_multiple (acc : Q) :
  exists n, acc < inject_Z (Z.of_nat (S n)) * step.
Proof.
  exists (Z.to_nat (Z.max 0 (Qfloor (acc * 60)))).
  pose proof (Qlt_floor (acc * 60)) as H.
  assert (inject_Z (Qfloor (acc * 60) + 1)
          <= inject_Z (Z.of_nat (S (Z.to_nat (Z.max 0 (Qfloor (acc * 60)))))))
    as H2 by (rewrite <- Zle_Qle; lia).
  rewrite step_eq. lra.
Qed.

Lemma turn_cells random g r :
  let r' := snd (turn random (g, r)) in
  accumRef r' = accumRef r - step /\ timestampRef r' = timestampRef r
  /\ ctxRef r' = ctxRef r /\ draws (log r') = draws (log r).
Proof.
  unfold turn. simpl.
  pose proof (update_loop_cells random step g r) as U. simpl in U.
  destruct (update random step g r) as [g1 r1]. simpl in *.
  destruct U as (Ua & Ut & Uc & Ud). rewrite Ua. repeat split; assumption.
Qed.

(** The loop of [tick] ends: with an accumulator below [n + 1] steps it
    makes some [m <= n] turns, and any fuel above [m] is enough. *)
Lemma drain_turns random n : forall g r,
  accumRef r < inject_Z (Z.of_nat (S n)) * step ->
  exists m,
    (m <= n)%nat
    /\ (forall fuel, (m < fuel)%nat ->
        drain random fuel g r = Some (turns random m (g, r)))
    /\ accumRef (snd (turns random m (g, r))) < step
    /\ accumRef (snd (turns random m (g, r)))
       == accumRef r - inject_Z (Z.of_nat m) * step
    /\ (m = O \/ 0 <= accumRef (snd (turns random m (g, r))))
    /\ draws (log (snd (turns random m (g, r)))) = draws (log r).
Proof.
  induction n as [|n IH]; intros g r Hb.
  - exists O. split; [lia|].
    assert (geb (accumRef r) step = false) as E.
    { apply geb_lt. change (inject_Z (Z.of_nat 1)) with 1 in Hb. lra. }
    split; [|cbn [turns snd]; change (inject_Z (Z.of_nat 0)) with 0;
             split; [apply geb_lt; exact E|];
             split; [lra|]; split; [left|]; reflexivity].
    intros fuel Hf. destruct fuel; [lia|]. simpl. rewrite E. reflexivity.
  - destruct (geb (accumRef r) step) eqn:E.
    + pose proof (turn_cells random g r) as T. simpl in T.
      destruct T as (Ta & _ & _ & Td).
      destruct (turn random (g, r)) as [g1 r1] eqn:Et. simpl in Ta, Td.
      pose proof (inject_S (S n)) as HS.
      apply geb_le in E.
      destruct (IH g1 r1) as (m & Hm & Hd & Hlt & Heq & Hpos & Hdr).
      { rewrite Ta. rewrite HS in Hb. pose proof step_pos. lra. }
      exists (S m). split; [lia|].
      assert (turns random (S m) (g, r) = turns random m (g1, r1)) as Eturns
        by (simpl; rewrite Et; reflexivity).
      rewrite Eturns. split.
      * intros fuel Hf. destruct fuel; [lia|]. simpl.
        assert (geb (accumRef r) step = true) as E' by (apply geb_le; exact E).
        rewrite E'. unfold turn in Et. simpl in Et.
        destruct (update random step g r) as [g2 r2].
        inversion Et; subst. apply Hd. lia.
      * split; [exact Hlt|]. pose proof (inject_S m) as HSm.
        split; [rewrite Heq, Ta, HSm; lra|]. split; [|congruence].
        right. destruct Hpos as [-> | Hp]; [|exact Hp].
        cbn [turns snd]. rewrite Ta. lra.
    + exists O. split; [lia|].
      split; [|cbn [turns snd]; change (inject_Z (Z.of_nat 0)) with 0;
               split; [apply geb_lt; exact E|];
               split; [lra|]; split; [left|]; reflexivity].
      intros fuel Hf. destruct fuel; [lia|]. simpl. rewrite E. reflexivity.
Qed.

(** C8, as stated, fails: while no drawing context could be had, the
    frame callback only asks for the next frame; nothing is accumulated,
    [update] is not called and nothing is drawn. *)
Lemma blind_frame_draws_nothing :
  tick half 10 1 (Some sampleTitle) blindRefs
  = Some (Some sampleTitle, blindRefs)
  /\ draws (log blindRefs) = O.
Proof. split; reflexivity. Qed.

(** C8, amended.  When the game model and the drawing context exist, the
    frame callback adds to the accumulator the time since the last
    callback that ran, cut to at most 0.05 s; it then makes [n] turns of
    the loop, each one [update(step)] with [step = 1/60] followed by the
    subtraction of [step] from the accumulator, and stops with an
    accumulator below [step] (and not negative when a turn was made); it
    then draws once.  So [update] is only called with [dt = 1/60], and
    the frame is drawn exactly once.  The loop ends: any fuel above [n]
    gives this result. *)
Theorem frame_callback
    (random : nat -> Q) (now : Q) (g : Game) (r : Refs) :
  ctxRef r = true ->
  let dt := Math_min (now - timestampRef r) 0.05 in
  let r0 := set_accumRef (accumRef r + dt) (set_timestampRef now r) in
  dt <= 0.05
  /\ exists n,
       let sn := turns random n (g, r0) in
       (forall fuel, (n < fuel)%nat ->
        tick random fuel now (Some g) r
        = Some (Some (fst sn), draw (fst sn) (snd sn)))
       /\ accumRef (snd sn) < step
       /\ accumRef (snd sn)
          == accumRef r + dt - inject_Z (Z.of_nat n) * step
       /\ (n = O \/ 0 <= accumRef (snd sn))
       /\ log (draw (fst sn) (snd sn)) = log (snd sn) ++ [Draw]
       /\ draws (log (draw (fst sn) (snd sn))) = S (draws (log r)).
Proof.
  intros Hc dt r0. split; [apply Math_min_upper|].
  destruct (below_some_multiple (accumRef r0)) as (k & Hk).
  destruct (drain_turns random k g r0 Hk)
    as (n & _ & Hd & Hlt & Heq & Hpos & Hdr).
  exists n. cbv zeta. split; [|split; [exact Hlt|]; split; [exact Heq|];
    split; [exact Hpos|]; split; [reflexivity|]].
  - intros fuel Hf. unfold tick. rewrite Hc. cbv zeta.
    match goal with
    | |- context [drain random fuel g ?x] => change x with r0
    end.
    rewrite (Hd fuel Hf). destruct (turns random n (g, r0)); reflexivity.
  - unfold draw, emit. simpl. rewrite draws_app, Hdr. simpl. lia.
Qed.

(** C8, amended, on the title screen, 0.04 s after the last frame: two
    fixed steps and one draw. *)
Lemma frame_callback_on_the_title_screen :
  ctxRef sampleRefs = true
  /\ Math_min (0.04 - timestampRef sampleRefs) 0.05 <= 0.05
  /\ tick half 5 0.04 (Some sampleTitle) sampleRefs
     = Some
         (Some (fst (turns half 2
                       (sampleTitle,
                        set_accumRef 0.04 (set_timestampRef 0.04 sampleRefs)))),
          draw sampleTitle
            (snd (turns half 2
                    (sampleTitle,
                     set_accumRef 0.04 (set_timestampRef 0.04 sampleRefs))))).
Proof.
  split; [reflexivity|].
  split; [apply (frame_callback half 0.04 sampleTitle sampleRefs); reflexivity|].
  vm_compute. reflexivity.
Defined.

(** * Further properties of the engine *)

(** ** The moves of the state *)

Lemma obstacleLoop_shape pr os : forall g r os' g' r' ret,
  obstacleLoop pr os g r = (os', g', r', ret) ->
  Forall2 sameShape os os'
  /\ Forall2
       (fun o o' =>
          Obstacle.hit o = Obstacle.remove o ->
          Obstacle.hit o' = Obstacle.remove o') os os'
  /\ (ret = false -> state g' = state g).
Proof.
  assert (forall o, sameShape o o) as Same by (intro; repeat split).
  assert (forall l : list Obstacle, Forall2 sameShape l l) as Same2
    by (induction l; constructor; auto).
  assert (forall l : list Obstacle,
            Forall2 (fun o o' => Obstacle.hit o = Obstacle.remove o ->
                                 Obstacle.hit o' = Obstacle.remove o') l l)
    as Flag2 by (induction l; constructor; auto).
  induction os as [|o rest IH]; simpl; intros g r os' g' r' ret E.
  - inversion E; subst. repeat split; constructor.
  - assert (forall o1 g1 r1 ret1,
              hitObstacle pr o g r = (o1, g1, r1, ret1) ->
              sameShape o o1
              /\ (Obstacle.hit o = Obstacle.remove o ->
                  Obstacle.hit o1 = Obstacle.remove o1)
              /\ (ret1 = false -> state g1 = state g)) as Hhit.
    { unfold hitObstacle. intros o1 g1 r1 ret1.
      destruct (collide pr _ && leb _ 0 && negb (Obstacle.hit o));
        [simpl; destruct (clampZ (hearts g - 1) 0 6 <=? 0)%Z|];
        intro X; inversion X; subst; unfold sameShape; simpl;
        repeat split; auto; discriminate. }
    destruct (hitObstacle pr o g r) as [[[o1 g1] r1] [|]] eqn:Ehit.
    + inversion E; subst; clear E.
      destruct (Hhit _ _ _ _ eq_refl) as (A & B & _).
      split; [constructor; auto|]. split; [constructor; auto|]. discriminate.
    + destruct (Hhit _ _ _ _ eq_refl) as (A & B & C).
      assert (forall o2 g2 r2, scoreObstacle o1 g1 r1 = (o2, g2, r2) ->
                sameShape o1 o2 /\ Obstacle.hit o2 = Obstacle.hit o1
                /\ Obstacle.remove o2 = Obstacle.remove o1) as Hsc.
      { unfold scoreObstacle. intros o2 g2 r2.
        destruct (negb (Obstacle.scored o1) && negb (Obstacle.hit o1)
                  && gtb _ _); intro X; inversion X; subst;
          unfold sameShape; simpl; repeat split. }
      pose proof (fun o2 g2 r2 H =>
                    scoreObstacle_frame o1 g1 r1 o2 g2 r2 H) as Hfr.
      destruct (scoreObstacle o1 g1 r1) as [[o2 g2] r2] eqn:Escore.
      destruct (Hsc _ _ _ eq_refl) as (A2 & Bh & Br).
      destruct (Hfr _ _ _ eq_refl) as (_ & _ & _ & _ & _ & S2 & _).
      destruct (obstacleLoop pr rest g2 r2) as [[[rest3 g3] r3] ret3] eqn:El.
      inversion E; subst; clear E. apply IH in El.
      destruct El as (L1 & L2 & L3).
      split; [constructor; [|exact L1]|].
      { unfold sameShape in *. intuition congruence. }
      split; [constructor; [|exact L2]|].
      { intro X. rewrite Bh, Br. apply B. exact X. }
      intro X. rewrite (L3 X), S2. apply C. reflexivity.
Qed.

(** What the collisions do to the state: nothing, or the end of the
    game. *)
Lemma resolve_state g r :
  state (fst (resolve g r)) = state g
  \/ state (fst (resolve g r)) = GAMEOVER.
Proof.
  destruct (resolve_cases g r) as (os & g1 & r1 & ret & E1 & Ht & Hf).
  destruct ret.
  - right. rewrite Ht by reflexivity. simpl.
    eapply obstacleLoop_returned. exact E1.
  - left. destruct (Hf eq_refl) as (hs & g2 & r2 & E2 & ->). simpl.
    apply heartLoop_frame in E2. destruct E2 as (_ & _ & _ & _ & _ & S2 & _).
    apply obstacleLoop_shape in E1. destruct E1 as (_ & _ & S1).
    rewrite S2. simpl. apply S1. reflexivity.
Qed.

Lemma update_state random dt g r :
  state (fst (update random dt g r)) = state g
  \/ (state g = PLAYING /\ state (fst (update random dt g r)) = GAMEOVER).
Proof.
  destruct (state g) eqn:St.
  1,3,4: left; rewrite update_idle by congruence; rewrite St; simpl;
    exact St.
  rewrite update_resolve by exact St.
  pose proof (beforeCollisions_keeps random dt g r) as K. simpl in K.
  destruct K as (K1 & _).
  destruct (resolve_state (fst (beforeCollisions random dt g r))
              (snd (beforeCollisions random dt g r))) as [X|X].
  - left. congruence.
  - right. split; [reflexivity | exact X].
Qed.

(** X1.  Whatever happens to the model, [state] only makes the moves
    TITLE -> PLAYING, PLAYING -> PAUSED, PAUSED -> PLAYING, PLAYING ->
    GAMEOVER and GAMEOVER -> PLAYING (or stays): the title screen is
    never shown again, and the game is only over by a fixed step taken
    while PLAYING. *)
Theorem state_moves_are_legal
    (random : nat -> Q) (a : Action) (g : Game) (r : Refs) :
  let g' := fst (act random a (g, r)) in
  legalMove (state g) (state g') = true
  /\ (state g <> TITLE -> state g' <> TITLE)
  /\ (state g <> GAMEOVER -> state g' = GAMEOVER ->
      a = FixedStep /\ state g = PLAYING).
Proof.
  assert (forall s s', s' = s \/ (s = PLAYING /\ s' = PAUSED)
                       \/ (s = PAUSED /\ s' = PLAYING) \/ s' = PLAYING
                       \/ (s = PLAYING /\ s' = GAMEOVER) ->
          legalMove s s' = true /\ (s <> TITLE -> s' <> TITLE)) as L.
  { intros s s' H. destruct s, s'; simpl; split; try reflexivity;
      try congruence; exfalso;
      destruct H as [H|[[H1 H2]|[[H1 H2]|[H|[H1 H2]]]]]; discriminate. }
  cbv zeta. destruct a as [code| | |w h ctx flies|] eqn:Ea.
  5: { cbn [act]. destruct (update_state random step g r) as [X|(X1 & X2)].
       - rewrite X. destruct (L (state g) (state g)) as (L1 & L2); auto.
         repeat split; auto. congruence.
       - rewrite X2, X1. repeat split; congruence. }
  all: destruct (act_control random a g r) as [S|(_ & _ & Hst)];
    [congruence| |]; subst a.
  all: try (rewrite S; simpl; destruct (state g); repeat split;
            congruence).
  all: match goal with
       | |- legalMove _ ?s' = true /\ _ =>
           destruct (L (state g) s') as (L1 & L2); [tauto|]
       end;
    split; [exact L1|]; split; [exact L2|]; intros N E;
    destruct Hst as [X|[(X1 & X2)|(X1 & X2)]]; congruence.
Qed.

(** ** Pausing *)

Lemma run_frozen random n : forall g r,
  state g = PAUSED -> fst (run random (repeat FixedStep n) (g, r)) = g.
Proof.
  induction n as [|n IH]; intros g r St; simpl; [reflexivity|].
  rewrite update_idle by congruence. rewrite St. simpl.
  apply IH. exact St.
Qed.

(** X2.  A pause loses nothing: pressing P (or Enter) while PLAYING,
    letting any number of fixed steps go by and pressing P (or Enter)
    again gives back the very model that was paused; and [pauseGame] on a
    paused model changes nothing. *)
Theorem pause_is_lossless
    (random : nat -> Q) (n : nat) (g : Game) (r : Refs) :
  state g = PLAYING ->
  fst (run random (KeyDown KeyP :: repeat FixedStep n ++ [KeyDown KeyP])
         (g, r)) = g
  /\ fst (run random (KeyDown Enter :: repeat FixedStep n ++ [KeyDown Enter])
            (g, r)) = g
  /\ pauseGame (fst (pauseGame g r)) (snd (pauseGame g r)) = pauseGame g r.
Proof.
  intro St.
  assert (forall k, k = KeyP \/ k = Enter ->
          fst (run random (KeyDown k :: repeat FixedStep n ++ [KeyDown k])
                 (g, r)) = g) as H.
  { intros k Hk.
    assert (act random (KeyDown k) (g, r)
            = (set_state PAUSED g, emit (SetGameState PAUSED) r)) as E1
      by (destruct Hk as [-> | ->]; simpl; unfold pauseGame; rewrite St;
          reflexivity).
    unfold run. cbn [fold_left]. rewrite E1, fold_left_app.
    fold (run random (repeat FixedStep n)
            (set_state PAUSED g, emit (SetGameState PAUSED) r)).
    pose proof (run_frozen random n (set_state PAUSED g)
                  (emit (SetGameState PAUSED) r) eq_refl) as F.
    destruct (run random (repeat FixedStep n)
                (set_state PAUSED g, emit (SetGameState PAUSED) r))
      as [gn rn]. simpl in F. subst gn. cbn [fold_left].
    destruct Hk as [-> | ->]; simpl; unfold resumeGame; simpl;
      rewrite <- St; destruct g; reflexivity. }
  split; [apply H; left; reflexivity|].
  split; [apply H; right; reflexivity|].
  unfold pauseGame. rewrite St. reflexivity.
Qed.

(** X2 in the sample session, with three steps under the pause. *)
Lemma pause_in_the_sample_session :
  state samplePlay = PLAYING
  /\ fst (run half (KeyDown KeyP :: repeat FixedStep 3 ++ [KeyDown KeyP])
            (samplePlay, sampleRefs)) = samplePlay.
Proof.
  split; [reflexivity|].
  apply (pause_is_lossless half 3 samplePlay sampleRefs). reflexivity.
Defined.

(** ** The field before the collisions *)

Lemma spawnObstacle_field random dt g r :
  let g' := fst (spawnObstacle random dt g r) in
  heartPickups g' = heartPickups g /\ speed g' = speed g
  /\ (obstacles g' = obstacles g
      \/ exists type, obstacles g' = obstacles g ++ [spawned type g r]).
Proof.
  unfold spawnObstacle, Math_random.
  destruct (geb _ _); [destruct (ltb _ _)|]; simpl; repeat split; auto.
  right. eexists. unfold spawned. simpl. reflexivity.
Qed.

Lemma spawnHeart_field random dt g r :
  let g' := fst (spawnHeart random dt g r) in
  heartPickups g' = heartPickups g
  \/ exists hr,
       heartPickups g' = heartPickups g ++ [hr]
       /\ HeartPickup.taken hr = false.
Proof.
  unfold spawnHeart, Math_random.
  destruct (_ && _); [destruct (ltb _ 0.6); [destruct (ltb _ _)|]|];
    simpl; auto.
  right. eexists. split; reflexivity.
Qed.

(** The obstacles and the pickups when the collisions start: the old
    ones and at most one new one of each, all moved by the scroll of the
    step. *)
Lemma beforeCollisions_field random dt g r :
  let gb := fst (beforeCollisions random dt g r) in
  let vx := (350 + (difficultySeconds g + dt) * 4) * dt in
  (obstacles gb = map (moved vx) (obstacles g)
   \/ exists type,
        obstacles gb = map (moved vx) (obstacles g ++ [spawned type g r]))
  /\ (heartPickups gb = map (movedHeart vx) (heartPickups g)
      \/ exists hr,
           heartPickups gb = map (movedHeart vx) (heartPickups g ++ [hr])
           /\ HeartPickup.taken hr = false).
Proof.
  unfold beforeCollisions, advance.
  match goal with
  | |- context [spawnObstacle random dt ?a ?b] =>
      set (gs := a); set (rs := b)
  end.
  assert (obstacles gs = obstacles g /\ heartPickups gs = heartPickups g
          /\ speed gs = 350 + (difficultySeconds g + dt) * 4
          /\ forall type, spawned type gs rs = spawned type g r)
    as (A1 & A2 & A3 & A4).
  { unfold gs, rs, physics, ramp, scroll, spawned.
    branches; repeat split. }
  pose proof (spawnObstacle_field random dt gs rs) as F3.
  destruct (spawnObstacle random dt gs rs) as [g3 r3].
  pose proof (spawnHeart_field random dt g3 r3) as F4.
  pose proof (spawnHeart_spawner random dt g3 r3) as S4.
  destruct (spawnHeart random dt g3 r3) as [g4 r4].
  cbn [fst snd] in *. cbv zeta in *.
  destruct F3 as (P3 & Sp3 & O3).
  destruct S4 as (_ & _ & _ & O4 & Sp4).
  unfold moveWorld.
  cbn [set_obstacles set_heartPickups obstacles heartPickups speed].
  rewrite Sp4, Sp3, A3, O4. split.
  - destruct O3 as [-> | (type & ->)]; rewrite A1; [left; reflexivity|].
    right. exists type. rewrite A4. reflexivity.
  - destruct F4 as [-> | (hr & -> & Ht)]; rewrite P3, A2;
      [left; reflexivity|].
    right. exists hr. split; [reflexivity | exact Ht].
Qed.

(** ** Invariants of the runs *)

(** A property kept by the transitions, the resize and the fixed step is
    kept by every action, and so by every run. *)
Lemma act_invariant (random : nat -> Q) (I : Game * Refs -> Prop) :
  (forall g r, I (g, r) -> I (startGame g r)) ->
  (forall g r, I (g, r) -> I (doJump g r)) ->
  (forall g r, I (g, r) -> I (pauseGame g r)) ->
  (forall g r, I (g, r) -> I (resumeGame g r)) ->
  (forall w h ctx flies g r,
     I (g, r) ->
     I (handleResize (inject_Z (Z.of_N w)) (inject_Z (Z.of_N h)) ctx flies
          g r)) ->
  (forall g r, I (g, r) -> I (update random step g r)) ->
  forall a s, I s -> I (act random a s).
Proof.
  intros Hstart Hjump Hpause Hresume Hresize Hstep a [g r] H.
  destruct a as [code| | |w h ctx flies|]; cbn [act].
  - destruct code; simpl; unfold restartFromGameOver;
      destruct (state g); auto.
  - unfold onPointerDown, restartFromGameOver. destruct (state g); auto.
  - apply Hstart. exact H.
  - apply Hresize. exact H.
  - apply Hstep. exact H.
Qed.

Lemma run_invariant (random : nat -> Q) (I : Game * Refs -> Prop) :
  (forall a s, I s -> I (act random a s)) ->
  forall acts s, I s -> I (run random acts s).
Proof.
  intros Hact acts. induction acts as [|a acts IH]; intros s H; simpl;
    [exact H|].
  apply IH, Hact, H.
Qed.

(** *** Jumps *)

Lemma physics_jumpsOk dt g : jumpsOk g -> jumpsOk (physics dt g).
Proof.
  unfold jumpsOk, physics. intros (Hr & Hg).
  destruct (geb _ _); destruct (Player.onGround (player g)) eqn:Eo; simpl;
    split; try lia; intros; try discriminate; auto.
Qed.

Lemma act_jumpsOk random a s : jumpsOk (fst s) -> jumpsOk (fst (act random a s)).
Proof.
  apply (act_invariant random (fun s => jumpsOk (fst s))).
  - intros g r _. unfold jumpsOk. simpl. split; [lia | reflexivity].
  - intros g r H. cbn [fst] in H. destruct H as (Hr & Hg).
    unfold doJump. destruct (state g); try (split; assumption).
    destruct (0 <? Player.jumpsRemaining (player g))%Z eqn:E;
      [|split; assumption].
    apply Z.ltb_lt in E. unfold jumpsOk. simpl. split; [lia | discriminate].
  - intros g r H. unfold pauseGame. destruct (state g); exact H.
  - intros g r H. unfold resumeGame. destruct (state g); exact H.
  - intros w h ctx flies g r H. unfold handleResize. destruct ctx; exact H.
  - intros g r H. destruct (state g) eqn:St.
    1,3,4: rewrite update_idle by congruence; rewrite St; exact H.
    pose proof (update_body random step g r St) as B.
    pose proof (physics_jumpsOk step g H) as (Pr & Pg).
    destruct B as (_ & _ & _ & _ & _ & Bo & Bj).
    unfold jumpsOk. simpl in *. rewrite Bo, Bj. split; assumption.
Qed.

(** X3.  In every state that the engine reaches from the model of [init],
    [jumpsRemaining] is 0, 1 or 2, and a player standing on the ground has
    both jumps: a double jump, never a third, between two landings. *)
Theorem jumps_between_zero_and_two
    (random : nat -> Q) (w h : N) (ctx : bool) (bw : option Q)
    (flies : list Firefly) (now : Q) (acts : list Action) :
  let p := player (fst (run random acts (init w h ctx bw flies now))) in
  (0 <= Player.jumpsRemaining p <= 2)%Z
  /\ (Player.onGround p = true -> Player.jumpsRemaining p = 2%Z).
Proof.
  apply (run_invariant random (fun s => jumpsOk (fst s))).
  - intros a s. apply act_jumpsOk.
  - unfold jumpsOk. simpl. split; [lia | reflexivity].
Qed.

(** *** The score *)

Lemma scoredNow_nonneg os : forall os', (0 <= scoredNow os os')%Z.
Proof.
  induction os as [|o os IH]; intros [|o' os']; simpl; try lia.
  specialize (IH os').
  destruct (negb (Obstacle.scored o) && Obstacle.scored o'); lia.
Qed.

Lemma update_score random dt g r :
  (score g <= score (fst (update random dt g r)))%Z.
Proof.
  destruct (state g) eqn:St.
  1,3,4: rewrite update_idle by congruence; rewrite St; simpl; lia.
  rewrite update_resolve by exact St.
  pose proof (beforeCollisions_keeps random dt g r) as K. simpl in K.
  destruct K as (_ & K2 & _). rewrite <- K2.
  set (gb := fst (beforeCollisions random dt g r)).
  set (rb := snd (beforeCollisions random dt g r)).
  destruct (resolve_cases gb rb) as (os & g1 & r1 & ret & E1 & Ht & Hf).
  apply obstacleLoop_scoring in E1. destruct E1 as (S1 & _).
  pose proof (scoredNow_nonneg (obstacles gb) os) as N.
  destruct ret.
  - rewrite Ht by reflexivity. simpl. lia.
  - destruct (Hf eq_refl) as (hs & g2 & r2 & E2 & ->). simpl.
    apply heartLoop_frame in E2. simpl in E2.
    destruct E2 as (_ & _ & _ & _ & S2 & _). lia.
Qed.

(** X4.  The score is never negative in a state that the engine reaches
    from the model of [init], and no action lowers it, but the start of a
    session, which sets it to 0. *)
Theorem score_never_decreases
    (random : nat -> Q) (w h : N) (ctx : bool) (bw : option Q)
    (flies : list Firefly) (now : Q) (acts : list Action) (a : Action) :
  let s := run random acts (init w h ctx bw flies now) in
  let s' := act random a s in
  (0 <= score (fst s))%Z
  /\ ((score (fst s) <= score (fst s'))%Z
      \/ (s' = startGame (fst s) (snd s) /\ score (fst s') = 0%Z)).
Proof.
  assert (forall a s,
            (score (fst s) <= score (fst (act random a s)))%Z
            \/ (act random a s = startGame (fst s) (snd s)
                /\ score (fst (act random a s)) = 0%Z)) as Step.
  { intros a0 [g r]. destruct a0 as [code| | |w' h' ctx' flies'|] eqn:Ea.
    5: left; apply update_score.
    all: destruct (act_control random a0 g r) as [S|(_ & Hsc & _)];
      [congruence| |]; subst a0.
    all: try (right; split; [exact S | rewrite S; reflexivity]).
    all: left; rewrite Hsc; simpl; lia. }
  cbv zeta. split; [|apply Step].
  apply (run_invariant random (fun s => (0 <= score (fst s))%Z)).
  - intros a0 s H. destruct (Step a0 s) as [X|(_ & X)]; lia.
  - simpl. lia.
Qed.

(** *** The field after a step *)

(** The obstacles after the collisions come from the pass over the
    obstacles; when the game goes on, the cleanup has kept them, and the
    pickups. *)
Lemma resolve_field g r :
  exists os',
    Forall2 sameShape (obstacles g) os'
    /\ Forall2
         (fun o o' =>
            Obstacle.hit o = Obstacle.remove o ->
            Obstacle.hit o' = Obstacle.remove o') (obstacles g) os'
    /\ (forall o, In o (obstacles (fst (resolve g r))) -> In o os')
    /\ (state (fst (resolve g r)) <> GAMEOVER ->
        Forall (fun o => keepObstacle o = true) (obstacles (fst (resolve g r)))
        /\ Forall (fun hr => keepHeart hr = true)
             (heartPickups (fst (resolve g r)))).
Proof.
  destruct (resolve_cases g r) as (os & g1 & r1 & ret & E1 & Ht & Hf).
  pose proof (obstacleLoop_shape _ _ _ _ _ _ _ _ E1) as (S1 & F1 & _).
  exists os. split; [exact S1|]. split; [exact F1|]. destruct ret.
  - apply obstacleLoop_returned in E1.
    rewrite Ht by reflexivity. simpl. split; [auto|]. intro N. congruence.
  - destruct (Hf eq_refl) as (hs & g2 & r2 & E2 & ->). simpl.
    apply heartLoop_frame in E2. destruct E2 as (_ & _ & O2 & _).
    rewrite O2. simpl. split.
    + intros o Hin. apply filter_In in Hin. tauto.
    + intros _. split; apply Forall_forall; intros x Hin;
        apply filter_In in Hin; tauto.
Qed.

Lemma Forall2_shape_Forall (P : Obstacle -> Prop) os os' :
  (forall o o', sameShape o o' -> P o -> P o') ->
  Forall2 sameShape os os' -> Forall P os -> Forall P os'.
Proof.
  intros HP F2. induction F2; intro F; inversion F; subst; constructor;
    eauto.
Qed.

Lemma beforeCollisions_groundY random dt g r :
  groundY (fst (beforeCollisions random dt g r)) = groundY g.
Proof.
  unfold beforeCollisions.
  match goal with
  | |- groundY (fst (advance random dt ?a ?b)) = _ =>
      pose proof (advance_keeps random dt a b) as K
  end.
  unfold keeps in K.
  destruct K as (_ & _ & _ & _ & _ & _ & _ & Kg & _).
  rewrite Kg. reflexivity.
Qed.

(** What a step taken while PLAYING does to the field. *)
Lemma update_field random dt g r :
  state g = PLAYING ->
  let g' := fst (update random dt g r) in
  let vx := (350 + (difficultySeconds g + dt) * 4) * dt in
  groundY g' = groundY g
  /\ (forall o', In o' (obstacles g') ->
      exists o,
        (In o (obstacles g) \/ exists type, o = spawned type g r)
        /\ sameShape (moved vx o) o'
        /\ (Obstacle.hit o = Obstacle.remove o ->
            Obstacle.hit o' = Obstacle.remove o'))
  /\ (state g' <> GAMEOVER ->
      Forall (fun o => keepObstacle o = true) (obstacles g')
      /\ Forall (fun hr => keepHeart hr = true) (heartPickups g')).
Proof.
  intros St. cbv zeta. rewrite update_resolve by exact St.
  pose proof (beforeCollisions_groundY random dt g r) as Kg.
  pose proof (beforeCollisions_field random dt g r) as (Fo & _).
  set (gb := fst (beforeCollisions random dt g r)) in *.
  set (rb := snd (beforeCollisions random dt g r)) in *.
  destruct (resolve_frame gb rb) as (W & _).
  destruct W as (_ & _ & _ & _ & _ & _ & _ & _ & Wg & _).
  destruct (resolve_field gb rb) as (os' & S & F & Hin & Hkeep).
  split; [rewrite Wg; exact Kg|]. split; [|exact Hkeep].
  intros o' Ho'. apply Hin in Ho'.
  assert (forall l, Forall2 sameShape l os' ->
            Forall2 (fun o o' => Obstacle.hit o = Obstacle.remove o ->
                                 Obstacle.hit o' = Obstacle.remove o') l os' ->
            exists ob, In ob l /\ sameShape ob o'
                       /\ (Obstacle.hit ob = Obstacle.remove ob ->
                           Obstacle.hit o' = Obstacle.remove o')) as Find.
  { clear - Ho'. induction os' as [|x os' IH]; [destruct Ho'|].
    intros l S F. inversion S; subst. inversion F; subst.
    destruct Ho' as [-> | Hin].
    - eexists. split; [left; reflexivity|]. split; assumption.
    - destruct (IH Hin _ H3 H6) as (ob & I1 & I2).
      exists ob. split; [right; exact I1 | exact I2]. }
  destruct (Find _ S F) as (ob & Iob & Sob & Fob).
  assert (exists o,
            (In o (obstacles g) \/ exists type, o = spawned type g r)
            /\ ob = moved ((350 + (difficultySeconds g + dt) * 4) * dt) o)
    as (o & Io & ->).
  { destruct Fo as [E | (type & E)]; rewrite E in Iob;
      apply in_map_iff in Iob; destruct Iob as (o & <- & Io);
      exists o; split; try reflexivity; [left; exact Io|].
    apply in_app_iff in Io. destruct Io as [Io | [<- | []]];
      [left; exact Io | right; exists type; reflexivity]. }
  exists o. split; [exact Io|]. split; [exact Sob|]. exact Fob.
Qed.

Lemma spawned_grounded type g r :
  Obstacle.y (spawned type g r) = groundY g - Obstacle.h (spawned type g r).
Proof. destruct type; reflexivity. Qed.

Lemma handleResize_grounded w h ctx flies g r :
  grounded g -> grounded (fst (handleResize w h ctx flies g r)).
Proof.
  intro H. unfold handleResize. destruct ctx; [|exact H].
  unfold grounded. cbn [fst obstacles set_obstacles groundY negb].
  apply Forall_forall. intros o Hin. apply in_map_iff in Hin.
  destruct Hin as (o0 & <- & _). reflexivity.
Qed.

Lemma update_grounded random dt g r :
  grounded g -> grounded (fst (update random dt g r)).
Proof.
  intro H. destruct (state g) eqn:St.
  1,3,4: rewrite update_idle by congruence;
    destruct (GameState_eqb (state g) PAUSED); exact H.
  destruct (update_field random dt g r St) as (Hg & Ho & _).
  unfold grounded in *. rewrite Hg. apply Forall_forall. intros o' Hin.
  destruct (Ho o' Hin) as (o & Io & (_ & _ & Sy & _ & Sh) & _).
  rewrite Sy, Sh. unfold moved.
  cbn [Obstacle.y Obstacle.h Obstacle.set_x].
  destruct Io as [Io | (type & ->)].
  - rewrite Forall_forall in H. apply H. exact Io.
  - apply spawned_grounded.
Qed.

Lemma startGame_field g r :
  obstacles (fst (startGame g r)) = []
  /\ heartPickups (fst (startGame g r)) = [].
Proof. unfold startGame. simpl. split; reflexivity. Qed.

Lemma act_grounded random a s : grounded (fst s) -> grounded (fst (act random a s)).
Proof.
  apply (act_invariant random (fun s => grounded (fst s))).
  - intros g r _. unfold grounded.
    rewrite (proj1 (startGame_field g r)). constructor.
  - intros g r H. unfold doJump. destruct (state g); try exact H.
    destruct (0 <? _)%Z; exact H.
  - intros g r H. unfold pauseGame. destruct (state g); exact H.
  - intros g r H. unfold resumeGame. destruct (state g); exact H.
  - intros w h ctx flies g r H. apply handleResize_grounded. exact H.
  - intros g r H. apply update_grounded. exact H.
Qed.

(** X5.  In every state that the engine reaches from the model of [init],
    through resizes too, every obstacle stands on the ground line: its
    [y] is [groundY - h]. *)
Theorem obstacles_stand_on_the_ground
    (random : nat -> Q) (w h : N) (ctx : bool) (bw : option Q)
    (flies : list Firefly) (now : Q) (acts : list Action) :
  let g := fst (run random acts (init w h ctx bw flies now)) in
  Forall (fun o => Obstacle.y o = groundY g - Obstacle.h o) (obstacles g).
Proof.
  apply (run_invariant random (fun s => grounded (fst s))).
  - intros a s. apply act_grounded.
  - constructor.
Qed.





(** ** The player and the ground *)

(** X7.  After a step taken while PLAYING the player is never below the
    ground line: it is flagged on the ground exactly when its box stands
    on the line, with no vertical velocity, and is above the line
    otherwise; its [x] and its size do not change. *)
Theorem player_never_sinks
    (random : nat -> Q) (dt : Q) (g : Game) (r : Refs) :
  state g = PLAYING ->
  let p := player g in
  let p' := player (fst (update random dt g r)) in
  let groundTop := groundY g - Player.h p in
  (Player.onGround p' = true ->
   Player.y p' = groundTop /\ Player.vy p' = 0)
  /\ (Player.onGround p' = false ->
      Player.y p' < groundTop
      /\ Player.y p' = Player.y p + (Player.vy p + G g * dt) * dt
      /\ Player.vy p' = Player.vy p + G g * dt)
  /\ Player.y p' <= groundTop
  /\ Player.x p' = Player.x p /\ Player.w p' = Player.w p
  /\ Player.h p' = Player.h p.
Proof.
  intros St p p' groundTop.
  pose proof (update_body random dt g r St) as B. fold p' in B.
  destruct B as (Bx & By & Bw & Bh & Bv & Bo & _).
  rewrite Bx, By, Bw, Bh, Bv, Bo. unfold physics. fold p. fold groundTop.
  destruct (geb (Player.y p + (Player.vy p + G g * dt) * dt) groundTop)
    eqn:E.
  - destruct (Player.onGround p) eqn:Eo;
      cbn [negb Player.set_hitCooldown player set_player Player.x Player.y
           Player.w Player.h Player.vy Player.onGround];
      repeat split; intros; try reflexivity; try apply Qle_refl;
      congruence.
  - apply geb_lt in E.
    cbn [Player.set_hitCooldown player set_player Player.x Player.y
         Player.w Player.h Player.vy Player.onGround].
    repeat split; intros; try reflexivity; try discriminate; try exact E.
    apply Qlt_le_weak. exact E.
Qed.

(** X7 at the first step of the sample session. *)
Lemma player_stands_in_the_sample_session :
  state samplePlay = PLAYING
  /\ Player.y (player (fst (update half step samplePlay sampleRefs)))
     <= groundY samplePlay - Player.h (player samplePlay).
Proof.
  split; [reflexivity|].
  apply (player_never_sinks half step samplePlay sampleRefs). reflexivity.
Defined.

(** ** The page and the model *)

Lemma mirrors_emit e g r g' :
  mirrors (g, r) ->
  hearts g' = match e with
              | OnHeartsChange n | SetHeartsUI n => n
              | _ => hearts g
              end ->
  score g' = match e with OnScore n | SetScore n => n | _ => score g end ->
  state g' = match e with
             | SetGameState s => s
             | OnGameOver _ => GAMEOVER
             | _ => state g
             end ->
  mirrors (g', emit e r).
Proof.
  unfold mirrors, heartsUI, scoreUI, gameStateUI, emit. simpl.
  intros (H1 & H2 & H3) E1 E2 E3. rewrite !fold_left_app. simpl.
  rewrite H1, H2, H3, E1, E2, E3. repeat split.
Qed.

Lemma mirrors_same g r g' r' :
  mirrors (g, r) -> log r' = log r -> hearts g' = hearts g ->
  score g' = score g -> state g' = state g -> mirrors (g', r').
Proof.
  unfold mirrors. simpl. intros (H1 & H2 & H3) -> -> -> ->.
  repeat split; assumption.
Qed.

Lemma obstacleLoop_mirrors pr os : forall g r os' g' r' ret,
  mirrors (g, r) ->
  obstacleLoop pr os g r = (os', g', r', ret) -> mirrors (g', r').
Proof.
  induction os as [|o rest IH]; simpl; intros g r os' g' r' ret M E.
  - inversion E; subst. exact M.
  - assert (forall o1 g1 r1 ret1,
              hitObstacle pr o g r = (o1, g1, r1, ret1) -> mirrors (g1, r1))
      as Hhit.
    { unfold hitObstacle. intros o1 g1 r1 ret1.
      destruct (collide pr _ && leb _ 0 && negb (Obstacle.hit o));
        [|intro X; inversion X; subst; exact M].
      cbn [hearts set_hearts set_player score].
      destruct (clampZ (hearts g - 1) 0 6 <=? 0)%Z;
        intro X; inversion X; subst; clear X; unfold playSfx.
      - apply mirrors_emit
          with (g := set_hearts (clampZ (hearts g - 1) 0 6) g);
          try reflexivity.
        apply mirrors_emit
          with (g := set_hearts (clampZ (hearts g - 1) 0 6) g);
          try reflexivity.
        apply mirrors_emit with (g := g); try reflexivity. exact M.
      - apply mirrors_emit
          with (g := set_hearts (clampZ (hearts g - 1) 0 6) g);
          try reflexivity.
        apply mirrors_emit with (g := g); try reflexivity. exact M. }
    destruct (hitObstacle pr o g r) as [[[o1 g1] r1] [|]] eqn:Ehit.
    + inversion E; subst. eapply Hhit. reflexivity.
    + specialize (Hhit _ _ _ _ eq_refl).
      assert (forall o2 g2 r2, scoreObstacle o1 g1 r1 = (o2, g2, r2) ->
                mirrors (g2, r2)) as Hsc.
      { unfold scoreObstacle. intros o2 g2 r2.
        destruct (negb (Obstacle.scored o1) && negb (Obstacle.hit o1)
                  && gtb _ _); intro X; inversion X; subst;
          [|exact Hhit].
        apply mirrors_emit with (g := g1); try reflexivity. exact Hhit. }
      destruct (scoreObstacle o1 g1 r1) as [[o2 g2] r2] eqn:Escore.
      specialize (Hsc _ _ _ eq_refl).
      destruct (obstacleLoop pr rest g2 r2) as [[[rest3 g3] r3] ret3] eqn:El.
      inversion E; subst. eapply IH; eassumption.
Qed.

Lemma heartLoop_mirrors pr hs : forall g r hs' g' r',
  mirrors (g, r) -> heartLoop pr hs g r = (hs', g', r') -> mirrors (g', r').
Proof.
  induction hs as [|hr rest IH]; simpl; intros g r hs' g' r' M E.
  - inversion E; subst. exact M.
  - assert (forall hr1 g1 r1, takeHeart pr hr g r = (hr1, g1, r1) ->
              mirrors (g1, r1)) as Ht.
    { unfold takeHeart. intros hr1 g1 r1.
      destruct (HeartPickup.taken hr);
        [|destruct (collide pr _); [destruct (hearts g <? 6)%Z|]];
        intro X; inversion X; subst; try exact M.
      unfold playSfx.
      apply mirrors_emit with (g := set_hearts (hearts g + 1) g);
        try reflexivity.
      apply mirrors_emit with (g := g); try reflexivity. exact M. }
    destruct (takeHeart pr hr g r) as [[hr1 g1] r1] eqn:E1.
    specialize (Ht _ _ _ eq_refl).
    destruct (heartLoop pr rest g1 r1) as [[rest2 g2] r2] eqn:E2.
    inversion E; subst. eapply IH; eassumption.
Qed.

Lemma update_mirrors random dt g r :
  mirrors (g, r) -> mirrors (update random dt g r).
Proof.
  intro M. destruct (state g) eqn:St.
  1,3,4: rewrite update_idle by congruence; rewrite St;
    apply (mirrors_same g r); try reflexivity; exact M.
  rewrite update_resolve by exact St.
  pose proof (beforeCollisions_keeps random dt g r) as K. simpl in K.
  destruct K as (K1 & K2 & K3 & _ & _ & K6 & _).
  set (gb := fst (beforeCollisions random dt g r)) in *.
  set (rb := snd (beforeCollisions random dt g r)) in *.
  assert (mirrors (gb, rb)) as Mb
    by (apply (mirrors_same g r); assumption).
  destruct (resolve_cases gb rb) as (os & g1 & r1 & ret & E1 & Ht & Hf).
  apply obstacleLoop_mirrors in E1; [|exact Mb].
  destruct ret.
  - rewrite Ht by reflexivity.
    apply (mirrors_same g1 r1); try reflexivity. exact E1.
  - destruct (Hf eq_refl) as (hs & g2 & r2 & E2 & ->).
    apply heartLoop_mirrors in E2;
      [|apply (mirrors_same g1 r1); try reflexivity; exact E1].
    apply (mirrors_same g2 r2); try reflexivity. exact E2.
Qed.

Lemma act_mirrors random a s : mirrors s -> mirrors (act random a s).
Proof.
  apply (act_invariant random mirrors).
  - intros g r M. unfold startGame.
    apply mirrors_emit with (g := set_score 0 (set_hearts 3 g));
      try reflexivity.
    apply mirrors_emit with (g := set_score 0 g); try reflexivity.
    apply mirrors_emit with (g := g); try reflexivity. exact M.
  - intros g r M. unfold doJump. destruct (state g); try exact M.
    destruct (0 <? _)%Z; [|exact M]. unfold playSfx.
    apply mirrors_emit with (g := g); try reflexivity. exact M.
  - intros g r M. unfold pauseGame. destruct (state g); try exact M.
    apply mirrors_emit with (g := g); try reflexivity. exact M.
  - intros g r M. unfold resumeGame. destruct (state g); try exact M.
    apply mirrors_emit with (g := g); try reflexivity. exact M.
  - intros w h ctx flies g r M. unfold handleResize.
    destruct ctx; apply (mirrors_same g r); try reflexivity; exact M.
  - intros g r M. apply update_mirrors. exact M.
Qed.

(** X8.  In every state that the engine reaches from the model of [init],
    the page shows the model: the hearts, the score and the game state
    that the calls made so far have set in the page are the [hearts], the
    [score] and the [state] of the model. *)
Theorem page_shows_the_model
    (random : nat -> Q) (w h : N) (ctx : bool) (bw : option Q)
    (flies : list Firefly) (now : Q) (acts : list Action) :
  let s := run random acts (init w h ctx bw flies now) in
  heartsUI (log (snd s)) = hearts (fst s)
  /\ scoreUI (log (snd s)) = score (fst s)
  /\ gameStateUI (log (snd s)) = state (fst s).
Proof.
  apply (run_invariant random mirrors).
  - intros a s. apply act_mirrors.
  - repeat split.
Qed.

(** ** Telling the end of the game *)

Lemma gameOvers_app (l1 l2 : list Effect) :
  gameOvers (l1 ++ l2) = (gameOvers l1 + gameOvers l2)%nat.
Proof.
  induction l1 as [|e l1 IH]; simpl; [reflexivity|].
  destruct e; simpl; rewrite IH; reflexivity.
Qed.

Lemma obstacleLoop_gameOvers pr os : forall g r os' g' r' ret,
  obstacleLoop pr os g r = (os', g', r', ret) ->
  if ret
  then gameOvers (log r') = S (gameOvers (log r))
       /\ exists l, log r' = l ++ [OnGameOver (score g')]
  else gameOvers (log r') = gameOvers (log r).
Proof.
  induction os as [|o rest IH]; simpl; intros g r os' g' r' ret E.
  - inversion E; reflexivity.
  - assert (forall o1 g1 r1 ret1,
              hitObstacle pr o g r = (o1, g1, r1, ret1) ->
              if ret1
              then gameOvers (log r1) = S (gameOvers (log r))
                   /\ exists l, log r1 = l ++ [OnGameOver (score g1)]
              else gameOvers (log r1) = gameOvers (log r)) as Hhit.
    { unfold hitObstacle. intros o1 g1 r1 ret1.
      destruct (collide pr _ && leb _ 0 && negb (Obstacle.hit o));
        [|intro X; inversion X; subst; reflexivity].
      cbn [hearts set_hearts set_player score].
      destruct (clampZ (hearts g - 1) 0 6 <=? 0)%Z;
        intro X; inversion X; subst; clear X; unfold playSfx, emit; simpl;
        rewrite ?gameOvers_app; simpl.
      - split; [lia|]. eexists. reflexivity.
      - lia. }
    destruct (hitObstacle pr o g r) as [[[o1 g1] r1] [|]] eqn:Ehit.
    + inversion E; subst. apply (Hhit _ _ _ _ eq_refl).
    + specialize (Hhit _ _ _ _ eq_refl). simpl in Hhit.
      assert (forall o2 g2 r2, scoreObstacle o1 g1 r1 = (o2, g2, r2) ->
                gameOvers (log r2) = gameOvers (log r1)) as Hsc.
      { unfold scoreObstacle. intros o2 g2 r2.
        destruct (negb (Obstacle.scored o1) && negb (Obstacle.hit o1)
                  && gtb _ _); intro X; inversion X; subst;
          unfold emit; simpl; rewrite ?gameOvers_app; simpl; lia. }
      destruct (scoreObstacle o1 g1 r1) as [[o2 g2] r2] eqn:Escore.
      specialize (Hsc _ _ _ eq_refl).
      destruct (obstacleLoop pr rest g2 r2) as [[[rest3 g3] r3] ret3] eqn:El.
      inversion E; subst. apply IH in El.
      destruct ret; [destruct El as (El & Ex); split; [lia | exact Ex] | lia].
Qed.

Lemma heartLoop_gameOvers pr hs : forall g r hs' g' r',
  heartLoop pr hs g r = (hs', g', r') ->
  gameOvers (log r') = gameOvers (log r).
Proof.
  induction hs as [|hr rest IH]; simpl; intros g r hs' g' r' E.
  - inversion E; reflexivity.
  - assert (forall hr1 g1 r1, takeHeart pr hr g r = (hr1, g1, r1) ->
              gameOvers (log r1) = gameOvers (log r)) as Ht.
    { unfold takeHeart. intros hr1 g1 r1.
      destruct (HeartPickup.taken hr);
        [|destruct (collide pr _); [destruct (hearts g <? 6)%Z|]];
        intro X; inversion X; subst; unfold playSfx, emit; simpl;
        rewrite ?gameOvers_app; simpl; lia. }
    destruct (takeHeart pr hr g r) as [[hr1 g1] r1] eqn:E1.
    specialize (Ht _ _ _ eq_refl).
    destruct (heartLoop pr rest g1 r1) as [[rest2 g2] r2] eqn:E2.
    inversion E; subst. apply IH in E2. congruence.
Qed.

(** X9.  The end of the game is told once, by the step that ends it: a
    fixed step that takes the model from PLAYING to GAMEOVER calls
    [onGameOver] exactly once, as its last call, with the score of the
    model; a fixed step that leaves the state as it is does not call it. *)
Theorem game_over_is_told_once
    (random : nat -> Q) (dt : Q) (g : Game) (r : Refs) :
  let g' := fst (update random dt g r) in
  let r' := snd (update random dt g r) in
  (state g = PLAYING -> state g' = GAMEOVER ->
   gameOvers (log r') = S (gameOvers (log r))
   /\ exists l, log r' = l ++ [OnGameOver (score g')])
  /\ (state g' = state g -> gameOvers (log r') = gameOvers (log r)).
Proof.
  cbv zeta. destruct (state g) eqn:St.
  1,3,4: rewrite update_idle by congruence; rewrite St; simpl;
    split; [discriminate | reflexivity].
  rewrite update_resolve by exact St.
  pose proof (beforeCollisions_keeps random dt g r) as K. simpl in K.
  destruct K as (K1 & _ & _ & _ & _ & K6 & _).
  set (gb := fst (beforeCollisions random dt g r)) in *.
  set (rb := snd (beforeCollisions random dt g r)) in *.
  destruct (resolve_cases gb rb) as (os & g1 & r1 & ret & E1 & Ht & Hf).
  pose proof (obstacleLoop_gameOvers _ _ _ _ _ _ _ _ E1) as Go.
  destruct ret.
  - apply obstacleLoop_returned in E1.
    rewrite Ht by reflexivity. simpl. rewrite <- K6.
    split; [intros _ _; exact Go|]. intro X. congruence.
  - destruct (Hf eq_refl) as (hs & g2 & r2 & E2 & ->). simpl.
    pose proof (heartLoop_gameOvers _ _ _ _ _ _ _ E2) as Gh.
    apply heartLoop_frame in E2. destruct E2 as (_ & _ & _ & _ & _ & S2 & _).
    apply obstacleLoop_shape in E1. destruct E1 as (_ & _ & S1).
    simpl in S2. rewrite (S1 eq_refl), K1, St in S2.
    split; [intros _ X; congruence|]. intros _. congruence.
Qed.

(** ** The frames *)

Lemma turns_cells random n : forall g r,
  timestampRef (snd (turns random n (g, r))) = timestampRef r
  /\ ctxRef (snd (turns random n (g, r))) = ctxRef r.
Proof.
  induction n as [|n IH]; intros g r; simpl; [split; reflexivity|].
  pose proof (turn_cells random g r) as T. simpl in T.
  destruct T as (_ & Tt & Tc & _).
  destruct (turn random (g, r)) as [g1 r1]. simpl in *.
  destruct (IH g1 r1) as (I1 & I2). split; congruence.
Qed.

(** X10.  A frame never runs away: when the accumulator is at most one
    step before the frame callback (after [init] it is 0, and every frame
    leaves it below one step), the callback makes at most 4 fixed steps,
    whatever time has gone by, and leaves the accumulator below one step;
    it is not negative if it was not and the clock did not go back.  The
    time of the frame is recorded. *)
Theorem at_most_four_steps_per_frame
    (random : nat -> Q) (now : Q) (g : Game) (r : Refs) :
  ctxRef r = true ->
  accumRef r <= step ->
  exists n,
    (n <= 4)%nat
    /\ let sn :=
         turns random n
           (g,
            set_accumRef
              (accumRef r + Math_min (now - timestampRef r) 0.05)
              (set_timestampRef now r)) in
       let r' := draw (fst sn) (snd sn) in
       tick random 5 now (Some g) r = Some (Some (fst sn), r')
       /\ accumRef r' < step
       /\ (0 <= accumRef r -> timestampRef r <= now -> 0 <= accumRef r')
       /\ timestampRef r' = now /\ ctxRef r' = true.
Proof.
  intros Hc Ha.
  set (dt := Math_min (now - timestampRef r) 0.05).
  set (r0 := set_accumRef (accumRef r + dt) (set_timestampRef now r)).
  assert (dt <= 0.05) as Hdt by apply Math_min_upper.
  assert (accumRef r0 < inject_Z (Z.of_nat 5) * step) as Hb.
  { change (accumRef r0) with (accumRef r + dt).
    change (inject_Z (Z.of_nat 5)) with 5.
    pose proof step_eq as Es. clear - Ha Hdt Es. rewrite Es in *. lra. }
  destruct (drain_turns random 4 g r0 Hb)
    as (n & Hn & Hd & Hlt & Heq & Hpos & _).
  destruct (turns_cells random n g r0) as (Tt & Tc).
  exists n. split; [exact Hn|]. cbv zeta.
  split; [|split; [exact Hlt|]; split; [|split; [exact Tt|]]].
  - unfold tick. rewrite Hc. cbv zeta.
    match goal with
    | |- context [drain random 5 g ?x] => change x with r0
    end.
    rewrite (Hd 5%nat ltac:(lia)).
    destruct (turns random n (g, r0)); reflexivity.
  - intros H0 Ht. change (accumRef (draw (fst (turns random n (g, r0)))
                                      (snd (turns random n (g, r0)))))
      with (accumRef (snd (turns random n (g, r0)))).
    destruct Hpos as [-> | Hp]; [|exact Hp].
    cbn [turns snd]. change (accumRef r0) with (accumRef r + dt).
    assert (0 <= dt) as Hd0.
    { unfold dt, Math_min. destruct (Qle_bool _ 0.05); [lra | discriminate]. }
    lra.
  - change (ctxRef (draw (fst (turns random n (g, r0)))
                      (snd (turns random n (g, r0)))))
      with (ctxRef (snd (turns random n (g, r0)))).
    rewrite Tc. exact Hc.
Qed.

(** X10 on the title screen of the sample model, with a full step left in
    the accumulator, after a stall of ten seconds: four steps are made. *)
Lemma stalled_frame_on_the_title_screen :
  ctxRef (set_accumRef step sampleRefs) = true
  /\ accumRef (set_accumRef step sampleRefs) <= step
  /\ (exists n,
        (n <= 4)%nat
        /\ tick half 5 10 (Some sampleTitle) (set_accumRef step sampleRefs)
           = Some
               (Some (fst (turns half n
                             (sampleTitle,
                              set_accumRef
                                (step
                                 + Math_min (10 - timestampRef sampleRefs)
                                     0.05)
                                (set_timestampRef 10 sampleRefs)))),
                draw sampleTitle
                  (snd (turns half n
                          (sampleTitle,
                           set_accumRef
                             (step
                              + Math_min (10 - timestampRef sampleRefs) 0.05)
                             (set_timestampRef 10 sampleRefs))))))
  /\ tick half 5 10 (Some sampleTitle) (set_accumRef step sampleRefs)
     = Some
         (Some (fst (turns half 4
                       (sampleTitle,
                        set_accumRef
                          (step + Math_min (10 - timestampRef sampleRefs) 0.05)
                          (set_timestampRef 10 sampleRefs)))),
          draw sampleTitle
            (snd (turns half 4
                    (sampleTitle,
                     set_accumRef
                       (step + Math_min (10 - timestampRef sampleRefs) 0.05)
                       (set_timestampRef 10 sampleRefs))))).
Proof.
  assert (accumRef (set_accumRef step sampleRefs) <= step) as Ha
    by (cbn; discriminate).
  split; [reflexivity|]. split; [exact Ha|]. split; [|vm_compute; reflexivity].
  destruct (at_most_four_steps_per_frame half 10 sampleTitle
              (set_accumRef step sampleRefs) eq_refl Ha) as (n & Hn & Ht & _).
  exists n. split; [exact Hn | exact Ht].
Defined.

(** ** The heart spawner *)

(** The candidate [x] after the shifts: free of every lane zone, or
    shifted by all the trials. *)
Lemma shiftHeart_free_or_spent trials os hw u : forall x,
  existsb (blocksHeart hw u (shiftHeart trials os hw u x)) os = false
  \/ shiftHeart trials os hw u x
     == x + inject_Z (Z.of_nat trials) * (220 * u).
Proof.
  induction trials as [|n IH]; intro x.
  - right. cbn [shiftHeart]. change (inject_Z (Z.of_nat 0)) with 0. lra.
  - cbn [shiftHeart]. destruct (existsb (blocksHeart hw u x) os) eqn:E.
    + destruct (IH (x + 220 * u)) as [F | S]; [left; exact F|].
      right. rewrite S. pose proof (inject_S n) as HS. rewrite HS. lra.
    + left. exact E.
Qed.

Lemma shiftHeart_ge trials os hw u : forall x,
  0 <= u -> x <= shiftHeart trials os hw u x.
Proof.
  induction trials as [|n IH]; intros x Hu; cbn [shiftHeart]; [lra|].
  destruct (existsb (blocksHeart hw u x) os); [|lra].
  specialize (IH (x + 220 * u) Hu). lra.
Qed.

(** X11.  With a resolution unit that is not negative and random numbers
    that are not negative, the heart spawner adds at most one pickup, and
    only below the cap of 6 hearts; the pickup is untaken, 30u by 28u, is
    in the lane zone of no obstacle on the field, and is spawned between
    240u and 1000u beyond the right edge. *)
Theorem spawned_heart_is_clear
    (random : nat -> Q) (dt : Q) (g : Game) (r : Refs) :
  0 <= u g ->
  (forall n, 0 <= random n) ->
  let g' := fst (spawnHeart random dt g r) in
  obstacles g' = obstacles g
  /\ (heartPickups g' = heartPickups g
      \/ exists hr,
           heartPickups g' = heartPickups g ++ [hr]
           /\ (hearts g < 6)%Z
           /\ HeartPickup.taken hr = false
           /\ HeartPickup.w hr = 30 * u g /\ HeartPickup.h hr = 28 * u g
           /\ existsb (blocksHeart (30 * u g) (u g) (HeartPickup.x hr))
                (obstacles g) = false
           /\ sizeW r + 240 * u g <= HeartPickup.x hr
           /\ HeartPickup.x hr < sizeW r + 1000 * u g).
Proof.
  intros Hu Hr. cbv zeta. unfold spawnHeart, Math_random.
  cbn -[Qplus Qmult Qminus Qle_bool ltb geb shiftHeart Z.ltb].
  destruct (hearts g <? 6)%Z eqn:Eh; [|split; [reflexivity | left; reflexivity]].
  destruct (geb _ _); [|split; [reflexivity | left; reflexivity]].
  cbn [andb]. destruct (ltb _ 0.6); [|split; [reflexivity | left; reflexivity]].
  set (x0 := sizeW r + 240 * u g + random (S (S (rng r))) * (420 * u g)).
  set (x := shiftHeart 12 (obstacles g) (30 * u g) (u g) x0).
  destruct (ltb x (sizeW r + 1000 * u g)) eqn:El;
    [|split; [reflexivity | left; reflexivity]].
  cbn [fst obstacles heartPickups set_heartPickups].
  split; [reflexivity|]. right. eexists. split; [reflexivity|].
  cbn [HeartPickup.taken HeartPickup.w HeartPickup.h HeartPickup.x].
  apply Z.ltb_lt in Eh. apply ltb_lt in El.
  assert (sizeW r + 240 * u g <= x0) as H0.
  { unfold x0. pose proof (Hr (S (S (rng r)))) as Ha.
    assert (0 <= random (S (S (rng r))) * (420 * u g)) as Hp
      by (apply Qmult_le_0_compat; [exact Ha | clear - Hu; lra]).
    clear - Hp. lra. }
  pose proof (shiftHeart_ge 12 (obstacles g) (30 * u g) (u g) x0 Hu) as Hge.
  fold x in Hge.
  split; [exact Eh|]. split; [reflexivity|]. split; [reflexivity|].
  split; [reflexivity|]. split; [|split; [clear - H0 Hge; lra | exact El]].
  destruct (shiftHeart_free_or_spent 12 (obstacles g) (30 * u g) (u g) x0)
    as [F | S]; [exact F|].
  exfalso. fold x in S. change (inject_Z (Z.of_nat 12)) with 12 in S.
  clear - S H0 El Hu. lra.
Qed.

(** X11 in the sample session with a heart due and a mushroom just
    spawned: the first place drawn for the pickup is in the zone of the
    mushroom, and the pickup is put clear of it. *)
Lemma spawned_heart_in_the_sample_session :
  0 <= u heartDue /\ (forall n, 0 <= lowest n)
  /\ existsb
       (blocksHeart (30 * u heartDue) (u heartDue)
          (sizeW sampleRefs + 240 * u heartDue
           + lowest 2 * (420 * u heartDue)))
       (obstacles heartDue) = true
  /\ exists hr,
       heartPickups (fst (spawnHeart lowest step heartDue sampleRefs)) = [hr]
       /\ HeartPickup.taken hr = false
       /\ existsb (blocksHeart (30 * u heartDue) (u heartDue)
                     (HeartPickup.x hr)) (obstacles heartDue) = false
       /\ sizeW sampleRefs + 240 * u heartDue <= HeartPickup.x hr
       /\ HeartPickup.x hr < sizeW sampleRefs + 1000 * u heartDue.
Proof.
  assert (0 <= u heartDue) as Hu by discriminate.
  assert (forall n, 0 <= lowest n) as Hr by (intro n; discriminate).
  split; [exact Hu|]. split; [exact Hr|]. split; [vm_compute; reflexivity|].
  destruct (spawned_heart_is_clear lowest step heartDue sampleRefs Hu Hr)
    as (_ & [E | (hr & E & _ & Ht & _ & _ & Hf & Hl & Hh)]).
  - exfalso.
    assert (length (heartPickups
                      (fst (spawnHeart lowest step heartDue sampleRefs)))
            = 1%nat) as L by (vm_compute; reflexivity).
    rewrite E in L. discriminate L.
  - exists hr. split; [exact E|]. split; [exact Ht|]. split; [exact Hf|].
    split; [exact Hl | exact Hh].
Defined.

(** ** The spacing of the obstacles *)

Lemma resolve_origin g r o' :
  In o' (obstacles (fst (resolve g r))) ->
  exists o, In o (obstacles g) /\ sameShape o o'.
Proof.
  destruct (resolve_field g r) as (os' & S & _ & Hin & _).
  intro Ho'. apply Hin in Ho'. clear Hin.
  revert Ho'. induction S as [|o x l l' Hs S IH]; intro Ho'; [destruct Ho'|].
  destruct Ho' as [-> | Hin].
  - exists o. split; [left; reflexivity | exact Hs].
  - destruct (IH Hin) as (ob & I1 & I2).
    exists ob. split; [right; exact I1 | exact I2].
Qed.

Lemma beforeCollisions_minGapPx random dt g r :
  minGapPx (fst (beforeCollisions random dt g r)) = minGapPx g.
Proof.
  unfold beforeCollisions.
  match goal with
  | |- minGapPx (fst (advance random dt ?a ?b)) = _ =>
      pose proof (advance_keeps random dt a b) as K
  end.
  unfold keeps in K.
  destruct K as (_ & _ & _ & _ & _ & _ & _ & _ & Km & _).
  rewrite Km. reflexivity.
Qed.

Lemma moved_x vx o : Obstacle.x (moved vx o) = Obstacle.x o - vx.
Proof. reflexivity. Qed.

Lemma update_spaced random g r :
  spaced (g, r) -> spaced (update random step g r).
Proof.
  intros (He & Hm & Ho).
  split; [apply update_exclusive; [discriminate | exact He]|].
  cbn [fst] in Hm, Ho. destruct (state g) eqn:St.
  1,3,4: rewrite update_idle by congruence; rewrite St;
    cbn [GameState_eqb fst]; split; assumption.
  rewrite update_resolve by exact St.
  destruct He as (_ & Hu & Hd & _).
  pose proof (beforeCollisions_minGapPx random step g r) as Km.
  pose proof (beforeCollisions_spawner random step g r) as S.
  cbv zeta in S.
  destruct S as (_ & Slow & Sfail & Spass).
  set (gb := fst (beforeCollisions random step g r)) in *.
  set (rb := snd (beforeCollisions random step g r)) in *.
  destruct (resolve_frame gb rb) as (W & _).
  destruct W as (_ & _ & _ & _ & _ & _ & _ & _ & _ & _ & _ & Wl & Wm & _).
  cbn [fst]. rewrite Wm, Km, Wl. split; [exact Hm|].
  assert (0 <= (350 + (difficultySeconds g + step) * 4) * step) as Hv
    by (clear - Hd; apply Qmult_le_0_compat; [|discriminate];
        pose proof step_pos; lra).
  set (vx := (350 + (difficultySeconds g + step) * 4) * step) in *.
  apply Forall_forall. intros o' Hin.
  destruct (resolve_origin gb rb o' Hin) as (ob & Iob & (_ & Sx & _)).
  rewrite Sx. clear Hin Sx o'. rewrite Forall_forall in Ho.
  destruct (geb (obsTimer g + step) (obsInterval g)) eqn:Et.
  - destruct (ltb (lastObstacleX g) (sizeW r - minGapPx g)) eqn:Eg.
    + destruct (Spass eq_refl eq_refl) as (_ & El & o & Ox & _ & _ & Oo & Ow).
      rewrite El. rewrite Oo in Iob. apply in_map_iff in Iob.
      destruct Iob as (o0 & <- & I0). rewrite moved_x.
      apply in_app_iff in I0. destruct I0 as [I0 | [<- | []]].
      * apply Ho in I0. apply ltb_lt in Eg.
        clear - I0 Eg Hv Hm Hu. lra.
      * rewrite Ox. clear - Hv. lra.
    + destruct (Sfail eq_refl eq_refl) as (_ & El & Oo).
      rewrite El. rewrite Oo in Iob. apply in_map_iff in Iob.
      destruct Iob as (o0 & <- & I0). rewrite moved_x.
      apply Ho in I0. clear - I0 Hv. lra.
  - destruct (Slow eq_refl) as (_ & El & Oo).
    rewrite El. rewrite Oo in Iob. apply in_map_iff in Iob.
    destruct Iob as (o0 & <- & I0). rewrite moved_x.
    apply Ho in I0. clear - I0. lra.
Qed.

Lemma act_spaced random a s : spaced s -> spaced (act random a s).
Proof.
  apply (act_invariant random spaced).
  - intros g r (He & Hm & Ho). split; [apply startGame_exclusive; exact He|].
    destruct He as (Hh & _). cbn [fst].
    rewrite (proj1 (startGame_field g r)).
    split; [|constructor].
    unfold startGame. cbn [fst minGapPx set_minGapPx set_heartTimer
      set_heartInterval set_player set_score set_hearts].
    pose proof (units_nonneg _ Hh) as Hu. clear - Hu. lra.
  - intros g r H. unfold doJump. destruct (state g); try exact H.
    destruct (0 <? _)%Z; exact H.
  - intros g r H. unfold pauseGame. destruct (state g); exact H.
  - intros g r H. unfold resumeGame. destruct (state g); exact H.
  - intros w h ctx flies g r (He & Hm & Ho).
    split; [apply (act_exclusive random (Resize w h ctx flies) (g, r));
            exact He|].
    unfold handleResize. destruct ctx; cbn [negb fst]; [|split; assumption].
    cbn [minGapPx set_minGapPx set_obstacles obstacles lastObstacleX].
    split.
    + pose proof (units_nonneg _ (pixels_nonneg h)) as Hu. clear - Hu. lra.
    + clear - Ho. cbn [fst] in Ho.
      rewrite Forall_forall in Ho. apply Forall_forall. intros o' Hin.
      apply in_map_iff in Hin. destruct Hin as (o & <- & Hin).
      exact (Ho o Hin).
  - intros g r H. apply update_spaced. exact H.
Qed.

Lemma init_spaced w h ctx bw flies now : spaced (init w h ctx bw flies now).
Proof.
  split; [apply init_exclusive|].
  unfold init, initGame. cbn -[Qdiv Qmult Qle Math_min].
  split; [|constructor].
  pose proof (units_nonneg _ (pixels_nonneg h)) as Hu. lra.
Qed.

(** X12.  Obstacles keep their distance.  In every state a session can
    reach, no obstacle on the field is to the right of the tracker
    [lastObstacleX], and [minGapPx + 40 u] is not negative; so whenever the
    spacing guard of the spawner passes, every obstacle on the field is more
    than [minGapPx + 40 u] to the left of the place where the new obstacle
    is put, whatever its type. *)
Theorem obstacles_keep_their_distance
    (random : nat -> Q) (w h : N) (ctx : bool) (bw : option Q)
    (flies : list Firefly) (now : Q) (acts : list Action) :
  let s := run random acts (init w h ctx bw flies now) in
  let g := fst s in
  let r := snd s in
  Forall (fun o => Obstacle.x o <= lastObstacleX g) (obstacles g)
  /\ 0 <= minGapPx g + 40 * u g
  /\ (ltb (lastObstacleX g) (sizeW r - minGapPx g) = true ->
      forall type,
        Forall
          (fun o =>
             minGapPx g + 40 * u g
             < Obstacle.x (spawned type g r) - Obstacle.x o)
          (obstacles g)).
Proof.
  cbv zeta.
  set (s := run random acts (init w h ctx bw flies now)).
  assert (spaced s) as (He & Hm & Ho).
  { apply run_invariant; [apply act_spaced | apply init_spaced]. }
  destruct s as [g r]. cbn [fst snd] in *.
  destruct He as (_ & Hu & _).
  split; [exact Ho|]. split; [clear - Hm Hu; lra|].
  intros Eg type. apply ltb_lt in Eg.
  rewrite Forall_forall in Ho. apply Forall_forall. intros o Hin.
  apply Ho in Hin. unfold spawned. cbn [Obstacle.x].
  clear - Hin Eg. lra.
Qed.

(** ** The clocks of the spawners *)

Lemma clamp_range v a b : a <= b -> a <= clamp v a b /\ clamp v a b <= b.
Proof.
  intro H. unfold clamp, Math_max, Math_min.
  destruct (Qle_bool b v) eqn:E1.
  - destruct (Qle_bool a b) eqn:E2.
    + split; [exact H | apply Qle_refl].
    + split; [apply Qle_refl | exact H].
  - assert (v < b) as Hv.
    { apply Qnot_le_lt. intro X. apply Qle_bool_iff in X. congruence. }
    destruct (Qle_bool a v) eqn:E2.
    + apply Qle_bool_iff in E2. split; [exact E2 | lra].
    + split; [apply Qle_refl | exact H].
Qed.

Lemma clamp_below v a b c : v <= c -> a <= c -> clamp v a b <= c.
Proof.
  intros Hv Ha. unfold clamp, Math_max, Math_min.
  destruct (Qle_bool b v) eqn:E1.
  - apply Qle_bool_iff in E1.
    destruct (Qle_bool a b) eqn:E2; [lra | exact Ha].
  - destruct (Qle_bool a v) eqn:E2; assumption.
Qed.

Lemma spawnHeart_clock random dt g r :
  let g' := fst (spawnHeart random dt g r) in
  (heartTimer g' = heartTimer g + dt /\ heartInterval g' = heartInterval g)
  \/ (heartTimer g' = 0 /\ exists n, heartInterval g' = 5 + random n * 3.5).
Proof.
  unfold spawnHeart, Math_random.
  destruct (_ && _); [destruct (ltb _ 0.6); [destruct (ltb _ _)|]|];
    simpl; try (left; split; reflexivity);
    right; (split; [reflexivity | eexists; reflexivity]).
Qed.

Lemma beforeCollisions_clock random dt g r :
  let gb := fst (beforeCollisions random dt g r) in
  (obsInterval gb = obsInterval g
   \/ (geb (obsTimer g + dt) (obsInterval g) = true
       /\ ltb (lastObstacleX g) (sizeW r - minGapPx g) = true
       /\ exists n,
            obsInterval gb
            = clamp (2.1 - (difficultySeconds g + dt) * 0.01) 1.1 2.4
              + (random n * 0.6 - 0.3)))
  /\ ((heartTimer gb = heartTimer g + dt
       /\ heartInterval gb = heartInterval g)
      \/ (heartTimer gb = 0
          /\ exists n, heartInterval gb = 5 + random n * 3.5)).
Proof.
  unfold beforeCollisions, advance.
  match goal with
  | |- context [spawnObstacle random dt ?a ?b] =>
      set (gs := a); set (rs := b)
  end.
  destruct (spawnObstacle random dt gs rs) as [g3 r3] eqn:E.
  pose proof (spawnHeart_clock random dt g3 r3) as H4.
  pose proof (spawnHeart_spawner random dt g3 r3) as S4.
  destruct (spawnHeart random dt g3 r3) as [g4 r4]. cbv zeta in H4, S4.
  cbn [fst] in H4, S4.
  destruct S4 as (_ & I4 & _).
  cbn [fst]. unfold moveWorld.
  cbn [set_obstacles set_heartPickups obsInterval heartTimer heartInterval].
  rewrite I4.
  unfold spawnObstacle, Math_random in E.
  assert (obsTimer gs = obsTimer g /\ obsInterval gs = obsInterval g
          /\ lastObstacleX gs = lastObstacleX g /\ minGapPx gs = minGapPx g
          /\ difficultySeconds gs = difficultySeconds g + dt
          /\ heartTimer gs = heartTimer g
          /\ heartInterval gs = heartInterval g /\ sizeW rs = sizeW r)
    as (A1 & A2 & A3 & A4 & A5 & A6 & A7 & A8).
  { unfold gs, rs, physics, ramp, scroll. branches; repeat split. }
  cbn [obsTimer set_obsTimer obsInterval lastObstacleX minGapPx] in E.
  rewrite A1, A2, A3, A4, A8 in E.
  assert (heartTimer g3 = heartTimer g /\ heartInterval g3 = heartInterval g)
    as (B1 & B2).
  { destruct (geb (obsTimer g + dt) (obsInterval g));
      [destruct (ltb (lastObstacleX g) (sizeW r - minGapPx g))|];
      inversion E; subst g3; split; assumption. }
  rewrite B1, B2 in H4. split; [|exact H4].
  destruct (geb (obsTimer g + dt) (obsInterval g)) eqn:Et;
    [destruct (ltb (lastObstacleX g) (sizeW r - minGapPx g)) eqn:Eg|];
    inversion E; subst g3; clear E.
  - right. split; [reflexivity|]. split; [reflexivity|]. exists (rng rs).
    cbn [obsInterval set_lastObstacleX set_obstacles set_obsInterval
         difficultySeconds set_obsTimer].
    reflexivity.
  - left. exact A2.
  - left. exact A2.
Qed.

Section Clocks.

Variable random : nat -> Q.
Hypothesis random_range : forall n, 0 <= random n /\ random n < 1.

Lemma update_timed g r :
  exclusive (g, r) -> timed g -> timed (fst (update random step g r)).
Proof.
  intros He Ht. destruct (state g) eqn:St.
  1,3,4: rewrite update_idle by congruence; rewrite St;
    cbn [GameState_eqb fst]; exact Ht.
  rewrite update_resolve by exact St.
  destruct He as (_ & _ & Hd & _).
  pose proof (beforeCollisions_clock random step g r) as C.
  pose proof (beforeCollisions_spawner random step g r) as S.
  cbv zeta in C, S.
  destruct C as (Co & Ch). destruct S as (_ & Slow & Sfail & Spass).
  set (gb := fst (beforeCollisions random step g r)) in *.
  set (rb := snd (beforeCollisions random step g r)) in *.
  destruct (resolve_frame gb rb) as (W & _).
  destruct W as (_ & _ & _ & _ & _ & _ & _ & _ & _ & Wt & Wi & _ & _ & Wht
                 & Whi & _).
  unfold timed. cbn [fst]. rewrite Wt, Wi, Wht, Whi.
  destruct Ht as ((I1 & I2) & (T1 & T2) & (H1 & H2) & H3).
  pose proof step_pos as Hs.
  assert ((0.8 <= obsInterval gb /\ obsInterval gb < 2.4)
          /\ 0 <= obsTimer gb /\ obsTimer gb < obsInterval gb) as Ho.
  { destruct (geb (obsTimer g + step) (obsInterval g)) eqn:Et.
    - destruct (ltb (lastObstacleX g) (sizeW r - minGapPx g)) eqn:Eg.
      + destruct (Spass eq_refl eq_refl) as (-> & _).
        assert (0.8 <= obsInterval gb /\ obsInterval gb < 2.4) as R.
        { destruct Co as [-> | (_ & _ & n & ->)]; [split; assumption|].
          destruct (random_range n) as (R1 & R2).
          destruct (clamp_range (2.1 - (difficultySeconds g + step) * 0.01)
                      1.1 2.4) as (C1 & _); [discriminate|].
          assert (clamp (2.1 - (difficultySeconds g + step) * 0.01) 1.1 2.4
                  <= 2.1) as C2
            by (apply clamp_below; [clear - Hd Hs; lra | discriminate]).
          clear - R1 R2 C1 C2. split; lra. }
        split; [exact R|]. destruct R as (R1 & _).
        split; [apply Qle_refl | clear - R1; lra].
      + destruct (Sfail eq_refl eq_refl) as (-> & _).
        destruct Co as [-> | (_ & X & _)]; [|discriminate].
        clear - I1 I2. repeat split; lra.
    - destruct (Slow eq_refl) as (-> & _).
      destruct Co as [-> | (X & _)]; [|discriminate].
      apply geb_lt in Et. clear - I1 I2 T1 Hs Et. repeat split; lra. }
  destruct Ho as (Ho1 & Ho2 & Ho3).
  split; [exact Ho1|]. split; [split; assumption|].
  destruct Ch as [(-> & ->) | (-> & n & ->)].
  - split; [split; assumption | clear - H3 Hs; lra].
  - destruct (random_range n) as (R1 & R2).
    clear - R1 R2. repeat split; try lra.
Qed.

Lemma act_timed a s :
  exclusive s /\ timed (fst s) ->
  exclusive (act random a s) /\ timed (fst (act random a s)).
Proof.
  apply (act_invariant random (fun s => exclusive s /\ timed (fst s))).
  - intros g r (He & _). split; [apply startGame_exclusive; exact He|].
    unfold timed, startGame.
    cbn [fst obsInterval obsTimer heartInterval heartTimer set_hearts
         set_score set_player set_heartInterval set_heartTimer set_minGapPx
         set_lastObstacleX set_obsInterval set_obsTimer].
    repeat split; discriminate.
  - intros g r H. unfold doJump. destruct (state g); try exact H.
    destruct (0 <? _)%Z; exact H.
  - intros g r H. unfold pauseGame. destruct (state g); exact H.
  - intros g r H. unfold resumeGame. destruct (state g); exact H.
  - intros w h ctx flies g r (He & Ht).
    split; [apply (act_exclusive random (Resize w h ctx flies) (g, r));
            exact He|].
    unfold handleResize. destruct ctx; cbn [negb fst]; exact Ht.
  - intros g r (He & Ht).
    split; [apply update_exclusive; [discriminate | exact He]|].
    apply update_timed; assumption.
Qed.

End Clocks.

Lemma init_timed w h ctx bw flies now : timed (fst (init w h ctx bw flies now)).
Proof.
  unfold init, initGame, timed. cbn -[Qdiv Qmult Qle Qlt Math_min].
  repeat split; discriminate.
Qed.

(** X13.  The clocks of the spawners stay in range.  With random numbers
    in [0, 1), in every state a session can reach the obstacle interval is
    at least 0.8 and below 2.4 seconds, the obstacle timer is not negative
    and below the interval, the heart interval is at least 5 and at most
    8.5 seconds, and the heart timer is not negative. *)
Theorem spawn_clocks_stay_in_range
    (random : nat -> Q) (w h : N) (ctx : bool) (bw : option Q)
    (flies : list Firefly) (now : Q) (acts : list Action) :
  (forall n, 0 <= random n /\ random n < 1) ->
  let g := fst (run random acts (init w h ctx bw flies now)) in
  (0.8 <= obsInterval g /\ obsInterval g < 2.4)
  /\ (0 <= obsTimer g /\ obsTimer g < obsInterval g)
  /\ (5 <= heartInterval g /\ heartInterval g <= 8.5)
  /\ 0 <= heartTimer g.
Proof.
  intros Hr. cbv zeta.
  apply (run_invariant random (fun s => exclusive s /\ timed (fst s))).
  - intros a s. apply act_timed. exact Hr.
  - split; [apply init_exclusive | apply init_timed].
Qed.

(** ** Restarting *)

Lemma beforeCollisions_geometry random dt g r :
  sameGeometry (g, r) (beforeCollisions random dt g r).
Proof.
  unfold beforeCollisions.
  match goal with
  | |- sameGeometry _ (advance random dt ?a ?b) =>
      pose proof (advance_keeps random dt a b) as K
  end.
  unfold keeps in K.
  destruct K as (_ & _ & _ & Kb & Ku & KG & KJ & Kg & _ & _ & _ & _ & Kw & Kh
                 & _).
  unfold sameGeometry. rewrite Kb, Ku, KG, KJ, Kg, Kw, Kh.
  repeat split.
Qed.

Lemma resolve_geometry g r : sameGeometry (g, r) (resolve g r).
Proof.
  destruct (resolve_frame g r) as (W & C).
  destruct W as (_ & _ & _ & _ & Wu & WG & WJ & Wb & Wg & _).
  unfold sameGeometry. cbn [fst snd]. rewrite Wu, WG, WJ, Wb, Wg.
  unfold sameCells in C. rewrite C.
  repeat split.
Qed.

Lemma sameGeometry_trans s1 s2 s3 :
  sameGeometry s1 s2 -> sameGeometry s2 s3 -> sameGeometry s1 s3.
Proof.
  unfold sameGeometry. intros (A1 & A2 & A3 & A4 & A5 & A6 & A7)
    (B1 & B2 & B3 & B4 & B5 & B6 & B7).
  repeat split; congruence.
Qed.

Lemma update_geometry random dt g r :
  sameGeometry (g, r) (update random dt g r).
Proof.
  destruct (state g) eqn:St.
  1,3,4: rewrite update_idle by congruence; rewrite St;
    cbn [GameState_eqb]; repeat split.
  rewrite update_resolve by exact St.
  apply sameGeometry_trans with (beforeCollisions random dt g r);
    [apply beforeCollisions_geometry|].
  rewrite (surjective_pairing (beforeCollisions random dt g r)) at 1.
  apply resolve_geometry.
Qed.

Lemma startGame_geometry g r : sameGeometry (g, r) (startGame g r).
Proof. unfold startGame, sameGeometry. cbn. repeat split. Qed.

Lemma act_geometry random a s :
  isResize a = false -> sameGeometry s (act random a s).
Proof.
  destruct s as [g r]. intro Ha.
  assert (sameGeometry (g, r) (g, r)) as Refl by (repeat split).
  destruct a as [code| | |w h ctx flies|]; cbn [act]; try discriminate.
  - destruct code; cbn [onKeyDown]; unfold restartFromGameOver, doJump,
      pauseGame, resumeGame; destruct (state g); branches;
      try apply startGame_geometry; try exact Refl; repeat split.
  - unfold onPointerDown, restartFromGameOver, doJump.
    destruct (state g); branches;
      try apply startGame_geometry; try exact Refl; repeat split.
  - apply startGame_geometry.
  - apply update_geometry.
Qed.

Lemma startGame_from_geometry g r g' r' :
  sameGeometry (g, r) (g', r') ->
  fst (startGame g' r') = fst (startGame g r).
Proof.
  unfold sameGeometry. destruct g, g', r, r'.
  simpl.
  intros (A1 & A2 & A3 & A4 & A5 & A6 & A7). subst.
  unfold startGame. cbn. reflexivity.
Qed.

(** X14.  A restart forgets the session.  After any inputs and steps with
    no resize among them, [startGame] gives the same game as it would have
    given before them: nothing of the played session (score, hearts,
    obstacles, pickups, timers, speed, the player's motion) survives a
    restart. *)
Theorem restart_forgets_the_session
    (random : nat -> Q) (acts : list Action) (g : Game) (r : Refs) :
  forallb (fun a => negb (isResize a)) acts = true ->
  let s := run random acts (g, r) in
  fst (startGame (fst s) (snd s)) = fst (startGame g r).
Proof.
  intros Ha. cbv zeta.
  assert (sameGeometry (g, r) (run random acts (g, r))) as H.
  { generalize (g, r). clear g r.
    induction acts as [|a acts IH]; intro s; [repeat split|].
    cbn [forallb] in Ha. apply andb_true_iff in Ha. destruct Ha as (Ha1 & Ha2).
    apply negb_true_iff in Ha1. cbn [run].
    apply sameGeometry_trans with (act random a s);
      [apply act_geometry; exact Ha1 | apply IH; exact Ha2]. }
  destruct (run random acts (g, r)) as [g' r'].
  apply startGame_from_geometry. exact H.
Qed.

Lemma restart_in_the_sample_session :
  forallb (fun a => negb (isResize a))
    [FixedStep; KeyDown Space; FixedStep; KeyDown Enter] = true
  /\ fst (startGame
            (fst (run half [FixedStep; KeyDown Space; FixedStep; KeyDown Enter]
                    (samplePlay, sampleRefs)))
            (snd (run half [FixedStep; KeyDown Space; FixedStep; KeyDown Enter]
                    (samplePlay, sampleRefs))))
     = fst (startGame samplePlay sampleRefs).
Proof.
  split; [reflexivity|].
  apply (restart_forgets_the_session half
           [FixedStep; KeyDown Space; FixedStep; KeyDown Enter]
           samplePlay sampleRefs).
  reflexivity.
Defined.

(** ** The backdrop *)

Lemma js_rem_range (a b : Q) :
  0 <= a -> 0 < b -> 0 <= js_rem a b /\ js_rem a b < b.
Proof.
  intros Ha Hb. unfold js_rem. cbv zeta.
  assert (0 <= a / b) as Hq.
  { unfold Qdiv. apply Qmult_le_0_compat; [exact Ha|].
    apply Qlt_le_weak, Qinv_lt_0_compat. exact Hb. }
  set (q := a / b) in *.
  assert (Z.quot (Qnum q) (Zpos (Qden q)) = Qfloor q) as ->.
  { destruct q as [n d]. cbn [Qnum Qden Qfloor].
    apply Z.quot_div_nonneg; [|reflexivity].
    unfold Qle in Hq. cbn in Hq. lia. }
  pose proof (Qfloor_le q) as F1.
  pose proof (Qlt_floor q) as F2.
  rewrite inject_Z_plus in F2. change (inject_Z 1) with 1 in F2.
  assert (a == b * q) as Ea.
  { unfold q. field. intro X. rewrite X in Hb. discriminate. }
  set (f := inject_Z (Qfloor q)) in *.
  assert (b * f <= b * q) as M1
    by (apply Qmult_le_l; assumption).
  assert (b * q < b * (f + 1)) as M2
    by (apply Qmult_lt_l; assumption).
  clear - Ea M1 M2. split; lra.
Qed.

Lemma beforeCollisions_scroll random dt g r :
  bgOffset (fst (beforeCollisions random dt g r))
  = js_rem (bgOffset g + Math_max 120 (speed g * 0.35) * dt) (backdropWidth r)
  /\ backdrop (snd (beforeCollisions random dt g r)) = backdrop r.
Proof.
  unfold beforeCollisions.
  match goal with
  | |- context [advance random dt ?a ?b] =>
      pose proof (advance_keeps random dt a b) as K
  end.
  unfold keeps in K.
  destruct K as (_ & _ & _ & _ & _ & _ & _ & _ & _ & _ & Kb & _ & _ & _ & Kd
                 & _).
  rewrite Kb, Kd. split; reflexivity.
Qed.

Lemma update_scrolled random dt bw g r :
  0 <= dt -> (forall b, bw = Some b -> 0 < b) ->
  scrolled bw (g, r) -> scrolled bw (update random dt g r).
Proof.
  intros Hdt Hbw (Hb & H0 & H1). cbn [fst snd] in Hb, H0, H1.
  destruct (state g) eqn:St.
  1,3,4: rewrite update_idle by congruence; rewrite St;
    cbn [GameState_eqb]; repeat split; assumption.
  rewrite update_resolve by exact St.
  destruct (beforeCollisions_scroll random dt g r) as (Bo & Bd).
  set (gb := fst (beforeCollisions random dt g r)) in *.
  set (rb := snd (beforeCollisions random dt g r)) in *.
  destruct (resolve_frame gb rb) as (W & C).
  destruct W as (_ & Wb & _).
  unfold scrolled, backdropWidth. rewrite Wb.
  unfold sameCells in C. rewrite C.
  change (backdrop (set_log (log (snd (resolve gb rb))) rb))
    with (backdrop rb).
  rewrite Bd, Bo. split; [exact Hb|].
  fold (backdropWidth r).
  apply js_rem_range.
  - pose proof (Math_max_lower 120 (speed g * 0.35)) as M.
    assert (0 <= Math_max 120 (speed g * 0.35) * dt) as P
      by (apply Qmult_le_0_compat; [clear - M; lra | exact Hdt]).
    clear - P H0. lra.
  - clear - H0 H1. lra.
Qed.

Lemma act_scrolled random bw a s :
  (forall b, bw = Some b -> 0 < b) ->
  scrolled bw s -> scrolled bw (act random a s).
Proof.
  intro Hbw. apply (act_invariant random (scrolled bw)).
  - intros g r (Hb & H0 & H1). unfold scrolled, startGame, backdropWidth.
    cbn. cbn [fst snd] in Hb, H0, H1. unfold backdropWidth in H1.
    split; [exact Hb|]. split; [discriminate|]. clear - H0 H1. lra.
  - intros g r H. unfold doJump. destruct (state g); try exact H.
    destruct (0 <? _)%Z; exact H.
  - intros g r H. unfold pauseGame. destruct (state g); exact H.
  - intros g r H. unfold resumeGame. destruct (state g); exact H.
  - intros w h ctx flies g r H. unfold handleResize.
    destruct ctx; cbn [negb]; exact H.
  - intros g r H. apply update_scrolled; [discriminate | exact Hbw | exact H].
Qed.

(** X15.  The backdrop offset stays within one image.  When the backdrop
    that [init] loaded has a positive width, in every state a session can
    reach the offset [bgOffset] is at least 0 and less than the width the
    backdrop is tiled with (its own, or 10000 without one), and the backdrop
    is the one [init] loaded. *)
Theorem backdrop_offset_stays_in_the_image
    (random : nat -> Q) (w h : N) (ctx : bool) (bw : option Q)
    (flies : list Firefly) (now : Q) (acts : list Action) :
  (forall b, bw = Some b -> 0 < b) ->
  let s := run random acts (init w h ctx bw flies now) in
  backdrop (snd s) = bw
  /\ 0 <= bgOffset (fst s) /\ bgOffset (fst s) < backdropWidth (snd s).
Proof.
  intros Hbw. cbv zeta.
  apply (run_invariant random (scrolled bw)).
  - intros a s. apply act_scrolled. exact Hbw.
  - unfold scrolled, init, initGame, backdropWidth. cbn [fst snd backdrop].
    split; [reflexivity|]. split; [discriminate|].
    destruct bw as [b|]; [apply Hbw; reflexivity | reflexivity].
Qed.

Lemma backdrop_offset_in_the_sample_session :
  (forall b, Some 1920 = Some b -> 0 < b)
  /\ bgOffset (fst (run half [KeyDown Space; FixedStep; FixedStep]
                      (init 960 540 true (Some 1920) [] 0)))
     < backdropWidth
         (snd (run half [KeyDown Space; FixedStep; FixedStep]
                 (init 960 540 true (Some 1920) [] 0))).
Proof.
  assert (forall b : Q, Some 1920 = Some b -> 0 < b) as H
    by (intros b E; inversion E; reflexivity).
  split; [exact H|].
  apply (backdrop_offset_stays_in_the_image half 960 540 true (Some 1920) []
           0 [KeyDown Space; FixedStep; FixedStep]).
  exact H.
Defined.

(** ** The fireflies *)

Lemma Forall2_map_right {A B : Type} (P : A -> B -> Prop) (f : A -> B) l :
  (forall a, P a (f a)) -> Forall2 P l (map f l).
Proof. intro H. induction l; simpl; constructor; auto. Qed.

Lemma beforeCollisions_fireflies random dt g r :
  fireflies (snd (beforeCollisions random dt g r))
  = map (drift (Math_max 120 (speed g * 0.35) * dt) (sizeW r))
      (map (twinkle dt) (fireflies r)).
Proof.
  unfold beforeCollisions.
  match goal with
  | |- context [advance random dt ?a ?b] =>
      pose proof (advance_keeps random dt a b) as K
  end.
  unfold keeps in K.
  destruct K as (_ & _ & _ & _ & _ & _ & _ & _ & _ & _ & _ & _ & _ & _ & _
                 & Kf & _).
  rewrite Kf. reflexivity.
Qed.

(** X16.  The fireflies.  One call of [update] neither adds nor removes a
    firefly and keeps the height, radius and twinkle speed of each; it
    advances every phase in every state, also while paused; it moves the
    fireflies only in a playing game, each to the left by the scroll of at
    least 120 pixels per second, unless that takes it more than 10 pixels
    beyond the left edge, in which case it is put 10 pixels beyond the right
    edge. *)
Theorem fireflies_twinkle_and_drift
    (random : nat -> Q) (dt : Q) (g : Game) (r : Refs) :
  0 <= dt ->
  let d := Math_max 120 (speed g * 0.35) * dt in
  120 * dt <= d
  /\ Forall2 (flown (state g) dt d (sizeW r))
       (fireflies r) (fireflies (snd (update random dt g r))).
Proof.
  intros Hdt. cbv zeta. split.
  { apply Qmult_le_compat_r; [apply Math_max_lower | exact Hdt]. }
  destruct (GameState_eqb (state g) PLAYING) eqn:St.
  - assert (state g = PLAYING) as Sp by (destruct (state g); try discriminate;
                                         reflexivity).
    rewrite update_resolve by exact Sp.
    pose proof (beforeCollisions_fireflies random dt g r) as Bf.
    set (gb := fst (beforeCollisions random dt g r)) in *.
    set (rb := snd (beforeCollisions random dt g r)) in *.
    destruct (resolve_frame gb rb) as (_ & C).
    unfold sameCells in C. rewrite C.
    change (fireflies (set_log (log (snd (resolve gb rb))) rb))
      with (fireflies rb).
    rewrite Bf, map_map. apply Forall2_map_right. intro f.
    unfold flown, drift, twinkle. cbn [Firefly.x Firefly.y Firefly.r
      Firefly.phase Firefly.speed].
    repeat (split; [reflexivity|]).
    split; [intro X; congruence|]. intros _.
    destruct (ltb _ (-10)) eqn:E.
    + right. split; [reflexivity | apply ltb_lt; exact E].
    + left. split; [reflexivity | apply ltb_ge; exact E].
  - assert (state g <> PLAYING) as Sp by (intro X; rewrite X in St;
                                          discriminate).
    rewrite update_idle by exact Sp. cbn [snd fireflies set_fireflies].
    apply Forall2_map_right. intro f.
    unfold flown, twinkle. cbn [Firefly.x Firefly.y Firefly.r
      Firefly.phase Firefly.speed].
    repeat (split; [reflexivity|]).
    intro X. congruence.
Qed.

(** X16 in the sample session with two fireflies: the first drifts to the
    left, the second, 9 pixels beyond the left edge, is put 10 pixels
    beyond the right edge. *)
Lemma fireflies_in_the_sample_session :
  0 <= step
  /\ length (fireflies twoFlies) = 2%nat
  /\ map Firefly.x (fireflies (snd (update half step samplePlay twoFlies)))
     = [100 - Math_max 120 (speed samplePlay * 0.35) * step;
        sizeW twoFlies + 10]
  /\ Forall2
       (flown (state samplePlay) step
          (Math_max 120 (speed samplePlay * 0.35) * step) (sizeW twoFlies))
       (fireflies twoFlies)
       (fireflies (snd (update half step samplePlay twoFlies))).
Proof.
  assert (0 <= step) as H by discriminate.
  split; [exact H|]. split; [reflexivity|]. split; [reflexivity|].
  exact (proj2 (fireflies_twinkle_and_drift half step samplePlay twoFlies H)).
Defined.

(** ** The pass over the pickups *)

Lemma takeHeart_cases pr hr g r :
  (touched pr hr = false /\ takeHeart pr hr g r = (hr, g, r))
  \/ (touched pr hr = true /\ (6 <= hearts g)%Z
      /\ takeHeart pr hr g r = (HeartPickup.set_taken true hr, g, r))
  \/ (touched pr hr = true /\ (hearts g < 6)%Z
      /\ exists g1 r1,
           takeHeart pr hr g r = (HeartPickup.set_taken true hr, g1, r1)
           /\ hearts g1 = (hearts g + 1)%Z
           /\ log r1
              = log r ++ [OnHeartsChange (hearts g + 1); PlaySfx SfxPickup]).
Proof.
  unfold takeHeart, touched, heartBox.
  destruct (HeartPickup.taken hr); [left; split; reflexivity|].
  cbn [negb andb].
  destruct (collide pr _); [|left; split; reflexivity].
  destruct (hearts g <? 6)%Z eqn:E.
  - right. right. apply Z.ltb_lt in E.
    split; [reflexivity|]. split; [exact E|].
    eexists. eexists. split; [reflexivity|]. split; [reflexivity|].
    unfold playSfx, emit. cbn [log set_log set_hearts hearts].
    rewrite <- app_assoc. reflexivity.
  - right. left. apply Z.ltb_ge in E. repeat split. exact E.
Qed.

(** X17.  The pass over the pickups in closed form.  With [k] pickups
    touched (not taken before, and meeting the player's shrunk box), the
    pass marks exactly those as taken, leaves the hearts at
    [max hearts (min 6 (hearts + k))], and tells the page and the mixer once
    for every heart gained, in order, and nothing else. *)
Theorem heart_pass_in_closed_form
    (pr : Box) (hs : list HeartPickup) (g : Game) (r : Refs) :
  let hs' := fst (fst (heartLoop pr hs g r)) in
  let g' := snd (fst (heartLoop pr hs g r)) in
  let r' := snd (heartLoop pr hs g r) in
  let k := Z.of_nat (length (filter (touched pr) hs)) in
  hs' = map (fun hr => if touched pr hr then HeartPickup.set_taken true hr
                       else hr) hs
  /\ hearts g' = Z.max (hearts g) (Z.min 6 (hearts g + k))
  /\ log r' = log r ++ pickupLog (hearts g) (Z.to_nat (hearts g' - hearts g)).
Proof.
  cbv zeta. revert g r.
  induction hs as [|hr rest IH]; intros g r.
  - cbn [heartLoop fst snd filter length map Z.of_nat].
    split; [reflexivity|]. split; [lia|].
    rewrite Z.sub_diag. cbn [Z.to_nat pickupLog]. rewrite app_nil_r.
    reflexivity.
  - cbn [heartLoop filter map].
    destruct (takeHeart_cases pr hr g r)
      as [(T & E) | [(T & H6 & E) | (T & H6 & g1 & r1 & E & Eh & El)]];
      rewrite E, T;
      [specialize (IH g r) | specialize (IH g r) | specialize (IH g1 r1)];
      destruct (heartLoop pr rest _ _) as [[rest2 g2] r2];
      cbn [fst snd] in IH |- *; destruct IH as (I1 & I2 & I3);
      (split; [rewrite I1; reflexivity|]).
    + split; [exact I2 | exact I3].
    + cbn [length]. split; [lia | exact I3].
    + cbn [length]. rewrite Eh in I2, I3. split; [lia|].
      rewrite I3, El, <- app_assoc. f_equal.
      replace (Z.to_nat (hearts g2 - hearts g))
        with (S (Z.to_nat (hearts g2 - (hearts g + 1)))) by lia.
      reflexivity.
Qed.

(** ** The clocks of the game *)

Lemma beforeCollisions_t random dt g r :
  t (fst (beforeCollisions random dt g r)) = t g + dt.
Proof.
  unfold beforeCollisions.
  match goal with
  | |- context [advance random dt ?a ?b] =>
      pose proof (advance_keeps random dt a b) as K
  end.
  unfold keeps in K.
  destruct K as (_ & _ & _ & _ & _ & _ & _ & _ & _ & Kt & _).
  rewrite Kt. reflexivity.
Qed.

Lemma update_clocked random g r :
  clocked g -> clocked (fst (update random step g r)).
Proof.
  intros (Hs & H0 & H1 & H2). pose proof step_pos as Hp.
  destruct (state g) eqn:St.
  1,3,4: rewrite update_idle by congruence; rewrite St;
    cbn [GameState_eqb fst]; unfold clocked;
    cbn [speed difficultySeconds t state set_t]; rewrite ?St.
  - split; [exact Hs|]. split; [exact H0|].
    split; [clear - H1 Hp; lra|]. intros [X | X]; discriminate.
  - split; [exact Hs|]. split; [exact H0|]. split; [exact H1|].
    intros _. apply H2. right. reflexivity.
  - split; [exact Hs|]. split; [exact H0|].
    split; [clear - H1 Hp; lra|]. intros [X | X]; discriminate.
  - rewrite update_resolve by exact St.
    pose proof (beforeCollisions_t random step g r) as Bt.
    pose proof (beforeCollisions_difficulty random step g r) as Bd.
    pose proof (beforeCollisions_spawner random step g r) as S.
    cbv zeta in S. destruct S as (Bs & _).
    set (gb := fst (beforeCollisions random step g r)) in *.
    set (rb := snd (beforeCollisions random step g r)) in *.
    destruct (resolve_frame gb rb) as (W & _).
    destruct W as (Wt & _ & Ws & Wd & _).
    unfold clocked. cbn [fst]. rewrite Wt, Ws, Wd, Bt, Bd, Bs.
    split; [reflexivity|]. split; [clear - H0 Hp; lra|].
    rewrite (H2 (or_introl eq_refl)).
    split; [apply Qle_refl | intros _; reflexivity].
Qed.

Lemma act_clocked random a s :
  clocked (fst s) -> clocked (fst (act random a s)).
Proof.
  apply (act_invariant random (fun s => clocked (fst s))).
  - intros g r _. unfold clocked, startGame. cbn.
    split; [reflexivity|]. split; [discriminate|]. split; [discriminate|].
    intros _. reflexivity.
  - intros g r H. unfold doJump. destruct (state g); try exact H.
    destruct (0 <? _)%Z; exact H.
  - intros g r H. unfold pauseGame.
    destruct (state g) eqn:St; try exact H.
    destruct H as (Hs & H0 & H1 & H2). cbn [fst] in *.
    split; [exact Hs|]. split; [exact H0|]. split; [exact H1|].
    intros _. apply H2. left. exact St.
  - intros g r H. unfold resumeGame.
    destruct (state g) eqn:St; try exact H.
    destruct H as (Hs & H0 & H1 & H2). cbn [fst] in *.
    split; [exact Hs|]. split; [exact H0|]. split; [exact H1|].
    intros _. apply H2. right. exact St.
  - intros w h ctx flies g r H. unfold handleResize.
    destruct ctx; cbn [negb fst]; exact H.
  - intros g r H. apply update_clocked. exact H.
Qed.

(** X18.  The clocks of the game.  In every state a session can reach the
    speed is 350 plus four times the seconds played, which are not negative
    and not beyond the clock [t]; in a session that is being played or is
    paused the clock is the seconds played, so that the speed depends on
    nothing but the time played since the last start. *)
Theorem speed_follows_the_seconds_played
    (random : nat -> Q) (w h : N) (ctx : bool) (bw : option Q)
    (flies : list Firefly) (now : Q) (acts : list Action) :
  let g := fst (run random acts (init w h ctx bw flies now)) in
  speed g == 350 + difficultySeconds g * 4
  /\ 0 <= difficultySeconds g /\ difficultySeconds g <= t g
  /\ (state g = PLAYING \/ state g = PAUSED -> t g = difficultySeconds g).
Proof.
  cbv zeta.
  apply (run_invariant random (fun s => clocked (fst s))).
  - intros a s. apply act_clocked.
  - unfold clocked, init, initGame. cbn.
    split; [reflexivity|]. split; [discriminate|]. split; [discriminate|].
    intros [X | X]; discriminate.
Qed.

(** ** The high score *)

Lemma highScore_app prev l1 l2 :
  highScore prev (l1 ++ l2) = highScore (highScore prev l1) l2.
Proof. unfold highScore. apply fold_left_app. Qed.

Lemma highScore_ge l : forall prev, (prev <= highScore prev l)%Z.
Proof.
  induction l as [|e l IH]; intro prev; [apply Z.le_refl|].
  cbn [highScore fold_left]. fold (highScore
    (match e with OnGameOver final => Z.max prev final | _ => prev end) l).
  etransitivity; [|apply IH]. destruct e; lia.
Qed.

Lemma update_game_over_last random dt g r :
  state g = PLAYING ->
  state (fst (update random dt g r)) = GAMEOVER ->
  exists l,
    log (snd (update random dt g r))
    = l ++ [OnGameOver (score (fst (update random dt g r)))].
Proof.
  intros St. rewrite update_resolve by exact St.
  pose proof (beforeCollisions_keeps random dt g r) as K. simpl in K.
  destruct K as (K1 & _).
  set (gb := fst (beforeCollisions random dt g r)) in *.
  set (rb := snd (beforeCollisions random dt g r)) in *.
  destruct (resolve_cases gb rb) as (os & g1 & r1 & ret & E1 & Ht & Hf).
  pose proof (obstacleLoop_gameOvers _ _ _ _ _ _ _ _ E1) as Go.
  destruct ret.
  - rewrite Ht by reflexivity. intros _. exact (proj2 Go).
  - destruct (Hf eq_refl) as (hs & g2 & r2 & E2 & ->). simpl.
    apply heartLoop_frame in E2. destruct E2 as (_ & _ & _ & _ & _ & S2 & _).
    apply obstacleLoop_shape in E1. destruct E1 as (_ & _ & S1).
    simpl in S2. rewrite (S1 eq_refl), K1, St in S2.
    intro X. congruence.
Qed.

Lemma startGame_state g r : state (fst (startGame g r)) = PLAYING.
Proof. unfold startGame. cbn. reflexivity. Qed.

Lemma act_highScore random prev a s :
  (state (fst s) = GAMEOVER ->
   (score (fst s) <= highScore prev (log (snd s)))%Z) ->
  state (fst (act random a s)) = GAMEOVER ->
  (score (fst (act random a s)) <= highScore prev (log (snd (act random a s))))%Z.
Proof.
  apply (act_invariant random
           (fun s => state (fst s) = GAMEOVER ->
                     (score (fst s) <= highScore prev (log (snd s)))%Z)).
  - intros g r _ X. rewrite startGame_state in X. discriminate.
  - intros g r H. unfold doJump. destruct (state g) eqn:St; try exact H.
    destruct (0 <? _)%Z; [|exact H]. cbn [fst state set_player].
    intro X. congruence.
  - intros g r H. unfold pauseGame. destruct (state g); try exact H.
    cbn. discriminate.
  - intros g r H. unfold resumeGame. destruct (state g); try exact H.
    cbn. discriminate.
  - intros w h ctx flies g r H. unfold handleResize.
    destruct ctx; cbn [negb fst snd]; exact H.
  - intros g r H X. cbn [fst snd] in H.
    destruct (update_state random step g r) as [E | (St & _)].
    + rewrite E in X. specialize (H X).
      rewrite update_idle by congruence. rewrite X.
      cbn [GameState_eqb fst snd score set_t log set_fireflies]. exact H.
    + destruct (update_game_over_last random step g r St X) as (l & ->).
      rewrite highScore_app. cbn [highScore fold_left]. lia.
Qed.

(** X19.  The high score covers the played sessions.  With [prev] the high
    score the page started from, in every state a session can reach the
    high score kept by [handleGameOver] is at least [prev], and when the
    game is over it is at least the score of the game. *)
Theorem high_score_covers_the_game
    (random : nat -> Q) (prev : Z) (w h : N) (ctx : bool) (bw : option Q)
    (flies : list Firefly) (now : Q) (acts : list Action) :
  let s := run random acts (init w h ctx bw flies now) in
  (prev <= highScore prev (log (snd s)))%Z
  /\ (state (fst s) = GAMEOVER ->
      (score (fst s) <= highScore prev (log (snd s)))%Z).
Proof.
  cbv zeta. split; [apply highScore_ge|].
  apply (run_invariant random
           (fun s => state (fst s) = GAMEOVER ->
                     (score (fst s) <= highScore prev (log (snd s)))%Z)).
  - intros a s. apply act_highScore.
  - cbn. discriminate.
Qed.

(** ** The room between the obstacles *)












(** ** Clamping *)

Lemma clamp_inside v a b : a <= v -> v <= b -> clamp v a b == v.
Proof.
  intros Ha Hb. unfold clamp, Math_max, Math_min.
  destruct (Qle_bool b v) eqn:E1.
  - apply Qle_bool_iff in E1.
    destruct (Qle_bool a b) eqn:E2; [lra|].
    assert (b < a) as X
      by (apply Qnot_le_lt; intro X; apply Qle_bool_iff in X; congruence).
    lra.
  - destruct (Qle_bool a v) eqn:E2; [reflexivity|].
    assert (v < a) as X
      by (apply Qnot_le_lt; intro X; apply Qle_bool_iff in X; congruence).
    lra.
Qed.

(** X21.  [clamp] in closed form.  For bounds [a <= b] the result lies
    between them, is the argument itself (as a number) when that lies
    between them, the lower bound when the argument is below it and the
    upper bound when the argument is above it; on the integers, where the
    hearts are clamped, it is the same function. *)
Theorem clamp_between_its_bounds (v a b : Q) (n lo hi : Z) :
  a <= b -> (lo <= hi)%Z ->
  (a <= clamp v a b /\ clamp v a b <= b)
  /\ (a <= v -> v <= b -> clamp v a b == v)
  /\ (v <= a -> clamp v a b == a)
  /\ (b <= v -> clamp v a b == b)
  /\ inject_Z (clampZ n lo hi) == clamp (inject_Z n) (inject_Z lo) (inject_Z hi).
Proof.
  intros H Hz. split; [apply clamp_range; exact H|].
  split; [apply clamp_inside|].
  pose proof (clamp_range v a b H) as (R1 & R2).
  split; [|split].
  - intro X. apply Qle_antisym; [|exact R1].
    apply clamp_below; [exact X | apply Qle_refl].
  - intro X. apply Qle_antisym; [exact R2|].
    unfold clamp, Math_max, Math_min.
    destruct (Qle_bool b v) eqn:E1.
    + destruct (Qle_bool a b) eqn:E2; [apply Qle_refl|].
      apply Qle_bool_iff in H. congruence.
    + assert (v < b) as Y
        by (apply Qnot_le_lt; intro Y; apply Qle_bool_iff in Y; congruence).
      lra.
  - unfold clampZ, clamp, Math_max, Math_min.
    destruct (Qle_bool (inject_Z hi) (inject_Z n)) eqn:E1.
    + apply Qle_bool_iff in E1. rewrite <- Zle_Qle in E1.
      rewrite (Z.min_l hi n) by exact E1.
      destruct (Qle_bool (inject_Z lo) (inject_Z hi)) eqn:E2.
      * rewrite Z.max_r by exact Hz. reflexivity.
      * rewrite Zle_Qle in Hz. apply Qle_bool_iff in Hz. congruence.
    + assert (n < hi)%Z as Y.
      { apply Z.lt_nge. intro Y. rewrite Zle_Qle in Y.
        apply Qle_bool_iff in Y. congruence. }
      rewrite (Z.min_r hi n) by lia.
      destruct (Qle_bool (inject_Z lo) (inject_Z n)) eqn:E2.
      * apply Qle_bool_iff in E2. rewrite <- Zle_Qle in E2.
        rewrite Z.max_r by exact E2. reflexivity.
      * assert (n < lo)%Z as Y2.
        { apply Z.lt_nge. intro Y2. rewrite Zle_Qle in Y2.
          apply Qle_bool_iff in Y2. congruence. }
        rewrite Z.max_l by lia. reflexivity.
Qed.

Lemma clamp_of_the_obstacle_interval :
  1.1 <= 2.4 /\ (0 <= 6)%Z /\ 1.1 <= clamp (2.1 - 200 * 0.01) 1.1 2.4.
Proof.
  assert (1.1 <= 2.4) as H by discriminate.
  assert (0 <= 6)%Z as Hz by discriminate.
  split; [exact H|]. split; [exact Hz|].
  exact (proj1 (proj1 (clamp_between_its_bounds (2.1 - 200 * 0.01) 1.1 2.4
                         2 0 6 H Hz))).
Defined.

(** ** The number of fireflies *)






(** ** A session without inputs *)

Lemma filter_keep {A : Type} (f : A -> bool) l :
  Forall (fun a => f a = true) l -> filter f l = l.
Proof.
  induction 1 as [|a l Ha Hl IH]; [reflexivity|].
  cbn [filter]. rewrite Ha, IH. reflexivity.
Qed.

Lemma farRight_clear g o :
  0 <= Player.w (player g) -> farRight (player g) o ->
  collide (playerBox g) (shrink (Obstacle.x o) (Obstacle.y o) (Obstacle.w o)
                           (Obstacle.h o)) = false
  /\ gtb (Player.x (player g)) (Obstacle.x o + Obstacle.w o) = false.
Proof.
  intros Hw (Hx & _ & Ho). split.
  - unfold collide, playerBox, shrink.
    cbn [Box.x Box.y Box.w Box.h].
    match goal with
    | |- ?a && gtb ?l ?r && ?c && ?d = false =>
        assert (gtb l r = false) as E
    end.
    { unfold gtb. apply ltb_ge. clear - Hw Hx Ho. lra. }
    rewrite E. rewrite andb_false_r. reflexivity.
  - unfold gtb. apply ltb_ge. clear - Hw Hx Ho. lra.
Qed.

Lemma obstacleLoop_far os : forall g r,
  0 <= Player.w (player g) ->
  Forall (farRight (player g)) os ->
  obstacleLoop (playerBox g) os g r = (os, g, r, false).
Proof.
  induction os as [|o os IH]; intros g r Hw F; [reflexivity|].
  inversion F as [|? ? Fo Fr]; subst.
  destruct (farRight_clear g o Hw Fo) as (C & P).
  cbn [obstacleLoop]. unfold hitObstacle. rewrite C. cbn [andb].
  unfold scoreObstacle. rewrite P, andb_false_r.
  rewrite (IH g r Hw Fr). reflexivity.
Qed.

Lemma resolve_far g r :
  0 <= Player.w (player g) ->
  -40 < Player.x (player g) + Player.w (player g) ->
  Forall (farRight (player g)) (obstacles g) ->
  state (fst (resolve g r)) = state g
  /\ obstacles (fst (resolve g r)) = obstacles g.
Proof.
  intros Hw Hx F.
  destruct (resolve_cases g r) as (os & g1 & r1 & ret & E1 & _ & Hf).
  rewrite (obstacleLoop_far (obstacles g) g r Hw F) in E1.
  inversion E1; subst os g1 r1 ret; clear E1.
  destruct (Hf eq_refl) as (hs & g2 & r2 & E2 & ->).
  apply heartLoop_frame in E2.
  destruct E2 as (_ & _ & O2 & _ & _ & S2 & _).
  cbn [fst cleanup state obstacles set_obstacles set_heartPickups] in *.
  split; [exact S2|]. rewrite O2. apply filter_keep.
  rewrite Forall_forall in F. apply Forall_forall. intros o Hin.
  destruct (F o Hin) as (Fx & Fr & Fw).
  unfold keepObstacle. rewrite Fr. cbn [negb andb]. unfold gtb.
  apply ltb_lt. clear - Hx Fx Fw. lra.
Qed.

(** A step of a settled session whose obstacles, once moved, are all to
    the right of the player: the step ends where the collisions start. *)
Lemma update_far random g r :
  settled (g, r) ->
  let gb := fst (beforeCollisions random step g r) in
  let g' := fst (update random step g r) in
  Forall (farRight (player gb)) (obstacles gb) ->
  settled (update random step g r)
  /\ obstacles g' = obstacles gb
  /\ obsTimer g' = obsTimer gb /\ obsInterval g' = obsInterval gb
  /\ difficultySeconds g' = difficultySeconds gb
  /\ lastObstacleX g' = lastObstacleX gb.
Proof.
  intros (St & Su & Sm & Sw & Sx & Spw). cbn [fst snd] in *. cbv zeta.
  rewrite update_resolve by exact St.
  pose proof (beforeCollisions_keeps random step g r) as K. cbv zeta in K.
  destruct K as (K1 & _ & _ & _ & Ku & _ & Kx & Kw & Ksw & _).
  pose proof (beforeCollisions_minGapPx random step g r) as Km.
  set (gb := fst (beforeCollisions random step g r)) in *.
  set (rb := snd (beforeCollisions random step g r)) in *.
  intro F.
  assert (Player.w (player samplePlay) == 48) as Ew by reflexivity.
  assert (Player.x (player samplePlay) == 140) as Ex by reflexivity.
  destruct (resolve_far gb rb) as (R1 & R2).
  { rewrite Kw, Spw, Ew. discriminate. }
  { rewrite Kx, Kw, Sx, Spw, Ew, Ex. reflexivity. }
  { exact F. }
  destruct (resolve_frame gb rb) as (W & C).
  destruct W as (_ & _ & _ & Wd & Wu & _ & _ & _ & _ & Wt & Wi & Wl & Wm & _
                 & _ & (Bx & _ & Bw & _)).
  unfold sameCells in C.
  split; [|split; [exact R2|]; split; [exact Wt|]; split; [exact Wi|];
           split; [exact Wd | exact Wl]].
  unfold settled. cbn [fst snd]. rewrite R1, K1, Wu, Ku, Wm, Km, Bx, Kx, Bw, Kw.
  rewrite C. change (sizeW (set_log (log (snd (resolve gb rb))) rb))
    with (sizeW rb). rewrite Ksw.
  repeat split; assumption.
Qed.

Lemma beforeCollisions_drawn random dt g r :
  geb (obsTimer g + dt) (obsInterval g) = true ->
  ltb (lastObstacleX g) (sizeW r - minGapPx g) = true ->
  obsInterval (fst (beforeCollisions random dt g r))
  = clamp (2.1 - (difficultySeconds g + dt) * 0.01) 1.1 2.4
    + (random (rng r) * 0.6 - 0.3).
Proof.
  intros Et Eg. unfold beforeCollisions, advance.
  match goal with
  | |- context [spawnObstacle random dt ?a ?b] =>
      set (gs := a); set (rs := b)
  end.
  destruct (spawnObstacle random dt gs rs) as [g3 r3] eqn:E.
  pose proof (spawnHeart_spawner random dt g3 r3) as S4.
  destruct (spawnHeart random dt g3 r3) as [g4 r4]. cbv zeta in S4.
  cbn [fst] in S4. destruct S4 as (_ & I4 & _).
  cbn [fst]. unfold moveWorld.
  cbn [set_obstacles set_heartPickups obsInterval]. rewrite I4.
  unfold spawnObstacle, Math_random in E.
  assert (obsTimer gs = obsTimer g /\ obsInterval gs = obsInterval g
          /\ lastObstacleX gs = lastObstacleX g /\ minGapPx gs = minGapPx g
          /\ sizeW rs = sizeW r)
    as (A1 & A2 & A3 & A4 & A8).
  { unfold gs, rs, physics, ramp, scroll. branches; repeat split. }
  cbn [obsTimer set_obsTimer obsInterval lastObstacleX minGapPx] in E.
  rewrite A1, A2, A3, A4, A8, Et, Eg in E.
  inversion E; subst g3; clear E. reflexivity.
Qed.

Lemma nat_below (n k : nat) :
  (n <= k)%nat ->
  0 <= inject_Z (Z.of_nat n)
  /\ inject_Z (Z.of_nat n) <= inject_Z (Z.of_nat k).
Proof.
  intro H. split.
  - change 0 with (inject_Z 0). rewrite <- Zle_Qle. lia.
  - rewrite <- Zle_Qle. lia.
Qed.

Lemma sample_geometry :
  u samplePlay == 1 /\ minGapPx samplePlay == 280
  /\ sizeW sampleRefs == 960
  /\ Player.x (player samplePlay) == 140
  /\ Player.w (player samplePlay) == 48.
Proof. repeat split; vm_compute; reflexivity. Qed.

(** The scroll of one step, within its bounds while the seconds played are
    between 0 and 4.2. *)
Lemma scroll_of_a_step (d : Q) :
  0 <= d -> d <= 4.2 ->
  5 <= (350 + (d + step) * 4) * step
  /\ (350 + (d + step) * 4) * step <= 6.2.
Proof.
  intros H0 H1. pose proof step_eq as Es.
  assert ((350 + (d + step) * 4) * step
          == (350 + (d + (1 # 60)) * 4) * (1 # 60)) as E
    by (rewrite Es; reflexivity).
  rewrite E. clear - H0 H1. split; lra.
Qed.

Lemma quietA_step n s :
  (n <= 124)%nat -> quietA n s -> quietA (S n) (act half FixedStep s).
Proof.
  destruct s as [g r]. intros Hn (Hs & Ho & Ht & Hi & Hd & Hl).
  cbn [fst snd] in Ho, Ht, Hi, Hd, Hl. cbn [act].
  destruct (nat_below n 124 Hn) as (N0 & N1).
  change (inject_Z (Z.of_nat 124)) with 124 in N1.
  pose proof step_eq as Es.
  assert (geb (obsTimer g + step) (obsInterval g) = false) as Et
    by (apply geb_lt; clear - Ht Hi N1 Es; lra).
  pose proof (beforeCollisions_spawner half step g r) as S. cbv zeta in S.
  destruct S as (_ & Slow & _). destruct (Slow Et) as (Tb & Lb & Ob).
  pose proof (beforeCollisions_clock half step g r) as C. cbv zeta in C.
  destruct C as ([Ib | (X & _)] & _); [|congruence].
  pose proof (beforeCollisions_difficulty half step g r) as Db.
  pose proof (update_far half g r Hs) as U. cbv zeta in U.
  rewrite Ho in Ob. cbn [map] in Ob.
  destruct U as (Us & Uo & Ut & Ui & Ud & Ul);
    [rewrite Ob; constructor|].
  destruct (scroll_of_a_step (difficultySeconds g)) as (V0 & _);
    [clear - Hd N0; lra | clear - Hd N1; lra|].
  unfold quietA. cbn [fst].
  rewrite Uo, Ut, Ui, Ud, Ul, Ob, Tb, Ib, Db, Lb, inject_S.
  split; [exact Us|]. split; [reflexivity|].
  split; [clear - Ht Es; lra|]. split; [exact Hi|].
  split; [clear - Hd Es; lra|]. clear - Hl V0. lra.
Qed.

Lemma quietA_run k : forall n s,
  (n + k <= 125)%nat -> quietA n s ->
  quietA (n + k) (run half (repeat FixedStep k) s).
Proof.
  induction k as [|k IH]; intros n s Hn H.
  - rewrite Nat.add_0_r. exact H.
  - rewrite Nat.add_succ_r. change (S (n + k)) with (S n + k)%nat.
    change (run half (repeat FixedStep (S k)) s)
      with (run half (repeat FixedStep k) (act half FixedStep s)).
    apply IH; [lia|]. apply quietA_step; [lia | exact H].
Qed.

Lemma spawned_far type g r :
  Obstacle.remove (spawned type g r) = false
  /\ Obstacle.x (spawned type g r) = sizeW r + 40 * u g
  /\ (Obstacle.w (spawned type g r) = 52 * u g
      \/ Obstacle.w (spawned type g r) = 92 * u g).
Proof. destruct type; repeat split; [left | right]; reflexivity. Qed.

Lemma first_obstacle s : quietA 125 s -> quietB 0 (act half FixedStep s).
Proof.
  destruct s as [g r]. intros (Hs & Ho & Ht & Hi & Hd & Hl).
  cbn [fst snd] in Ho, Ht, Hi, Hd, Hl. cbn [act].
  change (inject_Z (Z.of_nat 125)) with 125 in *.
  pose proof step_eq as Es.
  destruct sample_geometry as (Gu & Gm & Gw & Gx & Gpw).
  pose proof Hs as (_ & Su & Sm & Sw & Sx & Spw). cbn [fst snd] in *.
  assert (geb (obsTimer g + step) (obsInterval g) = true) as Et
    by (apply geb_le; clear - Ht Hi Es; lra).
  assert (ltb (lastObstacleX g) (sizeW r - minGapPx g) = true) as Eg
    by (apply ltb_lt; rewrite Sw, Sm; clear - Hl Gm Gw; lra).
  pose proof (beforeCollisions_spawner half step g r) as S. cbv zeta in S.
  destruct S as (_ & _ & _ & Spass).
  destruct (Spass Et Eg) as (Tb & Lb & o & _ & _ & _ & Oo & _).
  pose proof (beforeCollisions_field half step g r) as (Fo & _).
  pose proof (beforeCollisions_drawn half step g r Et Eg) as Ib.
  pose proof (beforeCollisions_difficulty half step g r) as Db.
  pose proof (beforeCollisions_keeps half step g r) as K. cbv zeta in K.
  destruct K as (_ & _ & _ & _ & _ & _ & Kx & Kw & _).
  rewrite Ho in Oo, Fo. cbn [map app] in Oo, Fo.
  destruct Fo as [Fo | (type & Fo)]; [rewrite Fo in Oo; discriminate Oo|].
  clear Oo o.
  destruct (spawned_far type g r) as (Pr & Px & Pw).
  destruct (scroll_of_a_step (difficultySeconds g)) as (V0 & V1);
    [clear - Hd; lra | clear - Hd; lra|].
  set (vx := (350 + (difficultySeconds g + step) * 4) * step) in *.
  assert (0 <= Obstacle.w (spawned type g r)) as W0
    by (destruct Pw as [-> | ->]; rewrite Su; clear - Gu; lra).
  pose proof (update_far half g r Hs) as U. cbv zeta in U.
  destruct U as (Us & Uo & Ut & Ui & Ud & Ul).
  { rewrite Fo. constructor; [|constructor].
    split; [|split; [exact Pr | exact W0]].
    rewrite moved_x, Px, Kx, Kw, Sx, Spw, Sw, Su.
    clear - V1 Gu Gw Gx Gpw. lra. }
  unfold quietB. cbn [fst].
  rewrite Uo, Ut, Ui, Ud, Ul, Fo, Tb, Ib, Db, Lb.
  split; [exact Us|]. split.
  { eexists. split; [reflexivity|]. split; [exact Pr|]. split; [exact W0|].
    rewrite moved_x, Px, Sw, Su. change (inject_Z (Z.of_nat 0)) with 0.
    clear - V1 Gu Gw. lra. }
  change (inject_Z (Z.of_nat 0)) with 0.
  split; [reflexivity|]. split.
  { rewrite (clamp_inside (2.1 - (difficultySeconds g + step) * 0.01) 1.1 2.4);
      [|clear - Hd Es; lra | clear - Hd Es; lra].
    unfold half. clear - Hd Es. lra. }
  split; [clear - Hd Es; lra|]. rewrite Sw, Su. clear - Gu Gw. lra.
Qed.

Lemma quietB_step m s :
  (m <= 123)%nat -> quietB m s -> quietB (S m) (act half FixedStep s).
Proof.
  destruct s as [g r].
  intros Hm (Hs & (o & Ho & Or & Ow & Ox) & Ht & Hi & Hd & Hl).
  cbn [fst snd] in Ho, Ht, Hi, Hd, Hl. cbn [act].
  destruct (nat_below m 123 Hm) as (N0 & N1).
  change (inject_Z (Z.of_nat 123)) with 123 in N1.
  pose proof step_eq as Es.
  destruct sample_geometry as (Gu & Gm & Gw & Gx & Gpw).
  pose proof Hs as (_ & Su & Sm & Sw & Sx & Spw). cbn [fst snd] in *.
  assert (geb (obsTimer g + step) (obsInterval g) = false) as Et
    by (apply geb_lt; clear - Ht Hi N1 Es; lra).
  pose proof (beforeCollisions_spawner half step g r) as S. cbv zeta in S.
  destruct S as (_ & Slow & _). destruct (Slow Et) as (Tb & Lb & Ob).
  pose proof (beforeCollisions_clock half step g r) as C. cbv zeta in C.
  destruct C as ([Ib | (X & _)] & _); [|congruence].
  pose proof (beforeCollisions_difficulty half step g r) as Db.
  pose proof (beforeCollisions_keeps half step g r) as K. cbv zeta in K.
  destruct K as (_ & _ & _ & _ & _ & _ & Kx & Kw & _).
  rewrite Ho in Ob. cbn [map] in Ob.
  destruct (scroll_of_a_step (difficultySeconds g)) as (V0 & V1);
    [clear - Hd N0; lra | clear - Hd N1; lra|].
  set (vx := (350 + (difficultySeconds g + step) * 4) * step) in *.
  pose proof (update_far half g r Hs) as U. cbv zeta in U.
  destruct U as (Us & Uo & Ut & Ui & Ud & Ul).
  { rewrite Ob. constructor; [|constructor].
    split; [|split; [exact Or | exact Ow]].
    rewrite moved_x, Kx, Kw, Sx, Spw.
    clear - V1 Ox N1 Gx Gpw. lra. }
  unfold quietB. cbn [fst].
  rewrite Uo, Ut, Ui, Ud, Ul, Ob, Tb, Ib, Db, Lb, inject_S.
  split; [exact Us|]. split.
  { eexists. split; [reflexivity|]. split; [exact Or|]. split; [exact Ow|].
    rewrite moved_x, inject_S. clear - V1 Ox. lra. }
  split; [clear - Ht Es; lra|]. split; [exact Hi|].
  split; [clear - Hd Es; lra|]. clear - Hl V0. lra.
Qed.

Lemma quietB_run k : forall m s,
  (m + k <= 124)%nat -> quietB m s ->
  quietB (m + k) (run half (repeat FixedStep k) s).
Proof.
  induction k as [|k IH]; intros m s Hm H.
  - rewrite Nat.add_0_r. exact H.
  - rewrite Nat.add_succ_r. change (S (m + k)) with (S m + k)%nat.
    change (run half (repeat FixedStep (S k)) s)
      with (run half (repeat FixedStep k) (act half FixedStep s)).
    apply IH; [lia|]. apply quietB_step; [lia | exact H].
Qed.

Lemma second_obstacle s :
  quietB 124 s ->
  let g' := fst (act half FixedStep s) in
  state g' = PLAYING /\ length (obstacles g') = 2%nat
  /\ obsInterval g' < 2.1.
Proof.
  destruct s as [g r].
  intros (Hs & (o & Ho & Or & Ow & Ox) & Ht & Hi & Hd & Hl).
  cbn [fst snd] in Ho, Ht, Hi, Hd, Hl. cbv zeta. cbn [act].
  change (inject_Z (Z.of_nat 124)) with 124 in *.
  pose proof step_eq as Es.
  destruct sample_geometry as (Gu & Gm & Gw & Gx & Gpw).
  pose proof Hs as (_ & Su & Sm & Sw & Sx & Spw). cbn [fst snd] in *.
  assert (geb (obsTimer g + step) (obsInterval g) = true) as Et
    by (apply geb_le; clear - Ht Hi Es; lra).
  assert (ltb (lastObstacleX g) (sizeW r - minGapPx g) = true) as Eg
    by (apply ltb_lt; rewrite Sw, Sm; clear - Hl Gm Gw; lra).
  pose proof (beforeCollisions_spawner half step g r) as S. cbv zeta in S.
  destruct S as (_ & _ & _ & Spass).
  destruct (Spass Et Eg) as (_ & _ & o2 & _ & _ & _ & Oo & _).
  pose proof (beforeCollisions_field half step g r) as (Fo & _).
  pose proof (beforeCollisions_drawn half step g r Et Eg) as Ib.
  pose proof (beforeCollisions_keeps half step g r) as K. cbv zeta in K.
  destruct K as (_ & _ & _ & _ & _ & _ & Kx & Kw & _).
  rewrite Ho in Oo, Fo. cbn [map app] in Oo, Fo.
  destruct Fo as [Fo | (type & Fo)]; [rewrite Fo in Oo; discriminate Oo|].
  clear Oo o2.
  destruct (spawned_far type g r) as (Pr & Px & Pw).
  destruct (scroll_of_a_step (difficultySeconds g)) as (V0 & V1);
    [clear - Hd; lra | clear - Hd; lra|].
  set (vx := (350 + (difficultySeconds g + step) * 4) * step) in *.
  assert (0 <= Obstacle.w (spawned type g r)) as W0
    by (destruct Pw as [-> | ->]; rewrite Su; clear - Gu; lra).
  pose proof (update_far half g r Hs) as U. cbv zeta in U.
  destruct U as ((St & _) & Uo & _ & Ui & _).
  { rewrite Fo. constructor; [|constructor; [|constructor]].
    - split; [|split; [exact Or | exact Ow]].
      rewrite moved_x, Kx, Kw, Sx, Spw. clear - V1 Ox Gx Gpw. lra.
    - split; [|split; [exact Pr | exact W0]].
      rewrite moved_x, Px, Kx, Kw, Sx, Spw, Sw, Su.
      clear - V1 Gu Gw Gx Gpw. lra. }
  cbn [fst] in St. split; [exact St|]. rewrite Uo, Ui, Fo, Ib.
  split; [reflexivity|].
  rewrite (clamp_inside (2.1 - (difficultySeconds g + step) * 0.01) 1.1 2.4);
    [|clear - Hd Es; lra | clear - Hd Es; lra].
  unfold half. clear - Hd Es. lra.
Qed.

Lemma run_cons random a l s :
  run random (a :: l) s = run random l (act random a s).
Proof. reflexivity. Qed.

Lemma run_app random l1 l2 s :
  run random (l1 ++ l2) s = run random l2 (run random l1 s).
Proof. unfold run. apply fold_left_app. Qed.

Lemma steps_251 :
  repeat FixedStep 251
  = repeat FixedStep 125 ++ FixedStep :: repeat FixedStep 124 ++ [FixedStep].
Proof. reflexivity. Qed.

Lemma sample_start :
  act half PointerSettled (init 960 540 true (Some 1920) [] 0)
  = startGame sampleTitle sampleRefs.
Proof. reflexivity. Qed.

Lemma sample_start_quiet : quietA 0 (startGame sampleTitle sampleRefs).
Proof.
  split; [repeat split|]. split; [apply startGame_field|].
  repeat split; vm_compute; (reflexivity || discriminate).
Qed.

(** The sample session, started by a pointer press and left alone for 251
    steps, is being played with two obstacles on the field, the second
    interval drawn. *)
Lemma session_left_alone :
  let g :=
    fst (run half (PointerSettled :: repeat FixedStep 251)
           (init 960 540 true (Some 1920) [] 0)) in
  state g = PLAYING /\ length (obstacles g) = 2%nat /\ obsInterval g < 2.1.
Proof.
  cbv zeta. rewrite run_cons, sample_start, steps_251, run_app, run_cons.
  rewrite run_app, run_cons.
  pose proof (quietA_run 125 0 _ (Nat.le_refl 125) sample_start_quiet) as A.
  apply first_obstacle in A.
  pose proof (quietB_run 124 0 _ (Nat.le_refl 124) A) as B.
  exact (second_obstacle _ B).
Qed.


(** X13 in the sample session left alone for 251 steps: two obstacles
    were spawned, and the interval drawn at the second spawn is in
    range. *)
Lemma spawn_clocks_after_two_spawns :
  (forall n, 0 <= half n /\ half n < 1)
  /\ obsInterval
       (fst (run half (PointerSettled :: repeat FixedStep 251)
               (init 960 540 true (Some 1920) [] 0))) < 2.1
  /\ 0.8 <= obsInterval
              (fst (run half (PointerSettled :: repeat FixedStep 251)
                      (init 960 540 true (Some 1920) [] 0))).
Proof.
  assert (forall n, 0 <= half n /\ half n < 1) as Hr
    by (intro n; split; [discriminate | reflexivity]).
  destruct session_left_alone as (_ & _ & I).
  split; [exact Hr|]. split; [exact I|].
  exact (proj1 (proj1 (spawn_clocks_stay_in_range half 960 540 true
                         (Some 1920) [] 0
                         (PointerSettled :: repeat FixedStep 251) Hr))).
Defined.

